(** * FandomScraper: a shallow embedding of [src/scraper.ts]

    The class [FandomScraper] walks the paginated character listing of a
    Fandom wiki, fetches every listed character page and extracts the
    fields named by the wiki's data source.  This file embeds the class
    method by method and proves the properties of its traversal
    (offset and limit bookkeeping, ban list, error handling) and of its
    field extraction.

    Conventions of the embedding.
    - A JavaScript number is a double: [Js.number] has the rationals for
      the finite values (every finite double is one), [NaN] and the two
      infinities.  The options [limit] and [offset] and the id of a record
      are such numbers, and [parseInt] rounds to the nearest double.  The
      local counters [count] and [offset] of [_getAllClassic] start at [0]
      and grow by one for each entry of the listing: they are integers [Z],
      which doubles count exactly up to [2^53].
    - A JavaScript string is a [string]; [null] and [undefined] are [None].
    - The methods are [async]; one run is sequential, so a method is a
      function from the world before the call to an outcome and the world
      after it.  The world holds the instance ([this]), the list of URLs
      requested so far and the console.
    - The web is a function from URLs to responses: the same URL gives the
      same response during one run.
    - [while] needs fuel: a listing whose "next" links never end makes the
      source loop for ever, and the embedding then answers [Unfinished].
    - What [scraper.ts] imports from files that are not modelled
      ([allCharactersPage], [removeBrackets], [Schemas]) and what the
      platform provides ([fetch], jsdom, [URL], [toLowerCase], [Buffer]) are
      fields of an environment [Env]: the theorems hold for every
      environment.  The registry [Schemas] is a finite map: the properties
      a JavaScript object inherits from its prototype are not modelled. *)

From Stdlib Require Import ZArith QArith String Ascii List Bool Lia.
From Stdlib Require Import Floats.SpecFloat.
From Stdlib Require Import DecimalNat DecimalString.
From stdpp Require Import base option list gmap strings.

Local Open Scope string_scope.
Local Open Scope Z_scope.
Local Open Scope list_scope.

(** ** Strings *)

Module Js.

(** [s.startsWith(p)] *)
Fixpoint startsWith (s p : string) {struct p} : bool :=
  match p, s with
  | EmptyString, _ => true
  | String _ _, EmptyString => false
  | String a p', String b s' => if Ascii.eqb a b then startsWith s' p' else false
  end.

(** [s.includes(t)] *)
Fixpoint includes (s t : string) : bool :=
  startsWith s t ||
  match s with
  | EmptyString => false
  | String _ s' => includes s' t
  end.

(** Truthiness of a [string | null] value: [!v] is [negb (truthy v)]. *)
Definition truthy (v : option string) : bool :=
  match v with
  | None => false
  | Some EmptyString => false
  | Some (String _ _) => true
  end.

(** [v ?? d] and [v || d] on a [string | null | undefined]. *)
Definition nullish (v : option string) (d : string) : string :=
  match v with Some s => s | None => d end.

Definition or_else (v : option string) (d : string) : string :=
  if truthy v then nullish v d else d.

(** The decimal digits, [\d]. *)
Definition isDigit (c : ascii) : bool :=
  let n := nat_of_ascii c in (48 <=? n)%nat && (n <=? 57)%nat.

Definition digitValue (c : ascii) : Z := Z.of_nat (nat_of_ascii c) - 48.

(** The integer that a string of digits writes, most significant first. *)
Fixpoint parseDigits (acc : Z) (ds : string) : Z :=
  match ds with
  | EmptyString => acc
  | String c ds' => parseDigits (10 * acc + digitValue c) ds'
  end.

(** The longest run of digits at the start of [s]: what a greedy [\d+]
    consumes there. *)
Fixpoint takeDigits (s : string) : string :=
  match s with
  | EmptyString => EmptyString
  | String c s' => if isDigit c then String c (takeDigits s') else EmptyString
  end.

(** [s.substring(n)] *)
Fixpoint dropString (n : nat) (s : string) : string :=
  match n, s with
  | O, _ => s
  | S _, EmptyString => EmptyString
  | S n', String _ s' => dropString n' s'
  end.

(** *** Numbers

    The value of a finite double is a rational; the comparisons of IEEE 754
    compare the values, and answer [false] as soon as one side is [NaN]. *)

Inductive number : Type :=
| NaN
| Infinity
| NegInfinity
| Finite (q : Q).

(** The number of an integer. *)
Definition ofZ (z : Z) : number := Finite (inject_Z z).

(** [a < b] *)
Definition lt (a b : number) : bool :=
  match a, b with
  | NaN, _ => false
  | _, NaN => false
  | Infinity, _ => false
  | _, NegInfinity => false
  | NegInfinity, _ => true
  | Finite _, Infinity => true
  | Finite x, Finite y => negb (Qle_bool y x)
  end.

(** [a <= b] *)
Definition le (a b : number) : bool :=
  match a, b with
  | NaN, _ => false
  | _, NaN => false
  | NegInfinity, _ => true
  | _, Infinity => true
  | Infinity, _ => false
  | Finite _, NegInfinity => false
  | Finite x, Finite y => Qle_bool x y
  end.

(** [a > b] and [a >= b] *)
Definition gt (a b : number) : bool := lt b a.

Definition ge (a b : number) : bool := le b a.

(** [a == b], which on two numbers is [a === b] *)
Definition eq (a b : number) : bool :=
  match a, b with
  | Infinity, Infinity => true
  | NegInfinity, NegInfinity => true
  | Finite x, Finite y => Qeq_bool x y
  | _, _ => false
  end.

(** The double nearest to the integer [n >= 0], ties to the even
    significand: [n] itself below [2^53]; above, the 53 leading bits of [n],
    rounded on the bits dropped; [Infinity] when the result passes the
    largest double. *)
Definition nearest (n : Z) : number :=
  if n <? 2 ^ 53 then ofZ n
  else
    let e := Z.log2 n - 52 in
    let q := Z.shiftr n e in
    let r := n - Z.shiftl q e in
    let half := Z.shiftl 1 (e - 1) in
    let m := if (r <? half) || ((r =? half) && Z.even q) then q else q + 1 in
    if Z.shiftl m e <? 2 ^ 1024 then ofZ (Z.shiftl m e) else Infinity.

(** The same rounding, by the specification of IEEE 754 of the Standard
    Library in the binary64 format: what [nearest] is compared with. *)
Definition ieee (n : Z) : number :=
  match binary_normalize 53 1024 n 0 false with
  | S754_zero _ => ofZ 0
  | S754_infinity s => if s then NegInfinity else Infinity
  | S754_nan => NaN
  | S754_finite s m e =>
      let v := if 0 <=? e then Z.pos m * 2 ^ e else Z.pos m / 2 ^ (- e) in
      ofZ (if s then - v else v)
  end.

(** [parseInt(ds, 10)] on a string of digits: the number of the integer
    they write, correctly rounded (ECMAScript lets an engine approximate the
    integer from its 21st significant digit on). *)
Definition parseInt (ds : string) : number := nearest (parseDigits 0 ds).

(** [x] is the whole number [n]. *)
Definition isInt (x : number) (n : Z) : Prop := eq x (ofZ n) = true.

End Js.

Arguments Js.lt : simpl never.
Arguments Js.le : simpl never.
Arguments Js.gt : simpl never.
Arguments Js.ge : simpl never.
Arguments Js.eq : simpl never.
Arguments Js.ofZ : simpl never.
Arguments Js.nearest : simpl never.

(** ** Errors, outcomes and the monad of a run *)

Inductive exn : Type :=
| Error (msg : string)
| TypeError (msg : string)
| SyntaxError (msg : string).

Inductive outcome (A : Type) : Type :=
| Ok (a : A)
| Throw (e : exn)
| Unfinished.
Arguments Ok {A} a.
Arguments Throw {A} e.
Arguments Unfinished {A}.

(** [String(err)], as a template literal renders an error. *)
Definition exn_toString (e : exn) : string :=
  match e with
  | Error msg => "Error: " +:+ msg
  | TypeError msg => "TypeError: " +:+ msg
  | SyntaxError msg => "SyntaxError: " +:+ msg
  end.

(** A settled promise. *)
Inductive response (A : Type) : Type :=
| Resolved (a : A)
| Rejected (err : exn).
Arguments Resolved {A} a.
Arguments Rejected {A} err.

(** The completion of a call that may throw. *)
Inductive completion (A : Type) : Type :=
| Normal (a : A)
| Abrupt (e : exn).
Arguments Normal {A} a.
Arguments Abrupt {A} e.

(** ** The document object model used by the scraper

    The scraper is written against jsdom.  It only uses the operations
    below, so the embedding is parametric in them: every theorem holds for
    any implementation.  [querySelectorDataSource d k] stands for
    [d.querySelector('[data-source="k"]')]: the first element that matches,
    [null] when there is none, and an error thrown when [k] makes the
    selector ill-formed. *)

Class DOM : Type := {
  Document : Type;
  Element : Type;
  getElementsByClassName : Document -> string -> list Element;
  getElementsByTagName : Document -> string -> list Element;
  querySelectorDataSource : Document -> string -> completion (option Element);
  getAttribute : Element -> string -> option string;
  textContent : Element -> option string;
  descendantsByClassName : Element -> string -> list Element
}.

(** ** The data of the scraper *)

Inductive TPageFormats : Type := classic | table_1 | table_2.

(** [IDataSource]: the locator of every field, in the order of the keys of
    the object.  An [undefined] locator is the empty string: both are
    falsy. *)
Definition IDataSource : Type := list (string * string).

Record ISchema : Type := {
  url : string;
  pageFormat : TPageFormats;
  charactersUrl : string;
  dataSource : IDataSource
}.

Record IConstructor : Type := {
  name : string;
  language : option string
}.

Record IGetCharactersOptions : Type := {
  limit : Js.number;
  offset : Js.number;
  recursive : bool;
  base64 : bool;
  withId : bool
}.

(** The value of a key of [data]: a cleaned text or the list of images. *)
Inductive Value : Type :=
| VStr (s : string)
| VList (l : list string).

(** [IData].  [id = None]: the record has no [id]; [data = None]: [data] is
    [undefined]. *)
Record IData : Type := {
  r_id : option Js.number;
  r_url : string;
  r_name : string;
  r_data : option (gmap string Value)
}.

Inductive logged : Type :=
| LogError (e : exn)
| LogMessage (s : string)
| LogMessageError (s : string) (e : exn).

Section Runtime.

Context `{dom : DOM}.

(** What the class imports and what the platform provides. *)
Record Env : Type := {
  (** [allCharactersPage.classic] of [./utils/] *)
  listCharactersElement : string;
  banList : list string;
  nextValue : string;
  (** [removeBrackets] of [./func/parsing] *)
  removeBrackets : string -> string;
  (** [Schemas] of [./schemas]: fiction name, then language *)
  Schemas : gmap string (gmap string ISchema);
  (** [String.prototype.toLowerCase] *)
  toLowerCase : string -> string;
  (** [new URL(u, base).href]; [None] when the constructor throws *)
  URL_href : string -> string -> option string;
  (** [fetch(u)] followed by the parse of the body by jsdom *)
  fetchDocument : string -> response Document;
  (** [fetch(u)] followed by [arrayBuffer()] *)
  fetchBytes : string -> response (list Byte.byte);
  (** [Buffer.from(b).toString('base64')] *)
  toBase64 : list Byte.byte -> string
}.

Record FandomScraper : Type := {
  _schema : option ISchema;
  _CharactersPage : option Document
}.

Record World : Type := {
  self : FandomScraper;
  requests : list string;
  console : list logged
}.

Definition M (A : Type) : Type := World -> outcome A * World.

Definition ret {A} (a : A) : M A := fun w => (Ok a, w).

Definition bind {A B} (m : M A) (k : A -> M B) : M B :=
  fun w =>
    match m w with
    | (Ok a, w') => k a w'
    | (Throw e, w') => (Throw e, w')
    | (Unfinished, w') => (Unfinished, w')
    end.

Definition throw {A} (e : exn) : M A := fun w => (Throw e, w).

Definition unfinished {A} : M A := fun w => (Unfinished, w).

(** [try { m } catch (err) { h err }] *)
Definition try_catch {A} (m : M A) (h : exn -> M A) : M A :=
  fun w =>
    match m w with
    | (Throw e, w') => h e w'
    | r => r
    end.

Definition get_self : M FandomScraper := fun w => (Ok (self w), w).

Definition set_CharactersPage (d : Document) : M unit :=
  fun w =>
    (Ok tt, {| self := {| _schema := _schema (self w); _CharactersPage := Some d |};
               requests := requests w;
               console := console w |}).

(** The world with one more request. *)
Definition logging_request (w : World) (u : string) : World :=
  {| self := self w; requests := requests w ++ [u]; console := console w |}.

Definition request (u : string) : M unit :=
  fun w => (Ok tt, logging_request w u).

(** The world with one more line on the console. *)
Definition logging (w : World) (l : logged) : World :=
  {| self := self w; requests := requests w; console := console w ++ [l] |}.

Definition console_error (l : logged) : M unit :=
  fun w => (Ok tt, logging w l).

End Runtime.

Notation "x <- m ;; k" := (bind m (fun x => k))
  (at level 100, m at next level, right associativity, only parsing).

(** ** The class [FandomScraper] *)

Section Methods.

Context `{dom : DOM} (env : Env).

(** *** [constructor] and [isValidConstructor] *)

Definition isValidConstructor (c : IConstructor) : bool :=
  Js.truthy (Some (name c)).

(** [Schemas[name][language]]: reading a property of [undefined] throws a
    [TypeError]; a language the fiction does not have gives [undefined]. *)
Definition constructor (c : IConstructor) : outcome FandomScraper :=
  if negb (isValidConstructor c)
  then Throw (Error ("Invalid wiki name: " +:+ name c))
  else
    let language := match language c with None => "en" | Some l => l end in
    match Schemas env !! name c with
    | None => Throw (TypeError "Cannot read properties of undefined")
    | Some byLanguage =>
        Ok {| _schema := byLanguage !! language; _CharactersPage := None |}
    end.


(** [this._schema], dereferenced. *)
Definition this_schema : M ISchema :=
  s <- get_self ;;
  match _schema s with
  | Some sc => ret sc
  | None => throw (TypeError "Cannot read properties of undefined")
  end.

(** [this._CharactersPage], dereferenced. *)
Definition this_CharactersPage : M Document :=
  s <- get_self ;;
  match _CharactersPage s with
  | Some d => ret d
  | None => throw (TypeError "Cannot read properties of undefined")
  end.

(** *** [fetchPage] and [getCharactersPage]

    The parse of the body by jsdom is taken not to throw. *)

Definition fetchPage (u : string) : M Document :=
  _ <- request u ;;
  match fetchDocument env u with
  | Resolved d => ret d
  | Rejected err =>
      throw (Error ("Error while fetching " +:+ u +:+ ": " +:+ exn_toString err))
  end.

Definition getCharactersPage (u : string) : M unit :=
  d <- fetchPage u ;;
  set_CharactersPage d.

(** *** [convertImageToBase64] *)

Definition convertImageToBase64 (imageUrl : string) : M string :=
  try_catch
    (_ <- request imageUrl ;;
     match fetchBytes env imageUrl with
     | Resolved buffer => ret (toBase64 env buffer)
     | Rejected err => throw err
     end)
    (fun error =>
       _ <- console_error (LogMessageError "Error fetching or converting image:" error) ;;
       throw error).

(** *** [filterBannedElement] *)

Definition filterBannedElement (elements : list Element) (banList : list string)
  : list Element :=
  List.filter
    (fun element =>
       let innerText := Js.nullish (option_map (toLowerCase env) (textContent element)) "" in
       negb (List.existsb
               (fun substring => Js.includes innerText (toLowerCase env substring))
               banList))
    elements.

(** *** [extractPageId] *)

(** The text ["pageId":] of the regular expression, quotes included. *)
Definition pageIdKey : string :=
  String "034" ("pageId" +:+ String "034" ":").

(** [s.match(/"pageId":(\d+)/)]: the leftmost match, as the pair of the
    whole match and of its group ([match.length] is then 2, so the test
    [match.length > 1] of the source holds for every match); [\d+] is
    greedy. *)
Fixpoint matchPageId (s : string) : option (string * string) :=
  let digits := Js.takeDigits (Js.dropString 9 s) in
  if Js.startsWith s pageIdKey && Js.truthy (Some digits)
  then Some (pageIdKey +:+ digits, digits)
  else
    match s with
    | EmptyString => None
    | String _ s' => matchPageId s'
    end.

Definition extractPageId (scriptContent : string) : Js.number :=
  match matchPageId scriptContent with
  | Some (_, group) => Js.parseInt group
  | None => Js.ofZ 0
  end.

(** *** [parseCharacterPage] *)

(** The loop over the elements of the images locator. *)
Fixpoint pushImages (options : IGetCharactersOptions) (key : string)
    (elements : list Element) (images : list string) : M (list string) :=
  match elements with
  | [] => ret images
  | element :: rest =>
      let src := getAttribute element "src" in
      if negb (Js.truthy src)
      then
        _ <- console_error (LogMessage ("No src found for key " +:+ key)) ;;
        pushImages options key rest images
      else
        if base64 options
        then
          b64 <- convertImageToBase64 (Js.nullish src "") ;;
          pushImages options key rest (images ++ [b64])
        else pushImages options key rest (images ++ [Js.nullish src ""])
  end.

(** One turn of [for (const key in format)].  The test [if (!elements)]
    of the images branch is left out: a collection, even empty, is truthy.
    The branch does not end with [continue]: the general extraction below
    runs for [images] too.  An error thrown by [querySelector] leaves the
    method. *)
Definition parseField (page : Document) (options : IGetCharactersOptions)
    (key sourceKey : string) (data : gmap string Value) : M (gmap string Value) :=
  if negb (Js.truthy (Some sourceKey)) then ret data
  else
    data <- (if String.eqb key "images"
             then
               images <- pushImages options key (getElementsByClassName page sourceKey) [] ;;
               ret (<[key := VList images]> data)
             else ret data) ;;
    match querySelectorDataSource page sourceKey with
    | Abrupt e => throw e
    | Normal None => ret data
    | Normal (Some element) =>
        match head (descendantsByClassName element "pi-data-value") with
        | None => ret data
        | Some valueElement =>
            let value := textContent valueElement in
            if negb (Js.truthy value) then ret data
            else ret (<[key := VStr (removeBrackets env (Js.nullish value ""))]> data)
        end
    end.

Fixpoint parseFields (page : Document) (options : IGetCharactersOptions)
    (format : IDataSource) (data : gmap string Value) : M (gmap string Value) :=
  match format with
  | [] => ret data
  | (key, sourceKey) :: rest =>
      data <- parseField page options key sourceKey data ;;
      parseFields page options rest data
  end.

Definition parseCharacterPage (page : Document) (options : IGetCharactersOptions)
  : M (gmap string Value) :=
  schema <- this_schema ;;
  parseFields page options (dataSource schema) ∅.

(** *** [_getAllClassic] *)

(** The local variables of [_getAllClassic]. *)
Record Locals : Type := {
  l_data : list IData;
  l_hasNext : bool;
  l_offset : Z;
  l_count : Z
}.

(** [data[data.length - 1].data = undefined] *)
Definition clearLastData (data : list IData) : list IData :=
  alter (fun r => {| r_id := r_id r; r_url := r_url r; r_name := r_name r;
                     r_data := None |})
        (length data - 1)%nat data.

(** The body of [for (const element of elements)]: [inl] carries the
    locals to the next element, [inr] is [return data].  The local [url]
    of the source is [href] here, [url] being the field of the schema. *)
Definition forBody (options : IGetCharactersOptions) (element : Element)
    (l : Locals) : M (Locals + list IData) :=
  let characterData : gmap string Value := ∅ in
  if Js.ge (Js.ofZ (l_offset l)) (offset options)
  then
    let href := getAttribute element "href" in
    if negb (Js.truthy href) then throw (Error "No URL found")
    else
      let href := Js.nullish href "" in
      let name := textContent element in
      if negb (Js.truthy name) then throw (Error "No name found")
      else
        let name := Js.nullish name "" in
        schema <- this_schema ;;
        target <- match URL_href env href (url schema) with
                  | Some h => ret h
                  | None => throw (TypeError "Invalid URL")
                  end ;;
        characterPage <- fetchPage target ;;
        characterData <- (if recursive options
                          then parseCharacterPage characterPage options
                          else ret characterData) ;;
        let data :=
          if withId options
          then
            let allScripts := getElementsByTagName characterPage "script" in
            let script :=
              List.find
                (fun script =>
                   match textContent script with
                   | Some t => Js.includes t "pageId"
                   | None => false
                   end)
                allScripts in
            let id := extractPageId (Js.or_else (script ≫= textContent) "") in
            (l_data l ++ [{| r_id := Some id; r_url := href; r_name := name;
                             r_data := Some characterData |}])
          else
            (l_data l ++ [{| r_id := None; r_url := href; r_name := name;
                             r_data := Some characterData |}]) in
        let count := l_count l + 1 in
        let data := if negb (recursive options) then clearLastData data else data in
        if Js.eq (Js.ofZ count) (limit options)
        then ret (inr data)
        else ret (inl {| l_data := data; l_hasNext := l_hasNext l;
                         l_offset := l_offset l + 1; l_count := count |})
  else ret (inl {| l_data := l_data l; l_hasNext := l_hasNext l;
                   l_offset := l_offset l + 1; l_count := l_count l |}).

Fixpoint forOf (options : IGetCharactersOptions) (elements : list Element)
    (l : Locals) : M (Locals + list IData) :=
  match elements with
  | [] => ret (inl l)
  | element :: rest =>
      r <- forBody options element l ;;
      match r with
      | inl l' => forOf options rest l'
      | inr data => ret (inr data)
      end
  end.

Definition set_hasNext (b : bool) (l : Locals) : Locals :=
  {| l_data := l_data l; l_hasNext := b; l_offset := l_offset l; l_count := l_count l |}.

(** [while (hasNext && count < options.limit)]: one unit of fuel for each
    turn of the loop. *)
Fixpoint whileLoop (fuel : nat) (options : IGetCharactersOptions) (l : Locals)
  : M (list IData) :=
  if l_hasNext l && Js.lt (Js.ofZ (l_count l)) (limit options)
  then
    match fuel with
    | O => unfinished
    | S fuel' =>
        page <- this_CharactersPage ;;
        let elements :=
          filterBannedElement (getElementsByClassName page (listCharactersElement env))
                              (banList env) in
        r <- forOf options elements l ;;
        match r with
        | inr data => ret data
        | inl l =>
            page <- this_CharactersPage ;;
            match head (getElementsByClassName page (nextValue env)) with
            | None => whileLoop fuel' options (set_hasNext false l)
            | Some nextElement =>
                let nextUrl := getAttribute nextElement "href" in
                if negb (Js.truthy nextUrl)
                then whileLoop fuel' options (set_hasNext false l)
                else
                  _ <- getCharactersPage (Js.nullish nextUrl "") ;;
                  whileLoop fuel' options l
            end
        end
    end
  else ret (l_data l).

Definition _getAllClassic (fuel : nat) (options : IGetCharactersOptions)
  : M (list IData) :=
  let l := {| l_data := []; l_hasNext := true; l_offset := 0; l_count := 0 |} in
  schema <- this_schema ;;
  _ <- getCharactersPage (charactersUrl schema) ;;
  whileLoop fuel options l.

(** *** [getAll] *)

Definition defaultOptions : IGetCharactersOptions :=
  {| offset := Js.ofZ 0; limit := Js.ofZ 100000; recursive := false; base64 := true;
     withId := true |}.

Definition getAll (fuel : nat) (options : IGetCharactersOptions) : M (list IData) :=
  r <- try_catch
         (if Js.lt (limit options) (Js.ofZ 1)
          then throw (Error "Limit must be greater than 0")
          else if Js.lt (offset options) (Js.ofZ 0)
          then throw (Error "Offset must be greater than 0")
          else if Js.gt (offset options) (limit options)
          then throw (Error "Offset must be less than limit")
          else
            schema <- this_schema ;;
            match pageFormat schema with
            | classic =>
                data <- _getAllClassic fuel options ;;
                ret (Some data)
            | table_1 => ret None
            | table_2 => ret None
            end)
         (fun err =>
            _ <- console_error (LogError err) ;;
            ret None) ;;
  match r with
  | Some data => ret data
  | None => ret []
  end.

End Methods.

(** ** A concrete document model and a concrete web

    A small HTML tree implementing [DOM], and an environment built from a
    table of pages, to run the scraper on explicit inputs. *)

Module Html.

#[local] Unset Elimination Schemes.

Inductive Node : Type :=
| Text (s : string)
| Tag (tag : string) (attrs : list (string * string)) (children : list Node).

#[local] Set Elimination Schemes.

Fixpoint text (n : Node) : string :=
  match n with
  | Text s => s
  | Tag _ _ children => List.fold_right (fun c acc => text c +:+ acc) "" children
  end.

(** The elements strictly below [n], in document order. *)
Fixpoint descendants (n : Node) : list Node :=
  match n with
  | Text _ => []
  | Tag _ _ children =>
      List.flat_map
        (fun c => match c with
                  | Text _ => []
                  | Tag _ _ _ => c :: descendants c
                  end)
        children
  end.

Fixpoint assoc (k : string) (l : list (string * string)) : option string :=
  match l with
  | [] => None
  | (k', v) :: rest => if String.eqb k k' then Some v else assoc k rest
  end.

Definition attribute (n : Node) (k : string) : option string :=
  match n with
  | Text _ => None
  | Tag _ attrs _ => assoc k attrs
  end.

(** The space-separated tokens of [s]; [cur] is the token being read. *)
Fixpoint tokens (s cur : string) : list string :=
  match s with
  | EmptyString => [cur]
  | String c s' =>
      if Ascii.eqb c " " then cur :: tokens s' ""
      else tokens s' (cur +:+ String c "")
  end.

Definition hasClass (cls : string) (n : Node) : bool :=
  match attribute n "class" with
  | Some v => List.existsb (String.eqb cls) (tokens v "")
  | None => false
  end.

Definition hasTag (t : string) (n : Node) : bool :=
  match n with
  | Text _ => false
  | Tag t' _ _ => String.eqb t t'
  end.

Definition hasDataSource (k : string) (n : Node) : bool :=
  match attribute n "data-source" with
  | Some v => String.eqb k v
  | None => false
  end.

(** The selector [[data-source="k"]] is ill-formed when [k] holds a double
    quote: the attribute value ends there.  The escapes of CSS (backslash,
    line breaks) are not read by this small model. *)
Definition doubleQuote : string := String "034" "".

Definition selectorError (k : string) : exn :=
  SyntaxError ("'[data-source=" +:+ doubleQuote +:+ k +:+ doubleQuote
               +:+ "]' is not a valid selector").

#[export] Instance dom : DOM := {|
  Document := Node;
  Element := Node;
  getElementsByClassName d cls := List.filter (hasClass cls) (descendants d);
  getElementsByTagName d t := List.filter (hasTag t) (descendants d);
  querySelectorDataSource d k :=
    if Js.includes k doubleQuote then Abrupt (selectorError k)
    else Normal (List.find (hasDataSource k) (descendants d));
  getAttribute := attribute;
  textContent e := Some (text e);
  descendantsByClassName e cls := List.filter (hasClass cls) (descendants e)
|}.

(** ASCII [toLowerCase]. *)
Definition lowerChar (c : ascii) : ascii :=
  let n := nat_of_ascii c in
  if (65 <=? n)%nat && (n <=? 90)%nat then ascii_of_nat (n + 32) else c.

Fixpoint lower (s : string) : string :=
  match s with
  | EmptyString => EmptyString
  | String c s' => String (lowerChar c) (lower s')
  end.

(** The environment of a web given as a table of pages.  A relative URL is
    resolved by prefixing the base; brackets are left in place. *)
Definition env (registry : gmap string (gmap string ISchema))
    (web : list (string * Node)) (ban : list string) : Env := {|
  listCharactersElement := "category-page__member-link";
  banList := ban;
  nextValue := "category-page__pagination-next";
  removeBrackets := fun s => s;
  Schemas := registry;
  toLowerCase := lower;
  URL_href := fun u base => Some (base +:+ u);
  fetchDocument := fun u =>
    match List.find (fun p => String.eqb u (fst p)) web with
    | Some p => Resolved (snd p)
    | None => Rejected (TypeError "fetch failed")
    end;
  fetchBytes := fun u => Rejected (TypeError "fetch failed");
  toBase64 := fun _ => ""
|}.

Definition schema (format : IDataSource) : ISchema := {|
  url := "w/";
  pageFormat := classic;
  charactersUrl := "w/list";
  dataSource := format
|}.

Definition world (format : IDataSource) : World := {|
  self := {| _schema := Some (schema format); _CharactersPage := None |};
  requests := [];
  console := []
|}.

(** A listing entry, a "next" control and a page of entries. *)
Definition entry (href name : string) : Node :=
  Tag "a" [("class", "category-page__member-link"); ("href", href)] [Text name].

Definition next (href : string) : Node :=
  Tag "a" [("class", "category-page__pagination-next"); ("href", href)] [Text "Next"].

Definition page (children : list Node) : Node := Tag "html" [] children.

End Html.

(** ** The listing, as the specification sees it

    The pages reached from a listing page through the "next" control, the
    entries that survive the ban list, and the relation between an entry
    and the record the scraper builds from it. *)

Section Listing.

Context `{dom : DOM} (env : Env).

(** The target of the "next" control of a listing page, if it has one. *)
Definition nextUrl (page : Document) : option string :=
  match head (getElementsByClassName page (nextValue env)) with
  | None => None
  | Some nextElement =>
      let href := getAttribute nextElement "href" in
      if Js.truthy href then href else None
  end.

(** The entries of one listing page, ban list applied. *)
Definition pageEntries (page : Document) : list Element :=
  filterBannedElement env (getElementsByClassName page (listCharactersElement env))
                      (banList env).

(** The listing pages from [page] on, at most [n] of them; the walk ends
    at a page without "next" or at a page that cannot be fetched. *)
Fixpoint pagesFrom (n : nat) (page : Document) : list Document :=
  match n with
  | O => []
  | S n' =>
      page ::
      match nextUrl page with
      | None => []
      | Some u =>
          match fetchDocument env u with
          | Resolved page' => pagesFrom n' page'
          | Rejected _ => []
          end
      end
  end.

(** Whether the walk from [page] ends within [n] pages. *)
Fixpoint walkEnds (n : nat) (page : Document) : bool :=
  match n with
  | O => false
  | S n' =>
      match nextUrl page with
      | None => true
      | Some u =>
          match fetchDocument env u with
          | Resolved page' => walkEnds n' page'
          | Rejected _ => true
          end
      end
  end.

(** The listing of a schema: the entries of its first [n] pages, in
    pagination order, then in document order. *)
Definition listing (n : nat) (schema : ISchema) : list Element :=
  match fetchDocument env (charactersUrl schema) with
  | Resolved page => List.flat_map pageEntries (pagesFrom n page)
  | Rejected _ => []
  end.

Definition listingEnds (n : nat) (schema : ISchema) : bool :=
  match fetchDocument env (charactersUrl schema) with
  | Resolved page => walkEnds n page
  | Rejected _ => true
  end.

(** The listing is exhausted in a world whose current listing page has no
    usable "next" control. *)
Definition exhausted (w : World) : Prop :=
  exists page, _CharactersPage (self w) = Some page /\ nextUrl page = None.

(** The script the scraper reads the id from: the first one whose text
    includes [pageId]; and the text it gives to [extractPageId]. *)
Definition idScript (characterPage : Document) : option Element :=
  List.find
    (fun script =>
       match textContent script with
       | Some t => Js.includes t "pageId"
       | None => false
       end)
    (getElementsByTagName characterPage "script").

Definition idScriptText (characterPage : Document) : string :=
  Js.or_else (idScript characterPage ≫= textContent) "".

Definition pageIdOf (characterPage : Document) : Js.number :=
  extractPageId (idScriptText characterPage).

(** The regular expression of [extractPageId] matches at the start of
    [s]: the key, then at least one digit. *)
Definition matchesAt (s : string) : Prop :=
  exists d rest, s = pageIdKey +:+ String d rest /\ Js.isDigit d = true.

(** It matches somewhere in [s]. *)
Definition matchesIn (s : string) : Prop :=
  exists pre tail, s = pre +:+ tail /\ matchesAt tail.

Fixpoint allDigits (s : string) : bool :=
  match s with
  | EmptyString => true
  | String c s' => Js.isDigit c && allDigits s'
  end.

(** [t] occurs in [s]. *)
Definition occursIn (t s : string) : Prop :=
  exists pre post, s = pre +:+ t +:+ post.

(** The text [filterBannedElement] looks at, and what it is to be banned
    by a list of substrings. *)
Definition lowerText (e : Element) : string :=
  Js.nullish (option_map (toLowerCase env) (textContent e)) "".

Definition bannedBy (banList : list string) (e : Element) : Prop :=
  exists substring,
    In substring banList /\ occursIn (toLowerCase env substring) (lowerText e).

(** [getAll] caught an error: the last line of the console is the error. *)
Definition caught (w' : World) : Prop :=
  exists err w1, w' = logging w1 (LogError err).

(** A field whose value the general extraction does not find in [page]:
    no element for the locator, no value element in it, or no text. *)
Definition fieldMisses (page : Document) (sourceKey : string) : Prop :=
  match querySelectorDataSource page sourceKey with
  | Abrupt _ => False
  | Normal None => True
  | Normal (Some element) =>
      match head (descendantsByClassName element "pi-data-value") with
      | None => True
      | Some valueElement => Js.truthy (textContent valueElement) = false
      end
  end.

(** [emitted options schema e r]: [r] is a record of the entry [e]. *)
Definition emitted (options : IGetCharactersOptions) (schema : ISchema)
    (e : Element) (r : IData) : Prop :=
  getAttribute e "href" = Some (r_url r) /\ r_url r <> "" /\
  textContent e = Some (r_name r) /\ r_name r <> "" /\
  exists target characterPage,
    URL_href env (r_url r) (url schema) = Some target /\
    fetchDocument env target = Resolved characterPage /\
    r_id r = (if withId options then Some (pageIdOf characterPage) else None) /\
    match r_data r with
    | None => recursive options = false
    | Some d =>
        recursive options = true /\
        exists w0 w1, parseCharacterPage env characterPage options w0 = (Ok d, w1)
    end.

(** An entry the scraper can turn into a record: it has an [href] and a
    text, its page can be fetched and, when the fields are asked for, their
    extraction does not throw. *)
Definition entryOk (options : IGetCharactersOptions) (schema : ISchema)
    (e : Element) : Prop :=
  Js.truthy (getAttribute e "href") = true /\
  Js.truthy (textContent e) = true /\
  exists target characterPage,
    URL_href env (Js.nullish (getAttribute e "href") "") (url schema) = Some target /\
    fetchDocument env target = Resolved characterPage /\
    (recursive options = true ->
     forall w, _schema (self w) = Some schema ->
               exists d w', parseCharacterPage env characterPage options w = (Ok d, w')).

(** Whether the walk from [page] reaches, within [n] pages, a page without
    "next", every page on the way being fetched. *)
Fixpoint walkCompletes (n : nat) (page : Document) : bool :=
  match n with
  | O => false
  | S n' =>
      match nextUrl page with
      | None => true
      | Some u =>
          match fetchDocument env u with
          | Resolved page' => walkCompletes n' page'
          | Rejected _ => false
          end
      end
  end.

Definition listingCompletes (n : nat) (schema : ISchema) : bool :=
  match fetchDocument env (charactersUrl schema) with
  | Resolved page => walkCompletes n page
  | Rejected _ => false
  end.

(** The entries of [L] at the positions the loop acts upon: the positions
    [i], counted from [from], for which the test [i >= offset] holds. *)
Fixpoint actedFrom {A} (o : Js.number) (from : Z) (L : list A) : list A :=
  match L with
  | [] => []
  | e :: L' =>
      if Js.ge (Js.ofZ from) o then e :: actedFrom o (from + 1) L'
      else actedFrom o (from + 1) L'
  end.

Definition fromOffset {A} (o : Js.number) (L : list A) : list A := actedFrom o 0 L.

(** The records pushed before the entry at position [i] of [L]. *)
Definition countBefore (options : IGetCharactersOptions) (L : list Element) (i : nat)
  : Z :=
  Z.of_nat (length (fromOffset (offset options) (take i L))).

(** The entry at position [i] of [L] is acted upon: the offset is reached
    and the records pushed before it are fewer than the limit. *)
Definition actedUpon (options : IGetCharactersOptions) (L : list Element) (i : nat)
  : Prop :=
  Js.ge (Js.ofZ (Z.of_nat i)) (offset options) = true /\
  Js.lt (Js.ofZ (countBefore options L i)) (limit options) = true.

(** [c] is below the limit, when the limit is a whole number. *)
Definition belowLimit (options : IGetCharactersOptions) (c : Z) : Prop :=
  forall n, Js.isInt (limit options) n -> c < n.

(** The entries of [L] from position [from] on that a run can come to are
    fine: those at or past the offset before which, when the limit is a
    whole number, fewer records than the limit are pushed. *)
Definition reachableFine (options : IGetCharactersOptions) (schema : ISchema)
    (L : list Element) (from : nat) : Prop :=
  forall (j : nat) e,
    L !! j = Some e -> (from <= j)%nat ->
    Js.ge (Js.ofZ (Z.of_nat j)) (offset options) = true ->
    belowLimit options (countBefore options L j) ->
    entryOk options schema e.

(** The entries of [L] before position [i], from the offset on, are fine. *)
Definition fineBefore (options : IGetCharactersOptions) (schema : ISchema)
    (L : list Element) (i : nat) : Prop :=
  forall (j : nat) e,
    L !! j = Some e -> Js.ge (Js.ofZ (Z.of_nat j)) (offset options) = true ->
    (j < i)%nat ->
    entryOk options schema e.

(** The error thrown for an entry without [href] or without text. *)
Definition malformedError (e : Element) : exn :=
  Error (if Js.truthy (getAttribute e "href") then "No name found" else "No URL found").

(** An entry the scraper cannot turn into a record. *)
Definition malformed (e : Element) : Prop :=
  Js.truthy (getAttribute e "href") = false \/ Js.truthy (textContent e) = false.

(** The options that pass the three checks of [getAll]. *)
Definition validOptions (options : IGetCharactersOptions) : Prop :=
  Js.lt (limit options) (Js.ofZ 1) = false /\
  Js.lt (offset options) (Js.ofZ 0) = false /\
  Js.gt (offset options) (limit options) = false.

(** The message of the error thrown for options that are not valid. *)
Definition invalidMessage (options : IGetCharactersOptions) : string :=
  if Js.lt (limit options) (Js.ofZ 1) then "Limit must be greater than 0"
  else if Js.lt (offset options) (Js.ofZ 0) then "Offset must be greater than 0"
  else "Offset must be less than limit".

(** A record, its [data] set to [undefined]. *)
Definition without_data (r : IData) : IData :=
  {| r_id := r_id r; r_url := r_url r; r_name := r_name r; r_data := None |}.

(** The locals after an entry below the offset, and after a record. *)
Definition skipped (l : Locals) : Locals :=
  {| l_data := l_data l; l_hasNext := l_hasNext l;
     l_offset := l_offset l + 1; l_count := l_count l |}.

Definition pushed (l : Locals) (r : IData) : Locals :=
  {| l_data := l_data l ++ [r]; l_hasNext := l_hasNext l;
     l_offset := l_offset l + 1; l_count := l_count l + 1 |}.

(** The invariant of the two loops: the locals after the entries [seen],
    none of which hit the limit. *)
Definition inv (options : IGetCharactersOptions) (schema : ISchema)
    (seen : list Element) (l : Locals) : Prop :=
  l_offset l = Z.of_nat (length seen) /\
  l_count l = Z.of_nat (length (l_data l)) /\
  belowLimit options (l_count l) /\
  Forall2 (emitted options schema) (fromOffset (offset options) seen) (l_data l).

(** How a run of the loops that returned [recs] in the world [w'] ended,
    [rest] being the entries of the listing it did not look at: in the
    loop body, the count being the limit; at the end of the listing; or at
    the test of [while], the count not being below the limit. *)
Definition leftLoops (options : IGetCharactersOptions) (recs : list IData)
    (rest : list Element) (w' : World) : Prop :=
  (Js.eq (Js.ofZ (Z.of_nat (length recs))) (limit options) = true /\
   exists e l0 w0, forBody env options e l0 w0 = (Ok (inr recs), w')) \/
  (belowLimit options (Z.of_nat (length recs)) /\ rest = [] /\ exhausted w') \/
  (belowLimit options (Z.of_nat (length recs)) /\
   Js.lt (Js.ofZ (Z.of_nat (length recs))) (limit options) = false).

(** What a list returned by [getAll] can come from. *)
Inductive getAll_origin (fuel : nat) (options : IGetCharactersOptions)
    (w : World) (recs : list IData) (w' : World) : Prop :=
| from_classic schema :
    validOptions options ->
    _schema (self w) = Some schema ->
    pageFormat schema = classic ->
    _getAllClassic env fuel options w = (Ok recs, w') ->
    getAll_origin fuel options w recs w'
| from_catch err w1 :
    recs = [] ->
    w' = logging w1 (LogError err) ->
    getAll_origin fuel options w recs w'
| from_placeholder schema :
    recs = [] ->
    w' = w ->
    _schema (self w) = Some schema ->
    pageFormat schema <> classic ->
    getAll_origin fuel options w recs w'.

End Listing.

(** ** Concrete wikis

    The schemas of [src/wikia/death-note/schemas.ts] ([ISchema] keeps the
    fields the scraper reads; the data sources are imported from a file that
    is not modelled and are parameters here), and small webs over [Html]
    on which the scraper is run below. *)

Module Examples.

Import Html.

Definition DeathNoteFR (DeathNoteFRDataSource : IDataSource) : ISchema := {|
  url := "https://deathnote.fandom.com/fr/wiki/";
  pageFormat := classic;
  charactersUrl := "https://deathnote.fandom.com/fr/wiki/Cat%C3%A9gorie:Personnages";
  dataSource := DeathNoteFRDataSource
|}.

Definition DeathNoteEN (DeathNoteENDataSource : IDataSource) : ISchema := {|
  url := "https://deathnote.fandom.com/wiki/";
  pageFormat := classic;
  charactersUrl := "https://deathnote.fandom.com/wiki/Category:Manga_characters";
  dataSource := DeathNoteENDataSource
|}.

Definition registry : gmap string (gmap string ISchema) :=
  {[ "death-note" := {[ "en" := DeathNoteEN []; "fr" := DeathNoteFR [] ]} ]}.

Definition script (content : string) : Node := Tag "script" [] [Text content].

(** A listing of two pages: five characters and one category header. *)
Definition cast : list (string * Node) :=
  [ ("w/list", page [ entry "A" "Alice"; entry "X" "Category:Staff";
                      entry "B" "Bob"; entry "C" "Carol"; next "w/list2" ]);
    ("w/list2", page [ entry "D" "Dave"; entry "E" "Erin" ]);
    ("w/A", page []);
    ("w/B", page [ script ("var config = {" +:+ pageIdKey +:+ "42};") ]);
    ("w/C", page [ script "var pageId = null;"; script (pageIdKey +:+ "7") ]);
    ("w/D", page []);
    ("w/E", page []) ].

Definition castEnv : Env := env registry cast ["CATEGORY:"].

(** A listing whose second entry has no [href]. *)
Definition broken : Node :=
  Tag "a" [("class", "category-page__member-link")] [Text "Broken"].

Definition brokenCast : list (string * Node) :=
  [ ("w/list", page [ entry "A" "Alice"; broken; entry "B" "Bob" ]);
    ("w/A", page []);
    ("w/B", page []) ].

Definition brokenEnv : Env := env registry brokenCast [].

(** A listing whose only entry points to a page that cannot be fetched,
    with a second listing page behind it. *)
Definition lostCast : list (string * Node) :=
  [ ("w/list", page [ entry "Z" "Zed"; next "w/list2" ]);
    ("w/list2", page [ entry "A" "Alice" ]);
    ("w/A", page []) ].

Definition lostEnv : Env := env registry lostCast [].

(** A listing of the single character [C] of [cast]. *)
Definition soloCast : list (string * Node) :=
  [ ("w/list", page [ entry "C" "Carol" ]);
    ("w/C", page [ script "var pageId = null;"; script (pageIdKey +:+ "7") ]) ].

Definition soloEnv : Env := env registry soloCast [].

(** Character pages with an infobox. *)
Definition infoRow (source value : string) : Node :=
  Tag "div" [("data-source", source)] [Tag "div" [("class", "pi-data-value")] [Text value]].

Definition plainPage : Node := page [ infoRow "Name" "Light Yagami" ].

Definition portraitPage : Node :=
  page [ Tag "img" [("class", "thumb"); ("src", "light.png")] [];
         infoRow "thumb" "Portrait" ].

Definition noEnv : Env := env registry [] [].

Definition options (l o : Z) (r i : bool) : IGetCharactersOptions :=
  {| limit := Js.ofZ l; offset := Js.ofZ o; recursive := r; base64 := false;
     withId := i |}.

(** What the run of [cast] with [limit = 2] and [offset = 1] returns. *)
Definition bobAndCarol : list IData :=
  [ {| r_id := Some (Js.ofZ 42); r_url := "B"; r_name := "Bob"; r_data := None |};
    {| r_id := Some (Js.ofZ 0); r_url := "C"; r_name := "Carol"; r_data := None |} ].

End Examples.

(** ** More of the specification

    Notions used to state what the methods do beyond the listing: the
    images of a page, the worlds a method leaves, an option changed. *)

Section MoreSpec.

Context `{dom : DOM} (env : Env).

(** The [src] attributes of the elements that have one, in order: what the
    images loop pushes when [base64] is off. *)
Definition srcsOf (elements : list Element) : list string :=
  List.flat_map
    (fun element =>
       if Js.truthy (getAttribute element "src")
       then [Js.nullish (getAttribute element "src") ""]
       else [])
    elements.

(** The console lines of the images loop: one for each element without
    [src]. *)
Definition missingSrc (key : string) (elements : list Element) : list logged :=
  List.flat_map
    (fun element =>
       if Js.truthy (getAttribute element "src")
       then []
       else [LogMessage ("No src found for key " +:+ key)])
    elements.

(** The base64 text of an image that can be fetched. *)
Definition base64Of (imageUrl : string) : string :=
  match fetchBytes env imageUrl with
  | Resolved buffer => toBase64 env buffer
  | Rejected _ => ""
  end.

Definition fetchable (imageUrl : string) : Prop :=
  exists buffer, fetchBytes env imageUrl = Resolved buffer.

(** The general extraction can look the locator up in [page]: the locator
    is empty, and the field is passed over, or [querySelector] returns. *)
Definition locatorOk (page : Document) (sourceKey : string) : Prop :=
  sourceKey = "" \/ exists r, querySelectorDataSource page sourceKey = Normal r.

(** The text the general extraction finds under a locator: the one of the
    value element of the row, when there is a row, a value element in it
    and a text that is not empty. *)
Definition foundText (page : Document) (sourceKey : string) : option string :=
  match querySelectorDataSource page sourceKey with
  | Normal (Some element) =>
      match head (descendantsByClassName element "pi-data-value") with
      | Some valueElement =>
          if Js.truthy (textContent valueElement) then textContent valueElement
          else None
      | None => None
      end
  | _ => None
  end.

(** The world [w] after the requests [rs] and the console lines [cs]. *)
Definition after (w : World) (rs : list string) (cs : list logged) : World :=
  {| self := self w; requests := requests w ++ rs; console := console w ++ cs |}.

(** [m] leaves the schema of the instance alone. *)
Definition keeps_schema {A} (m : M A) : Prop :=
  forall w r w', m w = (r, w') -> _schema (self w') = _schema (self w).

(** [m] only adds requests to those already made. *)
Definition grows {A} (m : M A) : Prop :=
  forall w r w', m w = (r, w') -> exists rs, requests w' = requests w ++ rs.

Definition set_base64 (b : bool) (options : IGetCharactersOptions)
  : IGetCharactersOptions :=
  {| limit := limit options; offset := offset options;
     recursive := recursive options; base64 := b; withId := withId options |}.

(** The decimal writing of a number, as a page id appears in a script. *)
Definition decimal (n : nat) : string := NilEmpty.string_of_uint (Nat.to_uint n).


End MoreSpec.

Module MoreExamples.

Import Html Examples.

(** An environment whose images can be fetched: [pictures] gives the bytes
    of each image URL; base64 is stood for by the number of bytes. *)
Definition pictureEnv (web : list (string * Node))
    (pictures : list (string * list Byte.byte)) : Env := {|
  listCharactersElement := "category-page__member-link";
  banList := [];
  nextValue := "category-page__pagination-next";
  removeBrackets := fun s => s;
  Schemas := registry;
  toLowerCase := lower;
  URL_href := fun u base => Some (base +:+ u);
  fetchDocument := fun u =>
    match List.find (fun p => String.eqb u (fst p)) web with
    | Some p => Resolved (snd p)
    | None => Rejected (TypeError "fetch failed")
    end;
  fetchBytes := fun u =>
    match List.find (fun p => String.eqb u (fst p)) pictures with
    | Some p => Resolved (snd p)
    | None => Rejected (TypeError "fetch failed")
    end;
  toBase64 := fun b => match b with [] => "" | _ :: _ => "QQ==" end
|}.

Definition img (src : string) : Node := Tag "img" [("class", "thumb"); ("src", src)] [].

Definition imgNoSrc : Node := Tag "img" [("class", "thumb")] [].

Definition gallery : Node := page [ img "a.png"; imgNoSrc; img "b.png" ].

Definition galleryEnv : Env :=
  pictureEnv [] [("a.png", [Byte.x41]); ("b.png", [Byte.x41])].

Definition tableSchema : ISchema := {|
  url := "w/";
  pageFormat := table_1;
  charactersUrl := "w/list";
  dataSource := []
|}.

(** A listing of three characters on one page, without "next". *)
Definition trio : list (string * Node) :=
  [ ("w/list", page [ entry "A" "Alice"; entry "B" "Bob"; entry "C" "Carol" ]);
    ("w/A", page []);
    ("w/B", page []);
    ("w/C", page []) ].

Definition trioEnv : Env := env registry trio [].

Definition optionsB64 (l o : Z) (r b i : bool) : IGetCharactersOptions :=
  {| limit := Js.ofZ l; offset := Js.ofZ o; recursive := r; base64 := b; withId := i |}.

(** The environment of [gallery] with the second image missing. *)
Definition halfGalleryEnv : Env := pictureEnv [] [("a.png", [Byte.x41])].

Definition tableWorld : World :=
  {| self := {| _schema := Some tableSchema; _CharactersPage := None |};
     requests := []; console := [] |}.

(** The limit 1.5, which the count never equals. *)
Definition oneAndAHalf : IGetCharactersOptions :=
  {| limit := Js.Finite (3 # 2); offset := Js.ofZ 0; recursive := false;
     base64 := false; withId := false |}.

(** A locator that holds a double quote. *)
Definition quoted : string := "a" +:+ doubleQuote +:+ "b".

(** A script that holds the page id 4711. *)
Definition idScriptExample : string := "var config = {" +:+ pageIdKey +:+ "4711,};".

End MoreExamples.

(** ** Reasoning about runs *)

Section MonadFacts.

Context `{dom : DOM}.

Lemma bind_Ok {A B} (m : M A) (k : A -> M B) w b w' :
  bind m k w = (Ok b, w') ->
  exists a w1, m w = (Ok a, w1) /\ k a w1 = (Ok b, w').
Proof.
  unfold bind. destruct (m w) as [[a | e |] w1]; intros H; try discriminate.
  eauto.
Qed.

Lemma bind_run {A B} (m : M A) (k : A -> M B) w a w1 :
  m w = (Ok a, w1) -> bind m k w = k a w1.
Proof. unfold bind. intros ->. reflexivity. Qed.

Lemma bind_Throw {A B} (m : M A) (k : A -> M B) w e w1 :
  m w = (Throw e, w1) -> bind m k w = (Throw e, w1).
Proof. unfold bind. intros ->. reflexivity. Qed.

(** [m] leaves the instance alone. *)
Definition keeps_self {A} (m : M A) : Prop :=
  forall w r w', m w = (r, w') -> self w' = self w.

(** [m] does not run out of fuel. *)
Definition finishes {A} (m : M A) : Prop :=
  forall w, fst (m w) <> Unfinished.

Lemma keeps_ret {A} (a : A) : keeps_self (ret a).
Proof. intros w r w' H. inversion H. reflexivity. Qed.

Lemma keeps_throw {A} e : keeps_self (@throw _ A e).
Proof. intros w r w' H. inversion H. reflexivity. Qed.

Lemma keeps_bind {A B} (m : M A) (k : A -> M B) :
  keeps_self m -> (forall a, keeps_self (k a)) -> keeps_self (bind m k).
Proof.
  intros Hm Hk w r w'. unfold bind.
  destruct (m w) as [[a | e |] w1] eqn:E; intros H.
  - rewrite (Hk _ _ _ _ H). eauto.
  - inversion H; subst. eauto.
  - inversion H; subst. eauto.
Qed.

Lemma keeps_try_catch {A} (m : M A) h :
  keeps_self m -> (forall e, keeps_self (h e)) -> keeps_self (try_catch m h).
Proof.
  intros Hm Hh w r w'. unfold try_catch.
  destruct (m w) as [[a | e |] w1] eqn:E; intros H.
  - inversion H; subst. eauto.
  - rewrite (Hh _ _ _ _ H). eauto.
  - inversion H; subst. eauto.
Qed.

Lemma keeps_request u : keeps_self (request u).
Proof. intros w r w' H. inversion H. reflexivity. Qed.

Lemma keeps_console_error l : keeps_self (console_error l).
Proof. intros w r w' H. inversion H. reflexivity. Qed.

Lemma keeps_get_self : keeps_self get_self.
Proof. intros w r w' H. inversion H. reflexivity. Qed.

Lemma finishes_ret {A} (a : A) : finishes (ret a).
Proof. intros w. discriminate. Qed.

Lemma finishes_throw {A} e : finishes (@throw _ A e).
Proof. intros w. discriminate. Qed.

Lemma finishes_bind {A B} (m : M A) (k : A -> M B) :
  finishes m -> (forall a, finishes (k a)) -> finishes (bind m k).
Proof.
  intros Hm Hk w. unfold bind. specialize (Hm w).
  destruct (m w) as [[a | e |] w1]; simpl in *; try discriminate.
  - apply Hk.
  - congruence.
Qed.

Lemma finishes_try_catch {A} (m : M A) h :
  finishes m -> (forall e, finishes (h e)) -> finishes (try_catch m h).
Proof.
  intros Hm Hh w. unfold try_catch. specialize (Hm w).
  destruct (m w) as [[a | e |] w1]; simpl in *; try discriminate.
  - apply Hh.
  - congruence.
Qed.

Lemma finishes_request u : finishes (request u).
Proof. intros w. discriminate. Qed.

Lemma finishes_console_error l : finishes (console_error l).
Proof. intros w. discriminate. Qed.

Lemma finishes_get_self : finishes get_self.
Proof. intros w. discriminate. Qed.

End MonadFacts.

Create HintDb run.

#[export] Hint Resolve keeps_ret keeps_throw keeps_request keeps_console_error
  keeps_get_self finishes_ret finishes_throw finishes_request
  finishes_console_error finishes_get_self : run.

Ltac run_step :=
  first
    [ apply keeps_bind; [ | intros ? ]
    | apply keeps_try_catch; [ | intros ? ]
    | apply finishes_bind; [ | intros ? ]
    | apply finishes_try_catch; [ | intros ? ]
    | progress auto with run ].

Ltac run_auto :=
  repeat (run_step
          || match goal with
             | |- keeps_self (match ?x with _ => _ end) => destruct x
             | |- finishes (match ?x with _ => _ end) => destruct x
             | |- keeps_self (if ?x then _ else _) => destruct x
             | |- finishes (if ?x then _ else _) => destruct x
             end).

(** ** Strings: [includes] and the regular expression of the page id *)

Module JsFacts.

Import Js.

Lemma append_String c (a b : string) : String c a +:+ b = String c (a +:+ b).
Proof. reflexivity. Qed.

Lemma append_empty (b : string) : "" +:+ b = b.
Proof. reflexivity. Qed.

Ltac norm := rewrite ?append_String, ?append_empty in *.

Lemma startsWith_spec s p : startsWith s p = true <-> exists post, s = p +:+ post.
Proof.
  revert s. induction p as [| a p IH]; intros s; simpl.
  - split; [intros _; exists s; reflexivity | reflexivity].
  - destruct s as [| b s]; simpl.
    + split; [discriminate | intros [post H]; norm; discriminate].
    + destruct (Ascii.eqb_spec a b) as [-> | Hne].
      * rewrite IH. split; intros [post H]; exists post; norm; congruence.
      * split; [discriminate | intros [post H]; norm; congruence].
Qed.

Lemma includes_spec s t :
  includes s t = true <-> exists pre post, s = pre +:+ t +:+ post.
Proof.
  induction s as [| c s IH]; simpl.
  - rewrite orb_false_r, startsWith_spec. split.
    + intros [post H]. exists "", post. exact H.
    + intros (pre & post & H). destruct pre; norm; [eauto | discriminate].
  - rewrite orb_true_iff, startsWith_spec, IH. split.
    + intros [[post H] | (pre & post & H)].
      * exists "", post. exact H.
      * exists (String c pre), post. norm. congruence.
    + intros (pre & post & H). destruct pre as [| c' pre]; norm.
      * left. eauto.
      * right. exists pre, post. congruence.
Qed.

Lemma takeDigits_app ds rest :
  allDigits ds = true ->
  takeDigits rest = "" ->
  takeDigits (ds +:+ rest) = ds.
Proof.
  induction ds as [| c ds IH]; simpl; intros Hd Hr; norm; [assumption |].
  apply andb_true_iff in Hd as [Hc Hd]. simpl. rewrite Hc. f_equal. auto.
Qed.

Lemma takeDigits_nonempty s :
  truthy (Some (takeDigits s)) = true <->
  exists d rest, s = String d rest /\ isDigit d = true.
Proof.
  destruct s as [| c s]; simpl.
  - split; [discriminate | intros (d & rest & H & _); discriminate].
  - destruct (isDigit c) eqn:E; simpl.
    + split; eauto.
    + split; [discriminate |]. intros (d & rest & H & Hd). congruence.
Qed.

(** *** Numbers *)

Lemma lt_ofZ a b : lt (ofZ a) (ofZ b) = (a <? b).
Proof.
  unfold lt, ofZ, Qle_bool. simpl. rewrite !Z.mul_1_r. symmetry. apply Z.ltb_antisym.
Qed.

Lemma le_ofZ a b : le (ofZ a) (ofZ b) = (a <=? b).
Proof. unfold le, ofZ, Qle_bool. simpl. rewrite !Z.mul_1_r. reflexivity. Qed.

Lemma ge_ofZ a b : ge (ofZ a) (ofZ b) = (b <=? a).
Proof. apply le_ofZ. Qed.

Lemma eq_ofZ a b : eq (ofZ a) (ofZ b) = (a =? b).
Proof. unfold eq, ofZ, Qeq_bool. simpl. rewrite !Z.mul_1_r. reflexivity. Qed.

Lemma eq_sym a b : eq a b = eq b a.
Proof.
  unfold eq. destruct a as [| | | x], b as [| | | y]; try reflexivity.
  unfold Qeq_bool. apply Z.eqb_sym.
Qed.

Lemma isInt_ofZ n : isInt (ofZ n) n.
Proof. unfold isInt. rewrite eq_ofZ. apply Z.eqb_refl. Qed.

(** A whole number is a finite one; [a # d] is [n] when [a = n * d]. *)
Lemma isInt_Finite x n :
  isInt x n -> exists a d, x = Finite (a # d) /\ a = n * Z.pos d.
Proof.
  unfold isInt, eq, ofZ. destruct x as [| | | [a d]]; try discriminate.
  unfold Qeq_bool. simpl. intros H. apply Z.eqb_eq in H.
  exists a, d. split; [reflexivity | lia].
Qed.

Lemma isInt_lt x n c : isInt x n -> lt (ofZ c) x = (c <? n).
Proof.
  intros H. apply isInt_Finite in H as (a & d & -> & ->).
  unfold lt, ofZ, Qle_bool. simpl. rewrite Z.mul_1_r.
  destruct (Z.leb_spec (n * Z.pos d) (c * Z.pos d)), (Z.ltb_spec c n);
    simpl; try reflexivity; nia.
Qed.

Lemma isInt_lt_l x n c : isInt x n -> lt x (ofZ c) = (n <? c).
Proof.
  intros H. apply isInt_Finite in H as (a & d & -> & ->).
  unfold lt, ofZ, Qle_bool. simpl. rewrite Z.mul_1_r.
  destruct (Z.leb_spec (c * Z.pos d) (n * Z.pos d)), (Z.ltb_spec n c);
    simpl; try reflexivity; nia.
Qed.

Lemma isInt_ge x n c : isInt x n -> ge (ofZ c) x = (n <=? c).
Proof.
  intros H. apply isInt_Finite in H as (a & d & -> & ->).
  unfold ge, le, ofZ, Qle_bool. simpl. rewrite Z.mul_1_r.
  destruct (Z.leb_spec (n * Z.pos d) (c * Z.pos d)), (Z.leb_spec n c);
    simpl; try reflexivity; nia.
Qed.

Lemma isInt_eq x n c : isInt x n -> eq (ofZ c) x = (c =? n).
Proof.
  intros H. apply isInt_Finite in H as (a & d & -> & ->).
  unfold eq, ofZ, Qeq_bool. simpl. rewrite Z.mul_1_r.
  destruct (Z.eqb_spec (c * Z.pos d) (n * Z.pos d)), (Z.eqb_spec c n);
    simpl; try reflexivity; nia.
Qed.

Lemma isInt_gt x n y m : isInt x n -> isInt y m -> gt x y = (m <? n).
Proof.
  intros Hx Hy.
  apply isInt_Finite in Hx as (a & d & -> & ->).
  apply isInt_Finite in Hy as (a' & d' & -> & ->).
  unfold gt, lt, Qle_bool. simpl.
  replace (n * Z.pos d * Z.pos d') with (n * (Z.pos d * Z.pos d')) by ring.
  replace (m * Z.pos d' * Z.pos d) with (m * (Z.pos d * Z.pos d')) by ring.
  assert (0 < Z.pos d * Z.pos d') as HD by lia.
  revert HD. generalize (Z.pos d * Z.pos d'). intros D HD.
  destruct (Z.leb_spec (n * D) (m * D)), (Z.ltb_spec m n);
    simpl; try reflexivity; nia.
Qed.

(** The comparisons with a count: less than a number is kept by a smaller
    count, and a count equal to a number is not less than it. *)
Lemma lt_ofZ_mono a b x : a <= b -> lt (ofZ b) x = true -> lt (ofZ a) x = true.
Proof.
  intros Hab. unfold lt, ofZ. destruct x as [| | | [n d]]; try (intros; assumption).
  unfold Qle_bool. simpl. rewrite !negb_true_iff, !Z.leb_gt. nia.
Qed.

Lemma eq_not_lt c x : eq (ofZ c) x = true -> lt (ofZ c) x = false.
Proof.
  unfold eq, lt, ofZ. destruct x as [| | | [n d]]; try discriminate.
  unfold Qeq_bool, Qle_bool. simpl. rewrite negb_false_iff, Z.eqb_eq, Z.leb_le. lia.
Qed.

(** [nearest] agrees with the rounding of IEEE 754 on small integers, on
    the ties and their neighbours above [2^53], and at the edge of
    [Infinity]. *)
Lemma nearest_is_ieee :
  Forall (fun n => nearest n = ieee n)
         [0; 1; 4711; 2 ^ 53 - 1; 2 ^ 53; 2 ^ 53 + 1; 2 ^ 53 + 2; 2 ^ 53 + 3;
          2 ^ 54 - 3; 2 ^ 54 - 2; 2 ^ 54 - 1; 2 ^ 54 + 2; 2 ^ 54 + 6;
          2 ^ 60 + 128; 2 ^ 60 + 129; 2 ^ 60 + 384; 2 ^ 64 - 1; 10 ^ 22; 10 ^ 23;
          123456789012345678901234567890;
          2 ^ 1024 - 2 ^ 971; 2 ^ 1024 - 2 ^ 970 - 1; 2 ^ 1024 - 2 ^ 970; 2 ^ 1024;
          10 ^ 400].
Proof. repeat (constructor; [vm_compute; reflexivity |]). constructor. Qed.

Lemma nearest_exact n : n < 2 ^ 53 -> nearest n = ofZ n.
Proof. intros H. unfold nearest. apply Z.ltb_lt in H. rewrite H. reflexivity. Qed.

Lemma nearest_nonneg n : 0 <= n -> le (ofZ 0) (nearest n) = true.
Proof.
  intros H. unfold nearest. destruct (n <? 2 ^ 53).
  - rewrite le_ofZ. apply Z.leb_le. assumption.
  - cbv zeta.
    set (e := Z.log2 n - 52). set (q := Z.shiftr n e).
    assert (0 <= q) as Hq by (apply Z.shiftr_nonneg; assumption).
    destruct (Z.shiftl _ e <? 2 ^ 1024); [| reflexivity].
    rewrite le_ofZ. apply Z.leb_le. apply Z.shiftl_nonneg.
    destruct (_ || _); lia.
Qed.

End JsFacts.

Section PageIdFacts.

Import Js JsFacts.

Lemma matchPageId_eq s :
  matchPageId s =
    let digits := takeDigits (dropString 9 s) in
    if startsWith s pageIdKey && truthy (Some digits)
    then Some (pageIdKey +:+ digits, digits)
    else match s with
         | EmptyString => None
         | String _ s' => matchPageId s'
         end.
Proof. destruct s; reflexivity. Qed.

Lemma dropString_key post : dropString 9 (pageIdKey +:+ post) = post.
Proof. reflexivity. Qed.

Lemma matchesAt_spec s :
  startsWith s pageIdKey && truthy (Some (takeDigits (dropString 9 s))) = true <->
  matchesAt s.
Proof.
  rewrite andb_true_iff, startsWith_spec. unfold matchesAt. split.
  - intros [[post ->] Hd]. rewrite dropString_key in Hd.
    apply takeDigits_nonempty in Hd as (d & rest & -> & Hd). eauto.
  - intros (d & rest & -> & Hd). split; [eauto |].
    rewrite dropString_key. apply takeDigits_nonempty. eauto.
Qed.

(** No match anywhere: [match] answers [null]. *)
Lemma matchPageId_None s : matchPageId s = None <-> ~ matchesIn s.
Proof.
  induction s as [| c s IH]; rewrite matchPageId_eq; cbv zeta;
    destruct (startsWith _ pageIdKey && _) eqn:E.
  - split; [discriminate |]. intros H. exfalso. apply H.
    exists "", "". split; [reflexivity | apply matchesAt_spec; assumption].
  - split; [| reflexivity]. intros _ (pre & tail & H & Hm).
    destruct pre; [| discriminate]. rewrite append_empty in H. subst tail.
    apply matchesAt_spec in Hm. congruence.
  - split; [discriminate |]. intros H. exfalso. apply H.
    exists "", (String c s). split; [reflexivity | apply matchesAt_spec; assumption].
  - rewrite IH. split; intros H (pre & tail & Hs & Hm).
    + destruct pre as [| c' pre].
      * rewrite append_empty in Hs. subst tail.
        apply matchesAt_spec in Hm. congruence.
      * rewrite append_String in Hs. apply H. exists pre, tail.
        split; [congruence | assumption].
    + apply H. exists (String c pre), tail. rewrite append_String.
      split; [congruence | assumption].
Qed.

Lemma extractPageId_no_match s : ~ matchesIn s -> extractPageId s = ofZ 0.
Proof. intros H. unfold extractPageId. apply matchPageId_None in H. rewrite H. reflexivity. Qed.

(** The leftmost match: the key after [pre], no match starting inside
    [pre], then the digits [ds] and a rest that does not go on with a
    digit. *)
Lemma matchPageId_first pre ds rest :
  ds <> "" -> allDigits ds = true -> takeDigits rest = "" ->
  (forall p1 p2, pre = p1 +:+ p2 -> p2 <> "" ->
                 ~ matchesAt (p2 +:+ pageIdKey +:+ ds +:+ rest)) ->
  matchPageId (pre +:+ pageIdKey +:+ ds +:+ rest) = Some (pageIdKey +:+ ds, ds).
Proof.
  intros Hne Hd Hr. induction pre as [| c pre IH]; intros Hfirst.
  - rewrite append_empty, matchPageId_eq. cbv zeta.
    rewrite dropString_key, takeDigits_app by assumption.
    replace (startsWith (pageIdKey +:+ ds +:+ rest) pageIdKey) with true
      by (symmetry; apply startsWith_spec; eauto).
    destruct ds; [congruence | reflexivity].
  - rewrite matchPageId_eq. cbv zeta.
    destruct (startsWith _ pageIdKey && _) eqn:E.
    + exfalso. apply (Hfirst "" (String c pre)); [reflexivity | discriminate |].
      apply matchesAt_spec. assumption.
    + rewrite append_String. apply IH.
      intros p1 p2 Hp. apply (Hfirst (String c p1) p2).
      rewrite append_String. congruence.
Qed.

Lemma extractPageId_first pre ds rest :
  ds <> "" -> allDigits ds = true -> takeDigits rest = "" ->
  (forall p1 p2, pre = p1 +:+ p2 -> p2 <> "" ->
                 ~ matchesAt (p2 +:+ pageIdKey +:+ ds +:+ rest)) ->
  extractPageId (pre +:+ pageIdKey +:+ ds +:+ rest) = parseInt ds.
Proof.
  intros. unfold extractPageId. rewrite matchPageId_first by assumption. reflexivity.
Qed.

End PageIdFacts.

Section MethodFacts.

Context `{dom : DOM} (env : Env).

Lemma keeps_this_schema : keeps_self this_schema.
Proof. unfold this_schema. run_auto. Qed.

Lemma finishes_this_schema : finishes this_schema.
Proof. unfold this_schema. run_auto. Qed.

Lemma keeps_this_CharactersPage : keeps_self this_CharactersPage.
Proof. unfold this_CharactersPage. run_auto. Qed.

Lemma finishes_this_CharactersPage : finishes this_CharactersPage.
Proof. unfold this_CharactersPage. run_auto. Qed.

Lemma keeps_fetchPage u : keeps_self (fetchPage env u).
Proof. unfold fetchPage. run_auto. Qed.

Lemma finishes_fetchPage u : finishes (fetchPage env u).
Proof. unfold fetchPage. run_auto. Qed.

Lemma keeps_convertImageToBase64 u : keeps_self (convertImageToBase64 env u).
Proof. unfold convertImageToBase64. run_auto. Qed.

Lemma finishes_convertImageToBase64 u : finishes (convertImageToBase64 env u).
Proof. unfold convertImageToBase64. run_auto. Qed.

Hint Resolve keeps_this_schema finishes_this_schema keeps_this_CharactersPage
  finishes_this_CharactersPage keeps_fetchPage finishes_fetchPage
  keeps_convertImageToBase64 finishes_convertImageToBase64 : run.

Lemma keeps_pushImages options key elements images :
  keeps_self (pushImages env options key elements images).
Proof.
  revert images. induction elements as [| element rest IH]; intros images; simpl.
  - run_auto.
  - run_auto; try apply IH.
Qed.

Lemma finishes_pushImages options key elements images :
  finishes (pushImages env options key elements images).
Proof.
  revert images. induction elements as [| element rest IH]; intros images; simpl.
  - run_auto.
  - run_auto; try apply IH.
Qed.

Hint Resolve keeps_pushImages finishes_pushImages : run.

Lemma keeps_parseField page options key sourceKey data :
  keeps_self (parseField env page options key sourceKey data).
Proof. unfold parseField. run_auto. Qed.

Lemma finishes_parseField page options key sourceKey data :
  finishes (parseField env page options key sourceKey data).
Proof. unfold parseField. run_auto. Qed.

Hint Resolve keeps_parseField finishes_parseField : run.

Lemma keeps_parseFields page options format data :
  keeps_self (parseFields env page options format data).
Proof.
  revert data. induction format as [| [key sourceKey] rest IH]; intros data; simpl.
  - run_auto.
  - run_auto; try apply IH.
Qed.

Lemma finishes_parseFields page options format data :
  finishes (parseFields env page options format data).
Proof.
  revert data. induction format as [| [key sourceKey] rest IH]; intros data; simpl.
  - run_auto.
  - run_auto; try apply IH.
Qed.

Hint Resolve keeps_parseFields finishes_parseFields : run.

Lemma keeps_parseCharacterPage page options :
  keeps_self (parseCharacterPage env page options).
Proof. unfold parseCharacterPage. run_auto. Qed.

Lemma finishes_parseCharacterPage page options :
  finishes (parseCharacterPage env page options).
Proof. unfold parseCharacterPage. run_auto. Qed.

Hint Resolve keeps_parseCharacterPage finishes_parseCharacterPage : run.

Lemma keeps_forBody options element l : keeps_self (forBody env options element l).
Proof. unfold forBody. run_auto. Qed.

Lemma finishes_forBody options element l : finishes (forBody env options element l).
Proof. unfold forBody. run_auto. Qed.

Hint Resolve keeps_forBody finishes_forBody : run.

Lemma keeps_forOf options elements l : keeps_self (forOf env options elements l).
Proof.
  revert l. induction elements as [| element rest IH]; intros l; simpl.
  - run_auto.
  - run_auto; try apply IH.
Qed.

Lemma finishes_forOf options elements l : finishes (forOf env options elements l).
Proof.
  revert l. induction elements as [| element rest IH]; intros l; simpl.
  - run_auto.
  - run_auto; try apply IH.
Qed.

(** *** The extraction of the fields *)

Lemma parseField_miss page options key sourceKey data w :
  key <> "images" -> fieldMisses page sourceKey ->
  parseField env page options key sourceKey data w = (Ok data, w).
Proof.
  intros Hk Hm. unfold parseField.
  destruct (Js.truthy (Some sourceKey)); simpl; [| reflexivity].
  destruct (String.eqb_spec key "images") as [-> | _]; [congruence |].
  unfold bind, ret. unfold fieldMisses in Hm.
  destruct (querySelectorDataSource page sourceKey) as [[element |] | err];
    [| reflexivity | contradiction].
  destruct (head (descendantsByClassName element "pi-data-value")) as [valueElement |];
    [| reflexivity].
  rewrite Hm. reflexivity.
Qed.

(** [parseField] only writes at its own key. *)
Lemma parseField_other page options key sourceKey data w d w' (key' : string) :
  key' <> key ->
  parseField env page options key sourceKey data w = (Ok d, w') ->
  d !! key' = data !! key'.
Proof.
  intros Hne. unfold parseField.
  destruct (Js.truthy (Some sourceKey)); simpl; [| intros H; inversion H; reflexivity].
  intros H. apply bind_Ok in H as (d1 & w1 & H1 & H).
  assert (d1 !! key' = data !! key') as <-.
  { destruct (String.eqb key "images").
    - apply bind_Ok in H1 as (images & w2 & _ & H1). inversion H1; subst.
      apply lookup_insert_ne. congruence.
    - inversion H1; reflexivity. }
  destruct (querySelectorDataSource page sourceKey) as [[element |] | err];
    [| inversion H; reflexivity | discriminate].
  destruct (head (descendantsByClassName element "pi-data-value")) as [valueElement |];
    [| inversion H; reflexivity].
  destruct (negb (Js.truthy (textContent valueElement))); inversion H; subst;
    [reflexivity |].
  apply lookup_insert_ne. congruence.
Qed.

Lemma parseFields_other page options format : forall data w d w' (key' : string),
  ~ In key' (map fst format) ->
  parseFields env page options format data w = (Ok d, w') ->
  d !! key' = data !! key'.
Proof.
  induction format as [| [key sourceKey] rest IH]; intros data w d w' key' Hin H;
    simpl in *.
  - inversion H; reflexivity.
  - apply bind_Ok in H as (d1 & w1 & H1 & H).
    assert (key' <> key) as Hne by (intros ->; tauto).
    assert (~ In key' (map fst rest)) as Hin' by tauto.
    rewrite (IH _ _ _ _ _ Hin' H).
    apply (parseField_other _ _ _ _ _ _ _ _ _ Hne H1).
Qed.

(** A field that misses can be struck from the data source. *)
Lemma parseFields_strike page options key sourceKey pre post : forall data w,
  key <> "images" -> fieldMisses page sourceKey ->
  parseFields env page options (pre ++ (key, sourceKey) :: post) data w =
  parseFields env page options (pre ++ post) data w.
Proof.
  induction pre as [| [key0 sourceKey0] pre IH]; intros data w Hk Hm; simpl.
  - rewrite (bind_run _ _ _ _ _ (parseField_miss _ _ _ _ _ _ Hk Hm)). reflexivity.
  - unfold bind.
    destruct (parseField env page options key0 sourceKey0 data w) as [[d | e |] w1];
      auto.
Qed.

(** The images: when the general extraction finds a value under the same
    locator, the text replaces the list. *)
Lemma parseField_images_overwritten page options sourceKey data w d w'
    element valueElement :
  Js.truthy (Some sourceKey) = true ->
  querySelectorDataSource page sourceKey = Normal (Some element) ->
  head (descendantsByClassName element "pi-data-value") = Some valueElement ->
  Js.truthy (textContent valueElement) = true ->
  parseField env page options "images" sourceKey data w = (Ok d, w') ->
  d !! "images" =
    Some (VStr (removeBrackets env (Js.nullish (textContent valueElement) ""))).
Proof.
  intros Ht Hq Hh Hv. unfold parseField. rewrite Ht, Hq, Hh, Hv. simpl.
  intros H. apply bind_Ok in H as (d1 & w1 & _ & H). inversion H.
  apply lookup_insert_eq.
Qed.

Lemma parseField_images_list page options sourceKey data w d w' :
  Js.truthy (Some sourceKey) = true ->
  fieldMisses page sourceKey ->
  parseField env page options "images" sourceKey data w = (Ok d, w') ->
  exists images, d !! "images" = Some (VList images).
Proof.
  intros Ht Hm. unfold parseField, fieldMisses in *. rewrite Ht. simpl.
  intros H. apply bind_Ok in H as (d1 & w1 & H1 & H).
  apply bind_Ok in H1 as (images & w2 & _ & H1). inversion H1; subst d1 w2.
  exists images.
  destruct (querySelectorDataSource page sourceKey) as [[element |] | err];
    [| inversion H; apply lookup_insert_eq | contradiction].
  destruct (head (descendantsByClassName element "pi-data-value")) as [valueElement |];
    [| inversion H; apply lookup_insert_eq].
  rewrite Hm in H. inversion H. apply lookup_insert_eq.
Qed.

(** *** One turn of the loop over the entries *)

Lemma clearLastData_snoc data r :
  clearLastData (data ++ [r]) = data ++ [without_data r].
Proof.
  unfold clearLastData. rewrite length_app. simpl.
  replace (length data + 1 - 1)%nat with (length data + 0)%nat by lia.
  rewrite alter_app_r. reflexivity.
Qed.

Lemma truthy_Some v : Js.truthy v = true -> v = Some (Js.nullish v "") /\ Js.nullish v "" <> "".
Proof. destruct v as [[| c s] |]; simpl; intros H; try discriminate. split; congruence. Qed.

Lemma forBody_skip options element l w :
  Js.ge (Js.ofZ (l_offset l)) (offset options) = false ->
  forBody env options element l w = (Ok (inl (skipped l)), w).
Proof. intros H. unfold forBody. rewrite H. reflexivity. Qed.

Lemma forBody_malformed options element l w :
  Js.ge (Js.ofZ (l_offset l)) (offset options) = true -> malformed element ->
  forBody env options element l w = (Throw (malformedError element), w).
Proof.
  intros H Hm. unfold forBody, malformedError. rewrite H.
  destruct (Js.truthy (getAttribute element "href")) eqn:Eh; simpl; [| reflexivity].
  destruct Hm as [Hm | Hm]; [congruence |]. rewrite Hm. reflexivity.
Qed.

Lemma forBody_emit options schema element l w r w' :
  Js.ge (Js.ofZ (l_offset l)) (offset options) = true ->
  _schema (self w) = Some schema ->
  forBody env options element l w = (Ok r, w') ->
  exists rec,
    emitted env options schema element rec /\
    r = if Js.eq (Js.ofZ (l_count l + 1)) (limit options)
        then inr (l_data l ++ [rec])
        else inl (pushed l rec).
Proof.
  intros Hoff Hs. unfold forBody. rewrite Hoff.
  destruct (Js.truthy (getAttribute element "href")) eqn:Eh; simpl; [| discriminate].
  destruct (Js.truthy (textContent element)) eqn:En; simpl; [| discriminate].
  destruct (truthy_Some _ Eh) as [Hh Hh'], (truthy_Some _ En) as [Hn Hn'].
  intros H.
  apply bind_Ok in H as (sc & w1 & H1 & H).
  assert (sc = schema /\ w1 = w) as [-> ->].
  { unfold this_schema, bind, get_self in H1. rewrite Hs in H1.
    inversion H1. auto. }
  apply bind_Ok in H as (target & w2 & H2 & H).
  destruct (URL_href env _ _) as [t |] eqn:Et; [| discriminate].
  inversion H2; subst t w2; clear H2.
  apply bind_Ok in H as (characterPage & w3 & H3 & H).
  assert (fetchDocument env target = Resolved characterPage) as Hf.
  { unfold fetchPage, bind, request in H3.
    destruct (fetchDocument env target); inversion H3. reflexivity. }
  apply bind_Ok in H as (characterData & w4 & H4 & H).
  set (rec0 := {| r_id := if withId options then Some (pageIdOf characterPage) else None;
                  r_url := Js.nullish (getAttribute element "href") "";
                  r_name := Js.nullish (textContent element) "";
                  r_data := Some characterData |}).
  set (rec := if recursive options then rec0 else without_data rec0).
  exists rec. split.
  - assert (r_url rec = Js.nullish (getAttribute element "href") "") as Hu
      by (unfold rec; destruct (recursive options); reflexivity).
    assert (r_name rec = Js.nullish (textContent element) "") as Hna
      by (unfold rec; destruct (recursive options); reflexivity).
    unfold emitted. rewrite Hu, Hna.
    repeat split; try assumption.
    exists target, characterPage. repeat split; try assumption.
    + unfold rec; destruct (recursive options); reflexivity.
    + unfold rec. destruct (recursive options) eqn:Er; simpl; [| reflexivity].
      split; [reflexivity |]. eauto.
  - assert ((if negb (recursive options)
             then clearLastData
                    (if withId options
                     then (l_data l ++ [rec0])
                     else (l_data l ++ [rec0]))
             else if withId options
                  then (l_data l ++ [rec0])
                  else (l_data l ++ [rec0])) = l_data l ++ [rec]) as Hd.
    { unfold rec. destruct (recursive options), (withId options); simpl;
        rewrite ?clearLastData_snoc; reflexivity. }
    unfold rec0 in Hd at 1 2 3 4. unfold pageIdOf, idScriptText, idScript in Hd.
    destruct (withId options); simpl in Hd, H; rewrite Hd in H;
      destruct (Js.eq (Js.ofZ (l_count l + 1)) (limit options)); inversion H;
      reflexivity.
Qed.

(** *** The entries acted upon *)

Lemma actedFrom_app {A} o (L1 L2 : list A) : forall from,
  actedFrom o from (L1 ++ L2) =
    actedFrom o from L1 ++ actedFrom o (from + Z.of_nat (length L1)) L2.
Proof.
  induction L1 as [| e L1 IH]; intros from; cbn [app actedFrom length].
  - rewrite Z.add_0_r. reflexivity.
  - rewrite IH, Nat2Z.inj_succ.
    replace (from + 1 + Z.of_nat (length L1)) with (from + Z.succ (Z.of_nat (length L1)))
      by lia.
    destruct (Js.ge (Js.ofZ from) o); reflexivity.
Qed.

Lemma fromOffset_snoc {A} o (seen : list A) e :
  fromOffset o (seen ++ [e]) =
    fromOffset o seen ++ (if Js.ge (Js.ofZ (Z.of_nat (length seen))) o then [e] else []).
Proof.
  unfold fromOffset. rewrite actedFrom_app. cbn [actedFrom]. rewrite Z.add_0_l.
  destruct (Js.ge _ o); reflexivity.
Qed.

(** From a position on, the entries acted upon are a suffix of the list
    when the offset is a whole number. *)
Lemma actedFrom_drop {A} o k (L : list A) : forall from,
  Js.isInt o k -> actedFrom o from L = drop (Z.to_nat (k - from)) L.
Proof.
  induction L as [| e L IH]; intros from Hk; cbn [actedFrom].
  - rewrite drop_nil. reflexivity.
  - rewrite (JsFacts.isInt_ge _ _ _ Hk), IH by assumption.
    destruct (Z.leb_spec k from).
    + replace (Z.to_nat (k - from)) with 0%nat by lia.
      replace (Z.to_nat (k - (from + 1))) with 0%nat by lia. reflexivity.
    + replace (Z.to_nat (k - from)) with (S (Z.to_nat (k - (from + 1)))) by lia.
      reflexivity.
Qed.

Lemma fromOffset_drop {A} o k (L : list A) :
  Js.isInt o k -> fromOffset o L = drop (Z.to_nat k) L.
Proof.
  intros Hk. unfold fromOffset. rewrite (actedFrom_drop _ k) by assumption.
  rewrite Z.sub_0_r. reflexivity.
Qed.

(** The records of a part of the listing are the first records of the
    whole. *)
Lemma fromOffset_prefix {A} {B} (P : A -> B -> Prop) o (consumed rest : list A) recs :
  Forall2 P (fromOffset o consumed) recs ->
  Forall2 P (take (length recs) (fromOffset o (consumed ++ rest))) recs.
Proof.
  intros H. unfold fromOffset in *. rewrite actedFrom_app.
  rewrite take_app_length' by (symmetry; eapply Forall2_length; eassumption).
  assumption.
Qed.

(** *** The loops, read backwards: what a returned list is made of *)

Section Sound.

Variables (options : IGetCharactersOptions) (schema : ISchema).

Lemma inv_skipped seen e l :
  inv env options schema seen l ->
  Js.ge (Js.ofZ (l_offset l)) (offset options) = false ->
  inv env options schema (seen ++ [e]) (skipped l).
Proof.
  intros (Ho & Hc & Hl & Hf) Hlt. unfold inv, skipped; simpl.
  rewrite length_app; simpl.
  split; [lia |]. split; [assumption |]. split; [assumption |].
  rewrite fromOffset_snoc, <- Ho, Hlt, app_nil_r. assumption.
Qed.

Lemma inv_pushed seen e l rec :
  inv env options schema seen l ->
  Js.ge (Js.ofZ (l_offset l)) (offset options) = true ->
  emitted env options schema e rec ->
  Forall2 (emitted env options schema) (fromOffset (offset options) (seen ++ [e]))
          (l_data l ++ [rec]) /\
  (Js.eq (Js.ofZ (l_count l + 1)) (limit options) = false ->
   inv env options schema (seen ++ [e]) (pushed l rec)).
Proof.
  intros (Ho & Hc & Hl & Hf) Hge He.
  assert (Forall2 (emitted env options schema)
                  (fromOffset (offset options) (seen ++ [e])) (l_data l ++ [rec])) as Hf'.
  { rewrite fromOffset_snoc, <- Ho, Hge.
    apply Forall2_app; [assumption |].
    constructor; [assumption | constructor]. }
  split; [assumption |]. intros Hne.
  unfold inv, pushed; simpl. rewrite !length_app; simpl.
  split; [lia |]. split; [lia |]. split; [| assumption].
  intros n Hn. specialize (Hl n Hn).
  rewrite (JsFacts.isInt_eq _ _ _ Hn) in Hne. apply Z.eqb_neq in Hne. lia.
Qed.

Lemma forOf_sound elements : forall seen l w r w',
  inv env options schema seen l ->
  _schema (self w) = Some schema ->
  forOf env options elements l w = (Ok r, w') ->
  match r with
  | inl l' => inv env options schema (seen ++ elements) l' /\ l_hasNext l' = l_hasNext l
  | inr data =>
      exists pre e post l0 w0,
        elements = pre ++ e :: post /\
        Forall2 (emitted env options schema)
                (fromOffset (offset options) (seen ++ pre ++ [e])) data /\
        Js.eq (Js.ofZ (Z.of_nat (length data))) (limit options) = true /\
        forBody env options e l0 w0 = (Ok (inr data), w')
  end.
Proof.
  induction elements as [| e rest IH]; intros seen l w r w' Hinv Hs H; simpl in H.
  - inversion H; subst. rewrite app_nil_r. auto.
  - apply bind_Ok in H as (r1 & w1 & H1 & H).
    assert (_schema (self w1) = Some schema) as Hs1
      by (rewrite (keeps_forBody _ _ _ _ _ _ H1); assumption).
    destruct (Js.ge (Js.ofZ (l_offset l)) (offset options)) eqn:Hge.
    + destruct (forBody_emit _ _ _ _ _ _ _ Hge Hs H1) as (rec & He & ->).
      destruct (inv_pushed _ _ _ _ Hinv Hge He) as [Hf Hp].
      destruct (Js.eq (Js.ofZ (l_count l + 1)) (limit options)) eqn:Heq.
      * inversion H; subst r w'.
        exists [], e, rest, l, w.
        split; [reflexivity |]. split; [assumption |]. split; [| assumption].
        destruct Hinv as (_ & Hc & _). rewrite length_app. simpl.
        replace (Z.of_nat (length (l_data l) + 1)) with (l_count l + 1) by lia.
        exact Heq.
      * specialize (IH (seen ++ [e]) _ _ _ _ (Hp eq_refl) Hs1 H).
        destruct r as [l' | data].
        -- rewrite <- app_assoc in IH. simpl in IH. exact IH.
        -- destruct IH as (pre & e' & post & l0 & w0 & -> & Hf' & Hlen & Hb).
           exists (e :: pre), e', post, l0, w0. rewrite <- app_assoc in Hf'.
           auto.
    + rewrite forBody_skip in H1 by assumption. inversion H1; subst r1 w1.
      specialize (IH (seen ++ [e]) _ _ _ _ (inv_skipped _ e _ Hinv Hge) Hs H).
      destruct r as [l' | data].
      * rewrite <- app_assoc in IH. simpl in IH. exact IH.
      * destruct IH as (pre & e' & post & l0 & w0 & -> & Hf & Hlen & Hb).
        exists (e :: pre), e', post, l0, w0. rewrite <- app_assoc in Hf.
        auto.
Qed.

Lemma this_CharactersPage_run w page :
  _CharactersPage (self w) = Some page -> this_CharactersPage w = (Ok page, w).
Proof. intros H. unfold this_CharactersPage, bind, get_self. rewrite H. reflexivity. Qed.

Lemma this_schema_run w :
  _schema (self w) = Some schema -> this_schema w = (Ok schema, w).
Proof. intros H. unfold this_schema, bind, get_self. rewrite H. reflexivity. Qed.

Lemma whileLoop_stop fuel l w :
  l_hasNext l = false -> whileLoop env fuel options l w = (Ok (l_data l), w).
Proof. intros H. destruct fuel; simpl; rewrite H; reflexivity. Qed.

(** The world after [getCharactersPage] succeeded. *)
Lemma getCharactersPage_Ok u w w' :
  getCharactersPage env u w = (Ok tt, w') ->
  exists page,
    fetchDocument env u = Resolved page /\
    self w' = {| _schema := _schema (self w); _CharactersPage := Some page |}.
Proof.
  unfold getCharactersPage, fetchPage, bind, request, set_CharactersPage.
  destruct (fetchDocument env u) as [page | err]; intros H; inversion H.
  exists page. auto.
Qed.

(** The two ways in which the target of "next" is missing. *)
Lemma nextUrl_None page :
  nextUrl env page = None <->
  match head (getElementsByClassName page (nextValue env)) with
  | None => True
  | Some nextElement => Js.truthy (getAttribute nextElement "href") = false
  end.
Proof.
  unfold nextUrl. destruct (head _) as [el |]; [| tauto].
  destruct (getAttribute el "href") as [[| c u] |]; simpl; split; congruence.
Qed.

(** The loop left at its test: the count is not below the limit. *)
Lemma whileLoop_test fuel l w :
  Js.lt (Js.ofZ (l_count l)) (limit options) = false ->
  whileLoop env fuel options l w = (Ok (l_data l), w).
Proof. intros H. destruct fuel; simpl; rewrite H, andb_false_r; reflexivity. Qed.

Lemma whileLoop_sound fuel : forall seen l w page recs w',
  inv env options schema seen l -> l_hasNext l = true ->
  _schema (self w) = Some schema ->
  _CharactersPage (self w) = Some page ->
  whileLoop env fuel options l w = (Ok recs, w') ->
  exists consumed rest,
    seen ++ List.flat_map (pageEntries env) (pagesFrom env fuel page) = consumed ++ rest /\
    Forall2 (emitted env options schema) (fromOffset (offset options) consumed) recs /\
    leftLoops env options recs rest w'.
Proof.
  assert (forall fuel seen l w page recs w',
             inv env options schema seen l ->
             Js.lt (Js.ofZ (l_count l)) (limit options) = false ->
             whileLoop env fuel options l w = (Ok recs, w') ->
             exists consumed rest,
               seen ++ List.flat_map (pageEntries env) (pagesFrom env fuel page) =
                 consumed ++ rest /\
               Forall2 (emitted env options schema)
                       (fromOffset (offset options) consumed) recs /\
               leftLoops env options recs rest w') as Htest.
  { intros fuel0 seen l w page recs w' (_ & Hc & Hl & Hf) Hlt H.
    rewrite whileLoop_test in H by assumption. inversion H; subst recs w'.
    exists seen, (List.flat_map (pageEntries env) (pagesFrom env fuel0 page)).
    split; [reflexivity |]. split; [assumption |].
    right. right. rewrite <- Hc. auto. }
  induction fuel as [| fuel IH]; intros seen l w page recs w' Hinv Hn Hs Hp H;
    destruct (Js.lt (Js.ofZ (l_count l)) (limit options)) eqn:Hlt;
    try (eapply Htest; eassumption).
  - simpl in H. rewrite Hn, Hlt in H. discriminate.
  - simpl in H. rewrite Hn, Hlt in H.
    simpl in H. rewrite (bind_run _ _ _ _ _ (this_CharactersPage_run _ _ Hp)) in H.
    apply bind_Ok in H as (r & w1 & H1 & H).
    pose proof (keeps_forOf _ _ _ _ _ _ H1) as Hself.
    pose proof (forOf_sound _ _ _ _ _ _ Hinv Hs H1) as Hr.
    fold (pageEntries env page) in H1, Hr.
    destruct r as [l1 | data].
    + destruct Hr as [Hinv1 Hn1]. rewrite Hn in Hn1.
      assert (_CharactersPage (self w1) = Some page) as Hp1 by congruence.
      assert (_schema (self w1) = Some schema) as Hs1 by congruence.
      rewrite (bind_run _ _ _ _ _ (this_CharactersPage_run _ _ Hp1)) in H.
      assert (nextUrl env page = None ->
              whileLoop env fuel options (set_hasNext false l1) w1 = (Ok recs, w') ->
              exists consumed rest,
                seen ++ List.flat_map (pageEntries env) (pagesFrom env (S fuel) page) =
                  consumed ++ rest /\
                Forall2 (emitted env options schema)
                        (fromOffset (offset options) consumed) recs /\
                leftLoops env options recs rest w') as Hstop.
      { intros Hnone Hw. rewrite whileLoop_stop in Hw by reflexivity.
        inversion Hw; subst recs w'. simpl in *.
        destruct Hinv1 as (_ & Hc1 & Hl1 & Hf1).
        exists (seen ++ pageEntries env page), [].
        rewrite Hnone. simpl. rewrite !app_nil_r.
        split; [reflexivity |]. split; [assumption |].
        right. left. rewrite <- Hc1.
        split; [assumption |]. split; [reflexivity |]. exists page. auto. }
      pose proof (nextUrl_None page) as Hnone.
      destruct (head (getElementsByClassName page (nextValue env))) as [el |] eqn:Eh;
        [| apply Hstop; [apply Hnone; exact I | exact H]].
      destruct (Js.truthy (getAttribute el "href")) eqn:Et; simpl in H;
        [| apply Hstop; [apply Hnone; reflexivity | exact H]].
      apply bind_Ok in H as ([] & w2 & H2 & H).
      apply getCharactersPage_Ok in H2 as (page' & Hfetch & Hself2).
      assert (nextUrl env page = Some (Js.nullish (getAttribute el "href") "")) as Hnext.
      { unfold nextUrl. rewrite Eh, Et. apply truthy_Some. assumption. }
      specialize (IH (seen ++ pageEntries env page) l1 w2 page' recs w' Hinv1 Hn1).
      rewrite Hself2 in IH. simpl in IH.
      specialize (IH Hs1 eq_refl H).
      simpl. rewrite Hnext, Hfetch. simpl.
      rewrite <- app_assoc in IH. exact IH.
    + inversion H; subst recs w'.
      destruct Hr as (pre & e & post & l0 & w0 & He & Hf & Hlen & Hb).
      exists (seen ++ pre ++ [e]),
             (post ++ List.flat_map (pageEntries env)
                        match nextUrl env page with
                        | Some u =>
                            match fetchDocument env u with
                            | Resolved page' => pagesFrom env fuel page'
                            | Rejected _ => []
                            end
                        | None => []
                        end).
      split; [| split; [assumption | left; split; [assumption | eauto]]].
      simpl. rewrite He, <- !app_assoc. reflexivity.
Qed.

Hypothesis Hlimit : Js.lt (limit options) (Js.ofZ 1) = false.

Lemma inv_start l :
  l_data l = [] -> l_offset l = 0 -> l_count l = 0 -> inv env options schema [] l.
Proof.
  intros Hd Ho Hc. unfold inv. rewrite Hd, Ho, Hc. simpl.
  split; [reflexivity |]. split; [reflexivity |]. split; [| constructor].
  intros n Hn. rewrite (JsFacts.isInt_lt_l _ _ _ Hn) in Hlimit.
  apply Z.ltb_ge in Hlimit. lia.
Qed.

Lemma _getAllClassic_sound fuel w recs w' :
  _schema (self w) = Some schema ->
  _getAllClassic env fuel options w = (Ok recs, w') ->
  exists consumed rest,
    listing env fuel schema = consumed ++ rest /\
    Forall2 (emitted env options schema) (fromOffset (offset options) consumed) recs /\
    leftLoops env options recs rest w'.
Proof.
  intros Hs H. unfold _getAllClassic in H.
  rewrite (bind_run _ _ _ _ _ (this_schema_run _ Hs)) in H.
  apply bind_Ok in H as ([] & w1 & H1 & H).
  apply getCharactersPage_Ok in H1 as (page & Hfetch & Hself).
  unfold listing. rewrite Hfetch.
  refine (whileLoop_sound fuel [] _ w1 page recs w' _ _ _ _ H).
  - apply inv_start; reflexivity.
  - reflexivity.
  - rewrite Hself. simpl. assumption.
  - rewrite Hself. reflexivity.
Qed.

(** With a limit and an offset that are whole numbers, the records are
    those of the window of the listing, the whole of it. *)
Lemma _getAllClassic_window fuel w recs w' n k :
  Js.isInt (limit options) n -> Js.isInt (offset options) k ->
  _schema (self w) = Some schema ->
  _getAllClassic env fuel options w = (Ok recs, w') ->
  Forall2 (emitted env options schema)
          (take (Z.to_nat n) (drop (Z.to_nat k) (listing env fuel schema))) recs /\
  ((Z.of_nat (length recs) = n /\
    exists e l0 w0, forBody env options e l0 w0 = (Ok (inr recs), w')) \/
   (Z.of_nat (length recs) < n /\ exhausted env w')).
Proof.
  intros Hn Hk Hs H.
  destruct (_getAllClassic_sound _ _ _ _ Hs H) as (consumed & rest & HL & Hf & Hleft).
  rewrite (fromOffset_drop _ _ _ Hk) in Hf.
  pose proof (Forall2_length _ _ _ Hf) as Hlen.
  rewrite HL, drop_app.
  destruct Hleft as [[Heq Hb] | [(Hbelow & -> & Hex) | [Hbelow Hlt]]].
  - rewrite (JsFacts.isInt_eq _ _ _ Hn) in Heq. apply Z.eqb_eq in Heq.
    split; [| left; split; [assumption | exact Hb]].
    rewrite take_app_length' by lia. assumption.
  - specialize (Hbelow n Hn).
    split; [| right; split; assumption].
    rewrite drop_nil, app_nil_r, take_ge by lia. assumption.
  - specialize (Hbelow n Hn).
    rewrite (JsFacts.isInt_lt _ _ _ Hn) in Hlt. apply Z.ltb_ge in Hlt. lia.
Qed.

End Sound.

(** *** The loops, read forwards: what makes a run throw or finish *)

Section Forward.

Variables (options : IGetCharactersOptions) (schema : ISchema).

Lemma inv_count seen l :
  inv env options schema seen l ->
  l_count l = Z.of_nat (length (fromOffset (offset options) seen)).
Proof. intros (_ & Hc & _ & Hf). apply Forall2_length in Hf. lia. Qed.

Lemma forBody_step seen e l w r w' :
  inv env options schema seen l ->
  _schema (self w) = Some schema ->
  forBody env options e l w = (Ok r, w') ->
  match r with
  | inl l1 => inv env options schema (seen ++ [e]) l1 /\ l_hasNext l1 = l_hasNext l
  | inr _ =>
      Js.ge (Js.ofZ (Z.of_nat (length seen))) (offset options) = true /\
      Js.eq (Js.ofZ (l_count l + 1)) (limit options) = true
  end.
Proof.
  intros Hinv Hs H.
  destruct (Js.ge (Js.ofZ (l_offset l)) (offset options)) eqn:Hge.
  - destruct (forBody_emit _ _ _ _ _ _ _ Hge Hs H) as (rec & He & ->).
    edestruct (inv_pushed options schema) as [_ Hp]; try eassumption.
    destruct Hinv as (Ho & _).
    destruct (Js.eq (Js.ofZ (l_count l + 1)) (limit options)) eqn:Heq.
    + rewrite <- Ho. auto.
    + split; [apply Hp; reflexivity | reflexivity].
  - rewrite forBody_skip in H by assumption. inversion H; subst.
    split; [apply inv_skipped; assumption | reflexivity].
Qed.

(** An entry that is fine gives a record. *)
Lemma forBody_ok e l w :
  entryOk env options schema e ->
  Js.ge (Js.ofZ (l_offset l)) (offset options) = true ->
  _schema (self w) = Some schema ->
  exists r w', forBody env options e l w = (Ok r, w').
Proof.
  intros (Hh & Hn & target & characterPage & Hu & Hf & Hparse) Hoff Hs.
  unfold forBody. rewrite Hoff, Hh, Hn. simpl.
  rewrite (bind_run _ _ _ _ _ (this_schema_run _ _ Hs)). rewrite Hu.
  unfold bind at 1. unfold ret at 1.
  unfold fetchPage. unfold bind at 1 2. unfold request. rewrite Hf.
  unfold ret at 1.
  destruct (recursive options) eqn:Er.
  - destruct (Hparse eq_refl (logging_request w target) Hs) as (d & w1 & Hp).
    unfold logging_request in Hp.
    rewrite (bind_run _ _ _ _ _ Hp). simpl.
    destruct (withId options), (Js.eq (Js.ofZ (l_count l + 1)) (limit options)); eauto.
  - unfold bind, ret. simpl.
    destruct (withId options), (Js.eq (Js.ofZ (l_count l + 1)) (limit options)); eauto.
Qed.

Lemma forOf_complete elements : forall seen l w,
  inv env options schema seen l ->
  _schema (self w) = Some schema ->
  reachableFine env options schema (seen ++ elements) (length seen) ->
  exists r w', forOf env options elements l w = (Ok r, w').
Proof.
  induction elements as [| e0 rest IH]; intros seen l w Hinv Hs Hok; simpl.
  - eauto.
  - assert (exists r w1, forBody env options e0 l w = (Ok r, w1)) as (r & w1 & E).
    { destruct (Js.ge (Js.ofZ (l_offset l)) (offset options)) eqn:Hge.
      - apply forBody_ok; try assumption.
        pose proof (inv_count _ _ Hinv) as Hc.
        destruct Hinv as (Ho & _ & Hl & _).
        apply (Hok (length seen)).
        + apply list_lookup_middle. reflexivity.
        + lia.
        + rewrite <- Ho. assumption.
        + unfold countBefore. rewrite take_app_length. rewrite <- Hc. assumption.
      - rewrite forBody_skip by assumption. eauto. }
    rewrite (bind_run _ _ _ _ _ E).
    pose proof (forBody_step _ _ _ _ _ _ Hinv Hs E) as Hr.
    destruct r as [l1 | data]; [| eauto].
    destruct Hr as [Hinv1 _].
    apply (IH (seen ++ [e0]) l1 w1); try assumption.
    + rewrite (keeps_forBody _ _ _ _ _ _ E). assumption.
    + rewrite <- app_assoc. simpl. intros j e Hj Hle. apply (Hok j e Hj).
      rewrite length_app in Hle. simpl in Hle. lia.
Qed.

Lemma countBefore_app_l L1 L2 (j : nat) :
  (j <= length L1)%nat -> countBefore options (L1 ++ L2) j = countBefore options L1 j.
Proof. intros H. unfold countBefore. rewrite take_app_le by assumption. reflexivity. Qed.

(** The records pushed for a part of the listing that comes before the
    position [i] are among those pushed before [i]. *)
Lemma countBefore_ge L1 L2 (i : nat) :
  (length L1 <= i)%nat ->
  Z.of_nat (length (fromOffset (offset options) L1)) <= countBefore options (L1 ++ L2) i.
Proof.
  intros H. unfold countBefore, fromOffset.
  rewrite take_app, (take_ge L1) by assumption.
  rewrite actedFrom_app, length_app. lia.
Qed.

Lemma whileLoop_complete fuel : forall seen l w page,
  inv env options schema seen l -> l_hasNext l = true ->
  _schema (self w) = Some schema ->
  _CharactersPage (self w) = Some page ->
  walkCompletes env fuel page = true ->
  reachableFine env options schema (seen ++ List.flat_map (pageEntries env) (pagesFrom env fuel page))
                 (length seen) ->
  exists recs w', whileLoop env fuel options l w = (Ok recs, w').
Proof.
  induction fuel as [| fuel IH]; intros seen l w page Hinv Hn Hs Hp Hw Hok;
    [discriminate |].
  destruct (Js.lt (Js.ofZ (l_count l)) (limit options)) eqn:Hlt;
    [| rewrite whileLoop_test by assumption; eauto].
  simpl. rewrite Hn, Hlt.
  simpl. rewrite (bind_run _ _ _ _ _ (this_CharactersPage_run _ _ Hp)).
  fold (pageEntries env page).
  simpl in Hok, Hw.
  destruct (forOf_complete (pageEntries env page) seen l w Hinv Hs) as (r & w1 & E).
  { intros j e Hj Hle Hge Hb. apply (Hok j e); try assumption.
    - rewrite app_assoc. apply lookup_app_l_Some. exact Hj.
    - rewrite app_assoc, countBefore_app_l; [assumption |].
      apply lookup_lt_Some in Hj. lia. }
  rewrite (bind_run _ _ _ _ _ E).
  destruct r as [l1 | data]; [| eauto].
  pose proof (keeps_forOf _ _ _ _ _ _ E) as Hself.
  pose proof E as Hr. eapply (forOf_sound options schema) in Hr; try eassumption.
  destruct Hr as [Hinv1 Hn1]. rewrite Hn in Hn1.
  assert (_CharactersPage (self w1) = Some page) as Hp1 by congruence.
  assert (_schema (self w1) = Some schema) as Hs1 by congruence.
  rewrite (bind_run _ _ _ _ _ (this_CharactersPage_run _ _ Hp1)).
  unfold nextUrl in Hok, Hw.
  destruct (head (getElementsByClassName page (nextValue env))) as [el |];
    [| rewrite whileLoop_stop by reflexivity; eauto].
  destruct (Js.truthy (getAttribute el "href")) eqn:Et; simpl;
    [| rewrite whileLoop_stop by reflexivity; eauto].
  destruct (truthy_Some _ Et) as [Hu _]. rewrite Hu in Hok, Hw.
  unfold getCharactersPage, fetchPage.
  unfold bind at 1 2 3. unfold request.
  destruct (fetchDocument env (Js.nullish (getAttribute el "href") ""))
    as [page' | rej]; [| discriminate].
  simpl.
  eapply (IH (seen ++ pageEntries env page) l1 _ page'); try eassumption;
    try reflexivity.
  rewrite <- app_assoc. intros j e Hj Hle. apply (Hok j e Hj).
  rewrite length_app in Hle. lia.
Qed.

Hypothesis Hvalid : validOptions options.

(** A listing that can be walked to its end and entries that are fine:
    the run returns. *)
Lemma _getAllClassic_complete fuel w :
  _schema (self w) = Some schema ->
  listingCompletes env fuel schema = true ->
  reachableFine env options schema (listing env fuel schema) 0 ->
  exists recs w', _getAllClassic env fuel options w = (Ok recs, w').
Proof.
  intros Hs Hw Hok. unfold _getAllClassic.
  rewrite (bind_run _ _ _ _ _ (this_schema_run _ _ Hs)).
  unfold listing in Hok. unfold listingCompletes in Hw.
  unfold getCharactersPage, fetchPage.
  unfold bind at 1 2 3. unfold request.
  destruct (fetchDocument env (charactersUrl schema)) as [page | rej];
    [| discriminate].
  simpl.
  eapply (whileLoop_complete fuel [] _ _ page); try eassumption; try reflexivity.
  destruct Hvalid as (Hl & _). apply inv_start; try assumption; reflexivity.
Qed.

Lemma forOf_malformed elements : forall seen l w (i : nat) e,
  inv env options schema seen l ->
  _schema (self w) = Some schema ->
  (seen ++ elements) !! i = Some e ->
  (length seen <= i)%nat ->
  malformed e ->
  actedUpon options (seen ++ elements) i ->
  exists err w',
    forOf env options elements l w = (Throw err, w') /\
    (fineBefore env options schema (seen ++ elements) i -> err = malformedError e).
Proof.
  induction elements as [| e0 rest IH]; intros seen l w i e Hinv Hs Hi Hle Hm Hwin.
  - rewrite app_nil_r in Hi. apply lookup_lt_Some in Hi. lia.
  - simpl. destruct (decide (i = length seen)) as [-> | Hne].
    + rewrite list_lookup_middle in Hi by reflexivity. inversion Hi; subst e0.
      destruct Hinv as (Ho & _). destruct Hwin as [Hge _]. rewrite <- Ho in Hge.
      rewrite (bind_Throw _ _ _ _ _ (forBody_malformed options e l w Hge Hm)).
      eauto.
    + assert ((seen ++ [e0]) ++ rest = seen ++ e0 :: rest) as Happ
        by (rewrite <- app_assoc; reflexivity).
      destruct (forBody env options e0 l w) as [[r | err |] w1] eqn:E.
      * pose proof (forBody_step _ _ _ _ _ _ Hinv Hs E) as Hr.
        rewrite (bind_run _ _ _ _ _ E).
        destruct r as [l1 | data].
        -- destruct Hr as [Hinv1 _].
           rewrite <- Happ in Hi, Hwin |- *.
           apply (IH (seen ++ [e0]) l1 w1 i e); try assumption.
           ++ rewrite (keeps_forBody _ _ _ _ _ _ E). assumption.
           ++ rewrite length_app. simpl. lia.
        -- exfalso. destruct Hr as [Hge Heq]. destruct Hwin as [_ Hlt].
           pose proof (inv_count _ _ Hinv) as Hc.
           assert (l_count l + 1 <= countBefore options (seen ++ e0 :: rest) i) as Hcount.
           { rewrite <- Happ.
             etransitivity; [| apply countBefore_ge; rewrite length_app; simpl; lia].
             rewrite fromOffset_snoc, Hge, length_app. simpl. lia. }
           pose proof (JsFacts.lt_ofZ_mono _ _ _ Hcount Hlt) as Hlt'.
           rewrite (JsFacts.eq_not_lt _ _ Heq) in Hlt'. discriminate.
      * rewrite (bind_Throw _ _ _ _ _ E). exists err, w1. split; [reflexivity |].
        intros Hok. exfalso.
        destruct (Js.ge (Js.ofZ (l_offset l)) (offset options)) eqn:Hge.
        -- destruct (forBody_ok e0 l w) as (r & w2 & E2); try assumption; [| congruence].
           destruct Hinv as (Ho & _).
           apply (Hok (length seen)).
           ++ apply list_lookup_middle. reflexivity.
           ++ rewrite <- Ho. assumption.
           ++ lia.
        -- rewrite forBody_skip in E by assumption. discriminate.
      * exfalso. apply (finishes_forBody options e0 l w). rewrite E. reflexivity.
Qed.

Lemma whileLoop_malformed fuel : forall seen l w page (i : nat) e,
  inv env options schema seen l -> l_hasNext l = true ->
  _schema (self w) = Some schema ->
  _CharactersPage (self w) = Some page ->
  (seen ++ List.flat_map (pageEntries env) (pagesFrom env fuel page)) !! i = Some e ->
  (length seen <= i)%nat ->
  malformed e ->
  actedUpon options (seen ++ List.flat_map (pageEntries env) (pagesFrom env fuel page)) i ->
  exists err w',
    whileLoop env fuel options l w = (Throw err, w') /\
    (fineBefore env options schema
       (seen ++ List.flat_map (pageEntries env) (pagesFrom env fuel page)) i ->
     err = malformedError e).
Proof.
  induction fuel as [| fuel IH]; intros seen l w page i e Hinv Hn Hs Hp Hi Hle Hm Hwin.
  - simpl in Hi. rewrite app_nil_r in Hi. apply lookup_lt_Some in Hi. lia.
  - remember (seen ++ List.flat_map (pageEntries env) (pagesFrom env (S fuel) page))
      as L eqn:HL.
    simpl in HL. rewrite app_assoc in HL.
    assert (Js.lt (Js.ofZ (l_count l)) (limit options) = true) as Hlt.
    { destruct Hwin as [_ Hlt]. refine (JsFacts.lt_ofZ_mono _ _ _ _ Hlt).
      rewrite (inv_count _ _ Hinv), HL, <- app_assoc.
      apply countBefore_ge. assumption. }
    simpl. rewrite Hn, Hlt.
    simpl. rewrite (bind_run _ _ _ _ _ (this_CharactersPage_run _ _ Hp)).
    fold (pageEntries env page).
    destruct (decide (i < length (seen ++ pageEntries env page))%nat) as [Hin | Hout].
    { assert (actedUpon options (seen ++ pageEntries env page) i) as Hwin'.
      { destruct Hwin as [Hge Hc]. split; [assumption |].
        unfold countBefore in *. rewrite HL, take_app_le in Hc by lia. assumption. }
      rewrite HL, lookup_app_l in Hi by assumption.
      destruct (forOf_malformed _ _ _ w _ _ Hinv Hs Hi Hle Hm Hwin')
        as (err & w2 & E2 & Herr).
      rewrite (bind_Throw _ _ _ _ _ E2). exists err, w2. split; [reflexivity |].
      intros Hok. apply Herr. intros j e' Hj. apply (Hok j e').
      rewrite HL. apply lookup_app_l_Some. exact Hj. }
    destruct (forOf env options (pageEntries env page) l w) as [[r | err |] w1] eqn:E.
    + pose proof (keeps_forOf _ _ _ _ _ _ E) as Hself.
      pose proof E as Hr.
      eapply (forOf_sound options schema) in Hr; try eassumption.
      rewrite (bind_run _ _ _ _ _ E).
      destruct r as [l1 | data].
      * destruct Hr as [Hinv1 Hn1]. rewrite Hn in Hn1.
        assert (_CharactersPage (self w1) = Some page) as Hp1 by congruence.
        assert (_schema (self w1) = Some schema) as Hs1 by congruence.
        rewrite (bind_run _ _ _ _ _ (this_CharactersPage_run _ _ Hp1)).
        unfold nextUrl in HL.
        destruct (head (getElementsByClassName page (nextValue env))) as [el |].
        2: { rewrite HL in Hi. simpl in Hi. rewrite app_nil_r in Hi.
             apply lookup_lt_Some in Hi. lia. }
        destruct (Js.truthy (getAttribute el "href")) eqn:Et; simpl.
        2: { rewrite HL in Hi. simpl in Hi. rewrite app_nil_r in Hi.
             apply lookup_lt_Some in Hi. lia. }
        destruct (truthy_Some _ Et) as [Hu _]. rewrite Hu in HL.
        unfold getCharactersPage, fetchPage.
        unfold bind at 1 2 3. unfold request.
        destruct (fetchDocument env (Js.nullish (getAttribute el "href") ""))
          as [page' | rej].
        2: { rewrite HL in Hi. simpl in Hi. rewrite app_nil_r in Hi.
             apply lookup_lt_Some in Hi. lia. }
        simpl. subst L.
        eapply (IH (seen ++ pageEntries env page) l1 _ page' i e); try eassumption.
        all: simpl; try assumption; try reflexivity; try lia.
      * destruct Hr as (pre & e' & post & l0 & w0 & He & Hf & Heq & _).
        exfalso. destruct Hwin as [_ Hc].
        apply Forall2_length in Hf.
        assert (Z.of_nat (length data) <= countBefore options L i) as Hcount.
        { rewrite <- Hf, HL, He.
          replace ((seen ++ pre ++ e' :: post) ++
                   List.flat_map (pageEntries env)
                     match nextUrl env page with
                     | Some u =>
                         match fetchDocument env u with
                         | Resolved page' => pagesFrom env fuel page'
                         | Rejected _ => []
                         end
                     | None => []
                     end)
            with ((seen ++ pre ++ [e']) ++
                  (post ++ List.flat_map (pageEntries env)
                     match nextUrl env page with
                     | Some u =>
                         match fetchDocument env u with
                         | Resolved page' => pagesFrom env fuel page'
                         | Rejected _ => []
                         end
                     | None => []
                     end))
            by (rewrite <- !app_assoc; reflexivity).
          apply countBefore_ge.
          rewrite He, !length_app in Hout. rewrite !length_app. simpl in *. lia. }
        pose proof (JsFacts.lt_ofZ_mono _ _ _ Hcount Hc) as Hlt'.
        rewrite (JsFacts.eq_not_lt _ _ Heq) in Hlt'. discriminate.
    + rewrite (bind_Throw _ _ _ _ _ E). exists err, w1. split; [reflexivity |].
      intros Hok. exfalso.
      destruct (forOf_complete (pageEntries env page) seen l w Hinv Hs) as (r & w2 & E2);
        [| congruence].
      intros j e' Hj _ Hge _. apply (Hok j e').
      * rewrite HL. apply lookup_app_l_Some. exact Hj.
      * assumption.
      * apply lookup_lt_Some in Hj. lia.
    + exfalso. apply (finishes_forOf options (pageEntries env page) l w).
      rewrite E. reflexivity.
Qed.

(** An entry that is acted upon and malformed makes the run throw; and it
    throws the error of this entry when the entries before it are fine. *)
Lemma _getAllClassic_malformed fuel w (i : nat) e :
  _schema (self w) = Some schema ->
  listing env fuel schema !! i = Some e ->
  malformed e ->
  actedUpon options (listing env fuel schema) i ->
  exists err w',
    _getAllClassic env fuel options w = (Throw err, w') /\
    (fineBefore env options schema (listing env fuel schema) i -> err = malformedError e).
Proof.
  intros Hs Hi Hm Hwin. unfold _getAllClassic.
  rewrite (bind_run _ _ _ _ _ (this_schema_run _ _ Hs)).
  unfold listing in Hi, Hwin |- *. unfold getCharactersPage, fetchPage.
  unfold bind at 1 2 3. unfold request.
  destruct (fetchDocument env (charactersUrl schema)) as [page | rej];
    [| rewrite lookup_nil in Hi; discriminate].
  change (exists err w',
             whileLoop env fuel options
               {| l_data := []; l_hasNext := true; l_offset := 0; l_count := 0 |}
               {| self := {| _schema := _schema (self (logging_request w (charactersUrl schema)));
                             _CharactersPage := Some page |};
                  requests := requests (logging_request w (charactersUrl schema));
                  console := console (logging_request w (charactersUrl schema)) |} =
               (Throw err, w') /\
             (fineBefore env options schema
                ([] ++ List.flat_map (pageEntries env) (pagesFrom env fuel page)) i ->
              err = malformedError e)).
  eapply (whileLoop_malformed fuel [] _ _ page i e); try eassumption;
    try reflexivity; simpl; try lia.
  destruct Hvalid as (Hl & _). apply inv_start; try assumption; reflexivity.
Qed.

(** With a listing that ends within the fuel, the loop finishes. *)
Lemma whileLoop_finishes fuel : forall l w page,
  walkEnds env fuel page = true ->
  _CharactersPage (self w) = Some page ->
  fst (whileLoop env fuel options l w) <> Unfinished.
Proof.
  induction fuel as [| fuel IH]; intros l w page He Hp; [discriminate |].
  simpl. destruct (l_hasNext l && Js.lt (Js.ofZ (l_count l)) (limit options));
    [| discriminate].
  rewrite (bind_run _ _ _ _ _ (this_CharactersPage_run _ _ Hp)).
  fold (pageEntries env page).
  destruct (forOf env options (pageEntries env page) l w) as [[r | err |] w1] eqn:E.
  - pose proof (keeps_forOf _ _ _ _ _ _ E) as Hself.
    rewrite (bind_run _ _ _ _ _ E).
    destruct r as [l1 | data]; [| discriminate].
    assert (_CharactersPage (self w1) = Some page) as Hp1 by congruence.
    rewrite (bind_run _ _ _ _ _ (this_CharactersPage_run _ _ Hp1)).
    simpl in He. unfold nextUrl in He.
    destruct (head (getElementsByClassName page (nextValue env))) as [el |];
      [| rewrite whileLoop_stop by reflexivity; discriminate].
    destruct (Js.truthy (getAttribute el "href")) eqn:Et; simpl;
      [| rewrite whileLoop_stop by reflexivity; discriminate].
    destruct (truthy_Some _ Et) as [Hu _]. rewrite Hu in He.
    unfold getCharactersPage, fetchPage.
    unfold bind at 1 2 3. unfold request.
    destruct (fetchDocument env (Js.nullish (getAttribute el "href") ""))
      as [page' | rej]; [| discriminate].
    simpl. apply (IH _ _ page'); [assumption | reflexivity].
  - rewrite (bind_Throw _ _ _ _ _ E). discriminate.
  - exfalso. apply (finishes_forOf options (pageEntries env page) l w).
    rewrite E. reflexivity.
Qed.

Lemma _getAllClassic_finishes fuel w :
  _schema (self w) = Some schema ->
  listingEnds env fuel schema = true ->
  fst (_getAllClassic env fuel options w) <> Unfinished.
Proof.
  intros Hs He. unfold _getAllClassic.
  rewrite (bind_run _ _ _ _ _ (this_schema_run _ _ Hs)).
  unfold listingEnds in He. unfold getCharactersPage, fetchPage.
  unfold bind at 1 2 3. unfold request.
  destruct (fetchDocument env (charactersUrl schema)) as [page | rej];
    [| discriminate].
  simpl. apply (whileLoop_finishes fuel _ _ page); [assumption | reflexivity].
Qed.

(** With a limit [n] and an offset [k >= 0] that are whole numbers, the
    entries acted upon are those of the window: the positions [k] to
    [k + n - 1]. *)
Lemma actedUpon_window (L : list Element) (i : nat) e n k :
  Js.isInt (limit options) n -> Js.isInt (offset options) k -> 0 <= k ->
  L !! i = Some e ->
  (actedUpon options L i <-> k <= Z.of_nat i < k + n).
Proof.
  intros Hn Hk Hk0 Hi. apply lookup_lt_Some in Hi.
  unfold actedUpon, countBefore.
  rewrite (JsFacts.isInt_ge _ _ _ Hk), (JsFacts.isInt_lt _ _ _ Hn).
  rewrite (fromOffset_drop _ _ _ Hk), length_drop, length_take.
  rewrite Z.leb_le, Z.ltb_lt. lia.
Qed.

Lemma window_reachable (L : list Element) (j : nat) e n k :
  Js.isInt (limit options) n -> Js.isInt (offset options) k ->
  L !! j = Some e ->
  Js.ge (Js.ofZ (Z.of_nat j)) (offset options) = true ->
  belowLimit options (countBefore options L j) ->
  k <= Z.of_nat j < Z.max k 0 + n.
Proof.
  intros Hn Hk Hj Hge Hb. apply lookup_lt_Some in Hj.
  rewrite (JsFacts.isInt_ge _ _ _ Hk) in Hge. apply Z.leb_le in Hge.
  specialize (Hb n Hn). unfold countBefore in Hb.
  rewrite (fromOffset_drop _ _ _ Hk), length_drop, length_take in Hb. lia.
Qed.

End Forward.

(** *** [getAll], case by case *)

Lemma getAll_invalid fuel options w :
  Js.lt (limit options) (Js.ofZ 1) = true \/
  Js.lt (offset options) (Js.ofZ 0) = true \/
  Js.gt (offset options) (limit options) = true ->
  getAll env fuel options w =
    (Ok [], logging w (LogError (Error (invalidMessage options)))).
Proof.
  intros H. unfold getAll, invalidMessage, bind, try_catch, throw.
  destruct (Js.lt (limit options) (Js.ofZ 1)); [reflexivity |].
  destruct (Js.lt (offset options) (Js.ofZ 0)); [reflexivity |].
  destruct (Js.gt (offset options) (limit options)); [reflexivity |].
  destruct H as [H | [H | H]]; discriminate.
Qed.

Lemma getAll_no_schema fuel options w :
  validOptions options -> _schema (self w) = None ->
  getAll env fuel options w =
    (Ok [], logging w (LogError (TypeError "Cannot read properties of undefined"))).
Proof.
  intros Hv Hs. destruct Hv as (H1 & H2 & H3).
  unfold getAll, bind, try_catch, this_schema, bind, get_self.
  rewrite H1, H2, H3, Hs. reflexivity.
Qed.

Lemma getAll_not_classic fuel options schema w :
  validOptions options -> _schema (self w) = Some schema ->
  pageFormat schema <> classic ->
  getAll env fuel options w = (Ok [], w).
Proof.
  intros Hv Hs Hf. destruct Hv as (H1 & H2 & H3).
  unfold getAll, bind, try_catch, this_schema, bind, get_self.
  rewrite H1, H2, H3, Hs. simpl.
  destruct (pageFormat schema); [congruence | reflexivity | reflexivity].
Qed.

Lemma getAll_classic fuel options schema w :
  validOptions options -> _schema (self w) = Some schema ->
  pageFormat schema = classic ->
  getAll env fuel options w =
    match _getAllClassic env fuel options w with
    | (Ok data, w') => (Ok data, w')
    | (Throw err, w') => (Ok [], logging w' (LogError err))
    | (Unfinished, w') => (Unfinished, w')
    end.
Proof.
  intros Hv Hs Hf. destruct Hv as (H1 & H2 & H3).
  unfold getAll. unfold bind at 1. unfold try_catch.
  rewrite H1, H2, H3.
  rewrite (bind_run _ _ _ _ _ (this_schema_run _ _ Hs)). rewrite Hf.
  unfold bind. destruct (_getAllClassic env fuel options w) as [[data | err |] w'];
    reflexivity.
Qed.

Lemma validOptions_dec options :
  validOptions options \/
  (Js.lt (limit options) (Js.ofZ 1) = true \/
   Js.lt (offset options) (Js.ofZ 0) = true \/
   Js.gt (offset options) (limit options) = true).
Proof.
  unfold validOptions.
  destruct (Js.lt (limit options) (Js.ofZ 1)); [auto |].
  destruct (Js.lt (offset options) (Js.ofZ 0)); [auto |].
  destruct (Js.gt (offset options) (limit options)); auto.
Qed.

Lemma getAll_Ok fuel options w recs w' :
  getAll env fuel options w = (Ok recs, w') -> getAll_origin env fuel options w recs w'.
Proof.
  destruct (validOptions_dec options) as [Hv | Hi].
  - destruct (_schema (self w)) as [schema |] eqn:Hs.
    + destruct (pageFormat schema) eqn:Hf.
      * rewrite (getAll_classic _ _ schema) by assumption.
        destruct (_getAllClassic env fuel options w) as [[data | e |] w1] eqn:E;
          intros H; inversion H; subst.
        -- eapply from_classic; eassumption.
        -- eapply from_catch; reflexivity.
      * rewrite (getAll_not_classic _ _ schema) by (congruence || assumption).
        intros H; inversion H; subst.
        eapply from_placeholder; try eassumption; try reflexivity. congruence.
      * rewrite (getAll_not_classic _ _ schema) by (congruence || assumption).
        intros H; inversion H; subst.
        eapply from_placeholder; try eassumption; try reflexivity. congruence.
    + rewrite getAll_no_schema by assumption.
      intros H; inversion H; subst. eapply from_catch; reflexivity.
  - rewrite getAll_invalid by assumption.
    intros H; inversion H; subst. eapply from_catch; reflexivity.
Qed.

(** The records of a run are, in order, records of the entries of the
    listing at the positions from the offset on. *)
Lemma getAll_window fuel options schema w recs w' :
  _schema (self w) = Some schema ->
  getAll env fuel options w = (Ok recs, w') ->
  Forall2 (emitted env options schema)
          (take (length recs) (fromOffset (offset options) (listing env fuel schema)))
          recs.
Proof.
  intros Hs H. apply getAll_Ok in H.
  destruct H as [schema' Hv Hs' Hf H | err w1 -> _ | schema' -> _ _ _];
    try constructor.
  assert (schema' = schema) as -> by congruence.
  destruct Hv as (Hl & _).
  destruct (_getAllClassic_sound _ _ Hl _ _ _ _ Hs H) as (consumed & rest & -> & Hf2 & _).
  apply fromOffset_prefix. assumption.
Qed.

Lemma filterBannedElement_In elements banList e :
  In e (filterBannedElement env elements banList) <->
  In e elements /\ ~ bannedBy env banList e.
Proof.
  unfold filterBannedElement. rewrite filter_In.
  fold (lowerText env e). unfold bannedBy.
  rewrite negb_true_iff, <- not_true_iff_false, existsb_exists.
  split; intros [Hin Hb]; (split; [assumption |]); intros (b & Hb1 & Hb2); apply Hb;
    exists b; (split; [assumption |]).
  - apply JsFacts.includes_spec. exact Hb2.
  - apply JsFacts.includes_spec in Hb2. exact Hb2.
Qed.

Lemma filterBannedElement_sublist elements banList :
  sublist (filterBannedElement env elements banList) elements.
Proof.
  unfold filterBannedElement. induction elements as [| e rest IH]; simpl.
  - constructor.
  - destruct (negb _); [apply sublist_skip | apply sublist_cons]; assumption.
Qed.

Lemma listing_not_banned fuel schema :
  Forall (fun e => ~ bannedBy env (banList env) e) (listing env fuel schema).
Proof.
  apply List.Forall_forall. intros e. unfold listing.
  destruct (fetchDocument env (charactersUrl schema)) as [page | rej]; [| intros []].
  rewrite in_flat_map. intros (p & _ & Hin).
  unfold pageEntries in Hin. apply filterBannedElement_In in Hin. tauto.
Qed.

Lemma emitted_Forall options schema (P : IData -> Prop) elements recs :
  (forall e r, emitted env options schema e r -> P r) ->
  Forall2 (emitted env options schema) elements recs -> Forall P recs.
Proof. intros HP H. induction H; constructor; eauto. Qed.

(** Every record of a run satisfies what every record of an entry
    satisfies. *)
Lemma getAll_Forall fuel options w recs w' (P : IData -> Prop) :
  (forall schema e r, _schema (self w) = Some schema ->
                      emitted env options schema e r -> P r) ->
  getAll env fuel options w = (Ok recs, w') ->
  Forall P recs.
Proof.
  intros HP H. pose proof (getAll_Ok _ _ _ _ _ H) as Ho.
  destruct Ho as [schema Hv Hs Hf _ | err w1 -> _ | schema' -> _ _ _];
    try constructor.
  pose proof (getAll_window _ _ _ _ _ _ Hs H) as Hw.
  eapply emitted_Forall; [| exact Hw]. intros e r. apply HP. assumption.
Qed.

Lemma not_matchesIn_empty : ~ matchesIn "".
Proof.
  intros (pre & tail & H & d & rest & -> & _).
  destruct pre; discriminate.
Qed.

(** The text given to [extractPageId] is empty or the text of a script. *)
Lemma idScriptText_cases page :
  idScriptText page = "" \/
  exists script,
    In script (getElementsByTagName page "script") /\
    textContent script = Some (idScriptText page).
Proof.
  unfold idScriptText, idScript.
  destruct (List.find _ _) as [script |] eqn:E; simpl; [| left; reflexivity].
  apply find_some in E as [Hin _].
  destruct (textContent script) as [[| c t] |] eqn:Et; simpl; unfold Js.or_else; simpl;
    try (left; reflexivity).
  right. exists script. split; [assumption |]. rewrite Et. reflexivity.
Qed.

Lemma pageId_no_script_matches page :
  (forall script t,
      In script (getElementsByTagName page "script") ->
      textContent script = Some t -> ~ matchesIn t) ->
  extractPageId (idScriptText page) = Js.ofZ 0.
Proof.
  intros H. apply extractPageId_no_match.
  destruct (idScriptText_cases page) as [-> | (script & Hin & Ht)].
  - apply not_matchesIn_empty.
  - eapply H; eassumption.
Qed.

Lemma getAll_finishes fuel options schema w :
  _schema (self w) = Some schema ->
  listingEnds env fuel schema = true ->
  exists recs w', getAll env fuel options w = (Ok recs, w').
Proof.
  intros Hs He. destruct (validOptions_dec options) as [Hv | Hi].
  - destruct (pageFormat schema) eqn:Hf.
    + rewrite (getAll_classic _ _ schema) by assumption.
      pose proof (_getAllClassic_finishes options schema fuel w Hs He) as Hfin.
      destruct (_getAllClassic env fuel options w) as [[data | e |] w1]; eauto.
      simpl in Hfin. congruence.
    + rewrite (getAll_not_classic _ _ schema) by (congruence || assumption). eauto.
    + rewrite (getAll_not_classic _ _ schema) by (congruence || assumption). eauto.
  - rewrite getAll_invalid by assumption. eauto.
Qed.

(** [getAll] never throws: the promise it returns is never rejected. *)
Lemma getAll_never_throws fuel options w err w' :
  getAll env fuel options w <> (Throw err, w').
Proof.
  destruct (validOptions_dec options) as [Hv | Hi].
  - destruct (_schema (self w)) as [schema |] eqn:Hs.
    + destruct (pageFormat schema) eqn:Hf.
      * rewrite (getAll_classic _ _ schema) by assumption.
        destruct (_getAllClassic env fuel options w) as [[data | e |] w1]; congruence.
      * rewrite (getAll_not_classic _ _ schema) by (congruence || assumption).
        congruence.
      * rewrite (getAll_not_classic _ _ schema) by (congruence || assumption).
        congruence.
    + rewrite getAll_no_schema by assumption. congruence.
  - rewrite getAll_invalid by assumption. congruence.
Qed.

End MethodFacts.

(** ** The properties of the scraper *)

Section Properties.

Context `{dom : DOM} (env : Env).

(** C1: [getAll] with [limit = 0].  The validation throws inside the
    [try] of [getAll] itself, so the error is caught there and logged: the
    call returns the empty list and nothing is thrown to the caller.  No
    request is made: the world only differs by the line on the console. *)
Theorem getAll_limit_zero fuel w off rec b64 wid :
  getAll env fuel
         {| limit := Js.ofZ 0; offset := off; recursive := rec; base64 := b64;
            withId := wid |}
         w =
    (Ok [], logging w (LogError (Error "Limit must be greater than 0"))).
Proof. rewrite getAll_invalid by (left; reflexivity). reflexivity. Qed.

(** A name that passes [isValidConstructor] and is not in the registry:
    the error is the [TypeError] of the lookup, not "Invalid wiki name". *)
Lemma constructor_unregistered c :
  name c <> "" -> Schemas env !! name c = None ->
  constructor env c = Throw (TypeError "Cannot read properties of undefined").
Proof.
  intros Hn Hs. unfold constructor, isValidConstructor. rewrite Hs.
  destruct (name c); [congruence | reflexivity].
Qed.

(** A limit and an offset that are whole numbers [n >= 1] and
    [0 <= k <= n] pass the checks of [getAll]. *)
Lemma validOptions_whole options n k :
  Js.isInt (limit options) n -> Js.isInt (offset options) k ->
  1 <= n -> 0 <= k <= n ->
  validOptions options.
Proof.
  intros Hn Hk H1 H2. unfold validOptions.
  rewrite (JsFacts.isInt_lt_l _ _ _ Hn), (JsFacts.isInt_lt_l _ _ _ Hk),
    (JsFacts.isInt_gt _ _ _ _ Hk Hn).
  repeat split; apply Z.ltb_ge; lia.
Qed.

(** C3: the records of a run are, one for one and in order, records of the
    listing entries at the positions from the offset on, the listing being
    in pagination order, then in document order; so with [offset = k] the
    first [k] entries of the filtered listing never reach the output, and
    the records are those of the entries at positions [k + 1], [k + 2],
    ...  In particular, with [limit = 2] and [offset = 1] over a listing of
    five entries that can be walked, the second and the third being fine,
    the run returns two records: the one of the second entry, then the one
    of the third. *)
Theorem records_follow_listing fuel options schema w :
  _schema (self w) = Some schema ->
  (forall recs w',
      getAll env fuel options w = (Ok recs, w') ->
      Forall2 (emitted env options schema)
              (take (length recs)
                    (fromOffset (offset options) (listing env fuel schema)))
              recs) /\
  (forall (k : nat) recs w',
      Js.isInt (offset options) (Z.of_nat k) ->
      getAll env fuel options w = (Ok recs, w') ->
      Forall2 (emitted env options schema)
              (take (length recs) (drop k (listing env fuel schema)))
              recs) /\
  (forall e1 e2 e3 e4 e5,
      listing env fuel schema = [e1; e2; e3; e4; e5] ->
      Js.isInt (limit options) 2 -> Js.isInt (offset options) 1 ->
      pageFormat schema = classic ->
      listingCompletes env fuel schema = true ->
      entryOk env options schema e2 -> entryOk env options schema e3 ->
      exists r2 r3 w',
        getAll env fuel options w = (Ok [r2; r3], w') /\
        emitted env options schema e2 r2 /\ emitted env options schema e3 r3).
Proof.
  intros Hs. split; [| split].
  - intros recs w' H. apply (getAll_window env _ _ _ _ _ _ Hs H).
  - intros k recs w' Hk H.
    pose proof (getAll_window env _ _ _ _ _ _ Hs H) as Hw.
    rewrite (fromOffset_drop _ _ _ Hk), Nat2Z.id in Hw. exact Hw.
  - intros e1 e2 e3 e4 e5 Hl Hlim Hoff Hf Hw H2 H3.
    assert (validOptions options) as Hv
      by (apply (validOptions_whole _ 2 1); (assumption || lia)).
    destruct (_getAllClassic_complete env options schema Hv fuel w Hs Hw)
      as (recs & w' & H).
    { intros j e Hj _ Hge Hb.
      pose proof (window_reachable options _ _ _ _ _ Hlim Hoff Hj Hge Hb) as Hwin.
      rewrite Hl in Hj.
      assert (j = 1 \/ j = 2)%nat as [-> | ->] by lia;
        simpl in Hj; inversion Hj; subst; assumption. }
    pose proof (getAll_classic env fuel options schema w Hv Hs Hf) as Hg.
    rewrite H in Hg.
    destruct Hv as (Hv1 & _).
    destruct (_getAllClassic_window env options schema Hv1 fuel w recs w' 2 1
                Hlim Hoff Hs H) as [Hfull _].
    rewrite Hl in Hfull. simpl in Hfull.
    inversion Hfull as [| ? r2 ? t2 He2 Ht2]; subst.
    inversion Ht2 as [| ? r3 ? t3 He3 Ht3]; subst.
    inversion Ht3; subst. exists r2, r3, w'. auto.
Qed.

(** C4: an entry that is acted upon (the offset is reached, and fewer
    records than the limit were pushed before it) and has no [href] or no
    text makes the loop body throw "No URL found" or "No name found".  A
    run whose listing holds such an entry returns the empty list from
    [getAll], through the catch; and when the entries before it are fine,
    so that records were pushed for them, the error that [_getAllClassic]
    throws and [getAll] catches is the one of this entry: these records
    are lost.  With a limit [n] and an offset [k] that are whole numbers,
    the entries acted upon are those at the positions [k] to [k + n - 1]
    ([actedUpon_window]). *)
Theorem malformed_entry_empties_run fuel options schema w (i : nat) e :
  validOptions options ->
  _schema (self w) = Some schema ->
  pageFormat schema = classic ->
  listing env fuel schema !! i = Some e ->
  malformed e ->
  actedUpon options (listing env fuel schema) i ->
  (forall l w0,
      Js.ge (Js.ofZ (l_offset l)) (offset options) = true ->
      forBody env options e l w0 = (Throw (malformedError e), w0) /\
      (malformedError e = Error "No URL found" \/
       malformedError e = Error "No name found")) /\
  (exists w', getAll env fuel options w = (Ok [], w') /\ caught w') /\
  (fineBefore env options schema (listing env fuel schema) i ->
   exists w1,
     _getAllClassic env fuel options w = (Throw (malformedError e), w1) /\
     getAll env fuel options w = (Ok [], logging w1 (LogError (malformedError e)))).
Proof.
  intros Hv Hs Hf Hi Hm Hwin.
  destruct (_getAllClassic_malformed env _ _ Hv fuel w i e Hs Hi Hm Hwin)
    as (err & w1 & H & Herr).
  pose proof (getAll_classic env fuel options schema w Hv Hs Hf) as Hg.
  rewrite H in Hg.
  split; [| split].
  - intros l w0 Hoff. split; [apply forBody_malformed; assumption |].
    unfold malformedError. destruct (Js.truthy (getAttribute e "href")); auto.
  - exists (logging w1 (LogError err)). split; [exact Hg |].
    exists err, w1. reflexivity.
  - intros Hok. rewrite (Herr Hok) in H, Hg. exists w1. auto.
Qed.

(** C5: with [recursive: false] every returned record has its [data]
    undefined, which is not the empty mapping. *)
Theorem data_absent_without_recursive fuel options w recs w' :
  recursive options = false ->
  getAll env fuel options w = (Ok recs, w') ->
  Forall (fun r => r_data r = None /\ r_data r <> Some ∅) recs.
Proof.
  intros Hr H. eapply (getAll_Forall env); [| exact H].
  intros schema e r _ (_ & _ & _ & _ & target & page & _ & _ & _ & Hd).
  destruct (r_data r) as [d |]; [| split; congruence].
  destruct Hd as [Hd _]. congruence.
Qed.

(** C9: an entry is dropped from a listing page exactly when its
    lower-cased text contains a banned substring, itself lower-cased; the
    entries kept stay in document order; and the offset counts entries
    that were kept only: the records of a run are records of the listing
    without its banned entries, at the positions from the offset on, which
    for [offset = k] are the positions after the first [k]. *)
Theorem ban_list_before_offset fuel options schema w recs w' :
  _schema (self w) = Some schema ->
  getAll env fuel options w = (Ok recs, w') ->
  (forall elements banList e,
      In e (filterBannedElement env elements banList) <->
      In e elements /\ ~ bannedBy env banList e) /\
  (forall elements banList,
      sublist (filterBannedElement env elements banList) elements) /\
  Forall (fun e => ~ bannedBy env (banList env) e) (listing env fuel schema) /\
  Forall2 (emitted env options schema)
          (take (length recs) (fromOffset (offset options) (listing env fuel schema)))
          recs /\
  (forall k : nat,
      Js.isInt (offset options) (Z.of_nat k) ->
      Forall2 (emitted env options schema)
              (take (length recs) (drop k (listing env fuel schema)))
              recs).
Proof.
  intros Hs H. split; [| split; [| split; [| split]]].
  - intros elements banList e. apply filterBannedElement_In.
  - apply filterBannedElement_sublist.
  - apply listing_not_banned.
  - apply (getAll_window env _ _ _ _ _ _ Hs H).
  - intros k Hk. pose proof (getAll_window env _ _ _ _ _ _ Hs H) as Hw.
    rewrite (fromOffset_drop _ _ _ Hk), Nat2Z.id in Hw. exact Hw.
Qed.

(** C2 (amended): for valid options, [getAll] returns once the listing
    ends within the fuel; when the limit is a whole number it returns at
    most [limit] records; it returns fewer than [limit] only when the
    listing was exhausted, or when an error was caught (the list is then
    empty), or when the page format is not the classic one (the list is
    empty too); and when the count reaches [limit] the run returns from
    the loop body that pushed the last record, in the world this body
    left. *)
Theorem limit_bounds_the_run fuel options w :
  validOptions options ->
  (forall schema,
      _schema (self w) = Some schema -> listingEnds env fuel schema = true ->
      exists recs w', getAll env fuel options w = (Ok recs, w')) /\
  (forall recs w',
      getAll env fuel options w = (Ok recs, w') ->
      (forall n, Js.isInt (limit options) n -> Z.of_nat (length recs) <= n) /\
      (Js.lt (Js.ofZ (Z.of_nat (length recs))) (limit options) = true ->
       exhausted env w' \/
       (recs = [] /\ caught w') \/
       (recs = [] /\ w' = w /\
        exists schema, _schema (self w) = Some schema /\ pageFormat schema <> classic)) /\
      (Js.eq (Js.ofZ (Z.of_nat (length recs))) (limit options) = true ->
       exists e l0 w0, forBody env options e l0 w0 = (Ok (inr recs), w'))).
Proof.
  intros Hv. split.
  - intros schema Hs He. apply (getAll_finishes env _ _ schema); assumption.
  - intros recs w' H. apply getAll_Ok in H.
    pose proof Hv as (Hl & _).
    assert (forall n, Js.isInt (limit options) n -> 1 <= n) as Hone.
    { intros n Hn. rewrite (JsFacts.isInt_lt_l _ _ _ Hn) in Hl.
      apply Z.ltb_ge in Hl. assumption. }
    assert (belowLimit options 0) as Hzero
      by (intros n Hn; specialize (Hone n Hn); lia).
    assert (forall c, belowLimit options c ->
                      Js.eq (Js.ofZ c) (limit options) = false) as Hbelow.
    { intros c Hc. destruct (Js.eq (Js.ofZ c) (limit options)) eqn:E; [| reflexivity].
      rewrite JsFacts.eq_sym in E. specialize (Hc c E). lia. }
    destruct H as [schema _ Hs Hf H | err w1 -> -> | schema -> -> Hs Hf].
    + destruct (_getAllClassic_sound env _ _ Hl _ _ _ _ Hs H)
        as (consumed & rest & _ & _ & Hleft).
      destruct Hleft as [[Heq Hb] | [(Hb & _ & Hex) | [Hb Hlt]]].
      * split; [| split].
        -- intros n Hn. rewrite (JsFacts.isInt_eq _ _ _ Hn) in Heq.
           apply Z.eqb_eq in Heq. lia.
        -- intros Hlt. rewrite (JsFacts.eq_not_lt _ _ Heq) in Hlt. discriminate.
        -- intros _. exact Hb.
      * split; [| split].
        -- intros n Hn. specialize (Hb n Hn). lia.
        -- intros _. left. exact Hex.
        -- intros Heq. rewrite (Hbelow _ Hb) in Heq. discriminate.
      * split; [| split].
        -- intros n Hn. specialize (Hb n Hn). lia.
        -- intros Hlt'. congruence.
        -- intros Heq. rewrite (Hbelow _ Hb) in Heq. discriminate.
    + simpl. split; [| split].
      * intros n Hn. specialize (Hone n Hn). lia.
      * intros _. right. left. split; [reflexivity |]. exists err, w1. reflexivity.
      * intros Heq. pose proof (Hbelow _ Hzero) as E.
        change (Z.of_nat (length (@nil IData))) with 0 in Heq.
        change (Z.of_nat 0) with 0 in Heq. congruence.
    + simpl. split; [| split].
      * intros n Hn. specialize (Hone n Hn). lia.
      * intros _. right. right. eauto.
      * intros Heq. pose proof (Hbelow _ Hzero) as E.
        change (Z.of_nat (length (@nil IData))) with 0 in Heq.
        change (Z.of_nat 0) with 0 in Heq. congruence.
Qed.

(** C8 (amended): with [withId: false] no record has an id.  With
    [withId: true] the id of a record is [extractPageId] of the text of
    the first script of its page that includes [pageId] (of the empty
    text when there is none).  It is 0 when no script of the page matches
    the pattern, and 0 when that first script does not match; when that
    script matches, it is the number [parseInt] reads from the digits of
    its leftmost match. *)
Theorem page_id_of_records fuel options w recs w' :
  getAll env fuel options w = (Ok recs, w') ->
  (withId options = false -> Forall (fun r => r_id r = None) recs) /\
  (withId options = true ->
   Forall (fun r => exists schema target page,
               _schema (self w) = Some schema /\
               URL_href env (r_url r) (url schema) = Some target /\
               fetchDocument env target = Resolved page /\
               r_id r = Some (extractPageId (idScriptText page))) recs) /\
  (forall page,
      (forall script t,
          In script (getElementsByTagName page "script") ->
          textContent script = Some t -> ~ matchesIn t) ->
      extractPageId (idScriptText page) = Js.ofZ 0) /\
  (forall page,
      ~ matchesIn (idScriptText page) -> extractPageId (idScriptText page) = Js.ofZ 0) /\
  (forall page pre ds rest,
      idScriptText page = pre +:+ pageIdKey +:+ ds +:+ rest ->
      ds <> "" -> allDigits ds = true -> Js.takeDigits rest = "" ->
      (forall p1 p2, pre = p1 +:+ p2 -> p2 <> "" ->
                     ~ matchesAt (p2 +:+ pageIdKey +:+ ds +:+ rest)) ->
      extractPageId (idScriptText page) = Js.parseInt ds).
Proof.
  intros H. split; [| split; [| split; [| split]]].
  - intros Hid. eapply (getAll_Forall env); [| exact H].
    intros schema e r _ (_ & _ & _ & _ & target & page & _ & _ & Hr & _).
    rewrite Hid in Hr. exact Hr.
  - intros Hid. eapply (getAll_Forall env); [| exact H].
    intros schema e r Hs (_ & _ & _ & _ & target & page & Hu & Hf & Hr & _).
    rewrite Hid in Hr. exists schema, target, page. auto.
  - apply pageId_no_script_matches.
  - intros page. apply extractPageId_no_match.
  - intros page pre ds rest ->. apply extractPageId_first.
Qed.

(** C6 (amended): for a field other than [images] whose locator finds no
    element in the page, or no value element in it, or no text, the key
    is absent from the data, and the extraction goes as if the field was
    not in the data source: same data for the other keys, same outcome,
    same world. *)
Theorem missing_field_is_absent page options schema w pre key sourceKey post :
  _schema (self w) = Some schema ->
  dataSource schema = pre ++ (key, sourceKey) :: post ->
  ~ In key (map fst (pre ++ post)) ->
  key <> "images" ->
  fieldMisses page sourceKey ->
  parseCharacterPage env page options w =
    parseFields env page options (pre ++ post) ∅ w /\
  (forall data w',
      parseCharacterPage env page options w = (Ok data, w') -> data !! key = None).
Proof.
  intros Hs Hd Hin Hk Hm.
  assert (parseCharacterPage env page options w =
            parseFields env page options (pre ++ post) ∅ w) as Heq.
  { unfold parseCharacterPage.
    rewrite (bind_run _ _ _ _ _ (this_schema_run _ _ Hs)), Hd.
    apply parseFields_strike; assumption. }
  split; [exact Heq |].
  intros data w' H. rewrite Heq in H.
  rewrite (parseFields_other env _ _ _ _ _ _ _ _ Hin H). apply lookup_empty.
Qed.

End Properties.

(** ** Runs on the concrete wikis *)

Section Runs.

Import Html Examples.

(** C7: constructing a scraper for ["foo"], a name the registry does not
    have.  [isValidConstructor] only tests that the name is not empty, so
    ["foo"] passes the check and "Invalid wiki name" is not raised; the
    constructor stops on the [TypeError] of reading a property of
    [undefined].  The empty name is the only one the check rejects. *)
Theorem constructor_unknown_name :
  isValidConstructor {| name := "foo"; language := None |} = true /\
  registry !! "foo" = None /\
  constructor noEnv {| name := "foo"; language := None |} =
    Throw (TypeError "Cannot read properties of undefined") /\
  constructor noEnv {| name := ""; language := None |} =
    Throw (Error "Invalid wiki name: ").
Proof. repeat split. Qed.

(** C10: a page with an image of class [thumb] and an infobox row whose
    [data-source] is [thumb] too, read with [images: 'thumb'].  After the
    list of images is stored the general extraction runs for the same key
    and stores the text of the row over it: [images] is bound to a string,
    not to the list. *)
Theorem images_overwritten_by_text :
  exists data w',
    parseCharacterPage noEnv portraitPage (options 5 0 true true)
                       (world [("images", "thumb")]) = (Ok data, w') /\
    getElementsByClassName portraitPage "thumb" <> [] /\
    data !! "images" = Some (VStr "Portrait").
Proof.
  eexists _, _. split; [reflexivity |]. split; [discriminate |].
  vm_compute. reflexivity.
Qed.

(** C2 as stated fails: a run that returns fewer records than [limit]
    (none, after the fetch of a character page failed) although the
    listing is not exhausted: the current page has a "next" control. *)
Lemma fewer_records_without_exhaustion :
  validOptions (options 5 0 false true) /\
  exists w',
    getAll lostEnv 5 (options 5 0 false true) (world []) = (Ok [], w') /\
    ~ exhausted lostEnv w'.
Proof.
  split; [repeat split |].
  eexists. split; [vm_compute; reflexivity |].
  intros (p & Hp & Hn). simpl in Hp. inversion Hp; subst p.
  vm_compute in Hn. discriminate.
Qed.

(** C6 as stated fails for the key [images]: its locator finds no
    element in the page, and the key is there, bound to the empty list. *)
Lemma images_key_without_element :
  getElementsByClassName plainPage "thumb" = [] /\
  fieldMisses plainPage "thumb" /\
  exists data w',
    parseCharacterPage noEnv plainPage (options 5 0 true true)
                       (world [("images", "thumb")]) = (Ok data, w') /\
    data !! "images" = Some (VList []).
Proof.
  split; [reflexivity |]. split; [exact I |].
  eexists _, _. split; [reflexivity |]. vm_compute. reflexivity.
Qed.

(** C8 as stated fails: the page of [C] has a script that matches the
    pattern, with the digits [7], and the id of the record is [0]: the
    first script that includes [pageId] is another one, without a match. *)
Lemma id_zero_despite_match :
  fst (getAll soloEnv 5 (options 5 0 false true) (world [])) =
    Ok [{| r_id := Some (Js.ofZ 0); r_url := "C"; r_name := "Carol"; r_data := None |}] /\
  exists page s,
    fetchDocument soloEnv "w/C" = Resolved page /\
    In s (getElementsByTagName page "script") /\
    textContent s = Some (pageIdKey +:+ "7") /\
    matchesIn (pageIdKey +:+ "7") /\
    extractPageId (pageIdKey +:+ "7") = Js.ofZ 7.
Proof.
  split; [vm_compute; reflexivity |].
  eexists _, _. split; [reflexivity |].
  split; [right; left; reflexivity |].
  split; [reflexivity |].
  split; [| reflexivity].
  exists "", (pageIdKey +:+ "7"). split; [reflexivity |].
  exists "7"%char, "". split; reflexivity.
Qed.

Lemma cast_run :
  getAll castEnv 5 (options 2 1 false true) (world []) =
    (Ok bobAndCarol, snd (getAll castEnv 5 (options 2 1 false true) (world []))).
Proof. vm_compute. reflexivity. Defined.

Lemma options_valid l o r i : 1 <= l -> 0 <= o <= l -> validOptions (options l o r i).
Proof.
  intros H1 H2.
  apply (validOptions_whole _ l o); try assumption; apply JsFacts.isInt_ofZ.
Defined.

Lemma records_follow_listing_witness :
  exists r2 r3 w',
    getAll castEnv 5 (options 2 1 false true) (world []) = (Ok [r2; r3], w') /\
    emitted castEnv (options 2 1 false true) (schema []) (entry "B" "Bob") r2 /\
    emitted castEnv (options 2 1 false true) (schema []) (entry "C" "Carol") r3.
Proof.
  refine (proj2 (proj2 (records_follow_listing castEnv 5 (options 2 1 false true)
                          (schema []) (world []) eq_refl))
                (entry "A" "Alice") (entry "B" "Bob") (entry "C" "Carol")
                (entry "D" "Dave") (entry "E" "Erin") _ eq_refl eq_refl eq_refl _ _ _).
  - vm_compute. reflexivity.
  - vm_compute. reflexivity.
  - split; [reflexivity |]. split; [reflexivity |].
    exists "w/B", (page [ script ("var config = {" +:+ pageIdKey +:+ "42};") ]).
    split; [reflexivity |]. split; [reflexivity | discriminate].
  - split; [reflexivity |]. split; [reflexivity |].
    exists "w/C", (page [ script "var pageId = null;"; script (pageIdKey +:+ "7") ]).
    split; [reflexivity |]. split; [reflexivity | discriminate].
Defined.

Lemma malformed_entry_empties_run_witness :
  exists w1,
    _getAllClassic brokenEnv 5 (options 10 0 false true) (world []) =
      (Throw (Error "No URL found"), w1) /\
    getAll brokenEnv 5 (options 10 0 false true) (world []) =
      (Ok [], logging w1 (LogError (Error "No URL found"))) /\
    requests w1 = ["w/list"; "w/A"].
Proof.
  assert (validOptions (options 10 0 false true)) as Hv by (apply options_valid; lia).
  assert (listing brokenEnv 5 (schema []) !! 1%nat = Some broken) as Hi
    by (vm_compute; reflexivity).
  assert (malformed broken) as Hm by (left; reflexivity).
  assert (actedUpon (options 10 0 false true) (listing brokenEnv 5 (schema [])) 1) as Hwin.
  { apply (actedUpon_window (dom := Html.dom) (options 10 0 false true) _ 1%nat broken
             10 0 eq_refl eq_refl); [lia | exact Hi | simpl; lia]. }
  destruct (malformed_entry_empties_run brokenEnv 5 (options 10 0 false true)
              (schema []) (world []) 1%nat broken Hv eq_refl eq_refl Hi Hm Hwin)
    as (_ & _ & Hthrows).
  destruct Hthrows as (w1 & H1 & H2).
  - intros j e' Hj _ Hlt.
    assert (j = 0%nat) as -> by lia.
    vm_compute in Hj. inversion Hj; subst e'.
    split; [reflexivity |]. split; [reflexivity |].
    exists "w/A", (page []). split; [reflexivity |]. split; [reflexivity |].
    discriminate.
  - exists w1. split; [exact H1 |]. split; [exact H2 |].
    vm_compute in H1. inversion H1. reflexivity.
Defined.

Lemma data_absent_without_recursive_witness :
  Forall (fun r => r_data r = None /\ r_data r <> Some ∅) bobAndCarol.
Proof.
  exact (data_absent_without_recursive castEnv 5 (options 2 1 false true) (world [])
           bobAndCarol _ eq_refl cast_run).
Defined.

Lemma ban_list_before_offset_witness :
  Forall2 (emitted castEnv (options 2 1 false true) (schema []))
          (take 2 (drop 1 (listing castEnv 5 (schema [])))) bobAndCarol.
Proof.
  exact (proj2 (proj2 (proj2 (proj2
           (ban_list_before_offset castEnv 5 (options 2 1 false true) (schema [])
              (world []) bobAndCarol _ eq_refl cast_run)))) 1%nat eq_refl).
Defined.

Lemma limit_bounds_the_run_witness :
  (exists recs w',
      getAll castEnv 5 (options 2 1 false true) (world []) = (Ok recs, w')) /\
  Z.of_nat (length bobAndCarol) <= 2.
Proof.
  assert (validOptions (options 2 1 false true)) as Hv by (apply options_valid; lia).
  destruct (limit_bounds_the_run castEnv 5 (options 2 1 false true) (world []) Hv)
    as [Hreturns Hbound].
  split.
  - apply (Hreturns (schema [])); [reflexivity | vm_compute; reflexivity].
  - apply (proj1 (Hbound bobAndCarol _ cast_run) 2). reflexivity.
Defined.

Lemma page_id_of_records_witness :
  Forall (fun r => exists schema target page,
              _schema (self (world [])) = Some schema /\
              URL_href castEnv (r_url r) (url schema) = Some target /\
              fetchDocument castEnv target = Resolved page /\
              r_id r = Some (extractPageId (idScriptText page))) bobAndCarol.
Proof.
  exact (proj1 (proj2
           (page_id_of_records castEnv 5 (options 2 1 false true) (world [])
              bobAndCarol _ cast_run)) eq_refl).
Defined.

Lemma missing_field_is_absent_witness :
  exists data w',
    parseCharacterPage noEnv plainPage (options 5 0 true true)
                       (world [("age", "Age"); ("name", "Name")]) = (Ok data, w') /\
    data !! "age" = None /\
    data !! "name" = Some (VStr "Light Yagami").
Proof.
  eexists _, _. split; [reflexivity |]. split.
  - refine (proj2 (missing_field_is_absent noEnv plainPage (options 5 0 true true)
                     (schema [("age", "Age"); ("name", "Name")])
                     (world [("age", "Age"); ("name", "Name")])
                     [] "age" "Age" [("name", "Name")] eq_refl eq_refl _ _ I)
                  _ _ eq_refl).
    + simpl. intros [H | []]. discriminate.
    + discriminate.
  - vm_compute. reflexivity.
Defined.

End Runs.

(** ** More properties of the methods *)

Section More.

Context `{dom : DOM} (env : Env).

(** X1: [getAll] never rejects: whatever the options, the instance and the
    web, nothing thrown inside reaches the caller. *)
Theorem getAll_never_rejects fuel options w err w' :
  getAll env fuel options w <> (Throw err, w').
Proof. apply getAll_never_throws. Qed.

(** X2: options that fail a check give the empty list, no request, and one
    console line: the error of the first check that fails, in the order
    limit, offset below 0, offset above limit. *)
Theorem getAll_invalid_options fuel options w :
  Js.lt (limit options) (Js.ofZ 1) = true \/
  Js.lt (offset options) (Js.ofZ 0) = true \/
  Js.gt (offset options) (limit options) = true ->
  getAll env fuel options w =
    (Ok [], after w [] [LogError (Error (invalidMessage options))]) /\
  (Js.lt (limit options) (Js.ofZ 1) = true ->
   invalidMessage options = "Limit must be greater than 0") /\
  (Js.lt (limit options) (Js.ofZ 1) = false ->
   Js.lt (offset options) (Js.ofZ 0) = true ->
   invalidMessage options = "Offset must be greater than 0") /\
  (Js.lt (limit options) (Js.ofZ 1) = false ->
   Js.lt (offset options) (Js.ofZ 0) = false ->
   invalidMessage options = "Offset must be less than limit").
Proof.
  intros H. split; [| split; [| split]].
  - rewrite getAll_invalid by assumption. unfold after, logging.
    rewrite app_nil_r. reflexivity.
  - intros Hl. unfold invalidMessage. rewrite Hl. reflexivity.
  - intros Hl Ho. unfold invalidMessage. rewrite Hl, Ho. reflexivity.
  - intros Hl Ho. unfold invalidMessage. rewrite Hl, Ho. reflexivity.
Qed.

(** X3: for a schema whose page format is [table-1] or [table-2], [getAll]
    with valid options returns the empty list and does nothing: no request,
    no console line, the instance as it was. *)
Theorem getAll_placeholder_formats fuel options schema w :
  validOptions options ->
  _schema (self w) = Some schema ->
  pageFormat schema = table_1 \/ pageFormat schema = table_2 ->
  getAll env fuel options w = (Ok [], w).
Proof.
  intros Hv Hs Hf. apply (getAll_not_classic env _ _ schema); try assumption.
  destruct Hf as [Hf | Hf]; rewrite Hf; discriminate.
Qed.


Lemma getCharactersPage_run u w :
  getCharactersPage env u w =
    match fetchDocument env u with
    | Resolved page =>
        (Ok tt, {| self := {| _schema := _schema (self w); _CharactersPage := Some page |};
                   requests := requests w ++ [u];
                   console := console w |})
    | Rejected err =>
        (Throw (Error ("Error while fetching " +:+ u +:+ ": " +:+ exn_toString err)),
         after w [u] [])
    end.
Proof.
  unfold getCharactersPage, fetchPage, bind, request, set_CharactersPage, after,
    logging_request.
  destruct (fetchDocument env u); simpl; rewrite ?app_nil_r; reflexivity.
Qed.

(** X5: [getCharactersPage] makes one request.  When the fetch succeeds
    the page becomes the current listing page and the schema stays; when it
    fails the method throws "Error while fetching ...", and the instance,
    its current listing page included, is what it was before the call. *)
Theorem getCharactersPage_outcome u w :
  requests (snd (getCharactersPage env u w)) = requests w ++ [u] /\
  console (snd (getCharactersPage env u w)) = console w /\
  _schema (self (snd (getCharactersPage env u w))) = _schema (self w) /\
  match fetchDocument env u with
  | Resolved page =>
      fst (getCharactersPage env u w) = Ok tt /\
      _CharactersPage (self (snd (getCharactersPage env u w))) = Some page
  | Rejected err =>
      fst (getCharactersPage env u w) =
        Throw (Error ("Error while fetching " +:+ u +:+ ": " +:+ exn_toString err)) /\
      self (snd (getCharactersPage env u w)) = self w
  end.
Proof.
  rewrite getCharactersPage_run.
  destruct (fetchDocument env u); simpl; rewrite ?app_nil_r; auto.
Qed.

(** *** The images *)

Lemma after_after w rs cs rs' cs' :
  after (after w rs cs) rs' cs' = after w (rs ++ rs') (cs ++ cs').
Proof. unfold after. simpl. rewrite !app_assoc. reflexivity. Qed.

Lemma after_nil w : after w [] [] = w.
Proof. unfold after. rewrite !app_nil_r. destruct w; reflexivity. Qed.

Lemma logging_after w l : logging w l = after w [] [l].
Proof. unfold logging, after. rewrite app_nil_r. reflexivity. Qed.

Lemma pushImages_plain options key elements : forall images w,
  base64 options = false ->
  pushImages env options key elements images w =
    (Ok (images ++ srcsOf elements), after w [] (missingSrc key elements)).
Proof.
  induction elements as [| element rest IH]; intros images w Hb; simpl.
  - rewrite app_nil_r, after_nil. reflexivity.
  - destruct (Js.truthy (getAttribute element "src")) eqn:Et; simpl.
    + rewrite Hb, IH by assumption. rewrite <- app_assoc. reflexivity.
    + unfold bind at 1. unfold console_error.
      rewrite IH by assumption.
      rewrite logging_after, after_after. reflexivity.
Qed.

Lemma convertImageToBase64_run u w :
  convertImageToBase64 env u w =
    match fetchBytes env u with
    | Resolved buffer => (Ok (toBase64 env buffer), after w [u] [])
    | Rejected err =>
        (Throw err,
         after w [u] [LogMessageError "Error fetching or converting image:" err])
    end.
Proof.
  unfold convertImageToBase64, try_catch, bind, request, console_error, after,
    logging, logging_request.
  destruct (fetchBytes env u); simpl; rewrite ?app_nil_r; reflexivity.
Qed.

Lemma pushImages_encoded options key elements : forall images w,
  base64 options = true ->
  Forall (fetchable env) (srcsOf elements) ->
  pushImages env options key elements images w =
    (Ok (images ++ map (base64Of env) (srcsOf elements)),
     after w (srcsOf elements) (missingSrc key elements)).
Proof.
  induction elements as [| element rest IH]; intros images w Hb Hf; simpl.
  - rewrite app_nil_r, after_nil. reflexivity.
  - simpl in Hf.
    destruct (Js.truthy (getAttribute element "src")) eqn:Et; simpl.
    + rewrite Hb. simpl in Hf. inversion Hf as [| ? ? [buffer Hu] Hf']; subst.
      unfold bind at 1. rewrite convertImageToBase64_run, Hu.
      rewrite IH by assumption.
      unfold base64Of at 2. rewrite Hu.
      rewrite after_after, <- app_assoc. reflexivity.
    + unfold bind at 1. unfold console_error.
      rewrite IH by assumption.
      rewrite logging_after, after_after. reflexivity.
Qed.

Lemma pushImages_fails options key pre element post err : forall images w,
  base64 options = true ->
  Forall (fetchable env) (srcsOf pre) ->
  Js.truthy (getAttribute element "src") = true ->
  fetchBytes env (Js.nullish (getAttribute element "src") "") = Rejected err ->
  pushImages env options key (pre ++ element :: post) images w =
    (Throw err,
     after w (srcsOf pre ++ [Js.nullish (getAttribute element "src") ""])
           (missingSrc key pre ++
            [LogMessageError "Error fetching or converting image:" err])).
Proof.
  induction pre as [| e0 pre IH]; intros images w Hb Hf Ht Hu; simpl.
  - rewrite Ht, Hb. simpl. unfold bind. rewrite convertImageToBase64_run, Hu.
    reflexivity.
  - simpl in Hf.
    destruct (Js.truthy (getAttribute e0 "src")) eqn:Et; simpl.
    + rewrite Hb. simpl in Hf. inversion Hf as [| ? ? [buffer Hu0] Hf']; subst.
      unfold bind at 1. rewrite convertImageToBase64_run, Hu0.
      rewrite IH by assumption. rewrite after_after. reflexivity.
    + unfold bind at 1. unfold console_error.
      rewrite IH by assumption.
      rewrite logging_after, after_after. reflexivity.
Qed.

(** The general extraction, on its own: what it does to the data. *)
Lemma fieldMisses_foundText page sourceKey :
  fieldMisses page sourceKey ->
  foundText page sourceKey = None /\
  exists r, querySelectorDataSource page sourceKey = Normal r.
Proof.
  unfold fieldMisses, foundText.
  destruct (querySelectorDataSource page sourceKey) as [[element |] | err];
    [| eauto | contradiction].
  destruct (head (descendantsByClassName element "pi-data-value")) as [valueElement |];
    [| eauto].
  intros ->. eauto.
Qed.

(** What [parseField] does for [images], given the list the loop built:
    the general extraction throws on a locator that breaks the selector,
    and writes the text it finds over the list. *)
Lemma parseField_images_run page options sourceKey data w images w1 :
  Js.truthy (Some sourceKey) = true ->
  pushImages env options "images" (getElementsByClassName page sourceKey) [] w =
    (Ok images, w1) ->
  parseField env page options "images" sourceKey data w =
    (match querySelectorDataSource page sourceKey with
     | Abrupt e => Throw e
     | Normal _ =>
         Ok (<["images" := match foundText page sourceKey with
                           | Some t => VStr (removeBrackets env t)
                           | None => VList images
                           end]> data)
     end, w1).
Proof.
  intros Ht Hp. unfold parseField, foundText. rewrite Ht. simpl.
  unfold bind at 1. unfold bind at 1. rewrite Hp. unfold ret at 1.
  destruct (querySelectorDataSource page sourceKey) as [[element |] | err];
    try reflexivity.
  destruct (head (descendantsByClassName element "pi-data-value")) as [valueElement |];
    [| reflexivity].
  destruct (textContent valueElement) as [[| c t] |]; simpl; try reflexivity.
  unfold ret. rewrite insert_insert_eq. reflexivity.
Qed.

(** With [base64] off a field makes no request, whatever it finds. *)
Lemma parseField_plain page options key sourceKey data w :
  base64 options = false ->
  exists r cs,
    parseField env page options key sourceKey data w = (r, after w [] cs) /\
    r <> Unfinished /\
    (locatorOk page sourceKey -> exists d, r = Ok d) /\
    (forall e, sourceKey <> "" -> querySelectorDataSource page sourceKey = Abrupt e ->
               r = Throw e).
Proof.
  intros Hb. unfold parseField, locatorOk.
  destruct sourceKey as [| c sk]; simpl.
  { exists (Ok data), []. rewrite after_nil.
    split; [reflexivity |]. split; [discriminate |]. split; [eauto | congruence]. }
  set (sourceKey := String c sk).
  assert (forall (d0 : gmap string Value) w0 cs0,
             w0 = after w [] cs0 ->
             exists (r : outcome (gmap string Value)) cs,
               match querySelectorDataSource page sourceKey with
               | Abrupt e => throw e
               | Normal None => ret d0
               | Normal (Some element) =>
                   match head (descendantsByClassName element "pi-data-value") with
                   | None => ret d0
                   | Some valueElement =>
                       if negb (Js.truthy (textContent valueElement)) then ret d0
                       else ret (<[key := VStr (removeBrackets env
                                                  (Js.nullish (textContent valueElement) ""))]> d0)
                   end
               end w0 = (r, after w [] cs) /\
               r <> Unfinished /\
               (String c sk = "" \/
                (exists r0, querySelectorDataSource page sourceKey = Normal r0) ->
                exists d, r = Ok d) /\
               (forall e, String c sk <> "" ->
                          querySelectorDataSource page sourceKey = Abrupt e ->
                          r = Throw e)) as Hgeneral.
  { intros d0 w0 cs0 ->.
    destruct (querySelectorDataSource page sourceKey) as [[element |] | err].
    - destruct (head (descendantsByClassName element "pi-data-value")) as [valueElement |];
        [destruct (negb (Js.truthy (textContent valueElement))) |];
        eexists _, cs0; (split; [reflexivity |]); (split; [discriminate |]);
        (split; [eauto | congruence]).
    - eexists _, cs0. split; [reflexivity |]. split; [discriminate |].
      split; [eauto | congruence].
    - exists (Throw err), cs0. split; [reflexivity |]. split; [discriminate |].
      split.
      + intros [? | [r0 ?]]; congruence.
      + intros e _ He. congruence. }
  destruct (String.eqb key "images").
  - unfold bind at 1. unfold bind at 1. rewrite pushImages_plain by assumption.
    unfold ret at 1. apply (Hgeneral _ _ _ eq_refl).
  - unfold bind at 1. unfold ret at 1.
    apply (Hgeneral _ _ []). rewrite after_nil. reflexivity.
Qed.

Lemma parseFields_plain page options format : forall data w,
  base64 options = false ->
  exists r cs,
    parseFields env page options format data w = (r, after w [] cs) /\
    r <> Unfinished /\
    (Forall (locatorOk page) (map snd format) -> exists d, r = Ok d).
Proof.
  induction format as [| [key sourceKey] rest IH]; intros data w Hb; simpl.
  - exists (Ok data), []. rewrite after_nil.
    split; [reflexivity |]. split; [discriminate | eauto].
  - destruct (parseField_plain page options key sourceKey data w Hb)
      as (r1 & cs1 & H1 & Hu1 & Hok1 & _).
    unfold bind. rewrite H1. destruct r1 as [d1 | e1 |]; [| | congruence].
    + destruct (IH d1 (after w [] cs1) Hb) as (r & cs & H & Hu & Hok).
      exists r, (cs1 ++ cs). rewrite H, after_after.
      split; [reflexivity |]. split; [assumption |].
      intros Hf. inversion Hf; subst. auto.
    + exists (Throw e1), cs1. split; [reflexivity |]. split; [discriminate |].
      intros Hf. inversion Hf as [| ? ? Hl _]; subst.
      destruct (Hok1 Hl) as [d Hd]. discriminate.
Qed.

(** The first field whose locator breaks the selector stops the
    extraction. *)
Lemma parseFields_throws page options pre key sourceKey post e : forall data w,
  base64 options = false ->
  Forall (locatorOk page) (map snd pre) ->
  sourceKey <> "" ->
  querySelectorDataSource page sourceKey = Abrupt e ->
  exists cs,
    parseFields env page options (pre ++ (key, sourceKey) :: post) data w =
      (Throw e, after w [] cs).
Proof.
  induction pre as [| [key0 sourceKey0] pre IH]; intros data w Hb Hf Hk He; simpl.
  - destruct (parseField_plain page options key sourceKey data w Hb)
      as (r1 & cs1 & H1 & _ & _ & Hthrow).
    rewrite (Hthrow e Hk He) in H1.
    exists cs1. unfold bind. rewrite H1. reflexivity.
  - inversion Hf as [| ? ? Hl Hf']; subst.
    destruct (parseField_plain page options key0 sourceKey0 data w Hb)
      as (r1 & cs1 & H1 & _ & Hok1 & _).
    destruct (Hok1 Hl) as [d1 ->].
    unfold bind. rewrite H1.
    destruct (IH d1 (after w [] cs1) Hb Hf' Hk He) as (cs & H).
    exists (cs1 ++ cs). rewrite H, after_after. reflexivity.
Qed.

Lemma parseFields_app page options pre post : forall data w,
  parseFields env page options (pre ++ post) data w =
    bind (parseFields env page options pre data)
         (fun d => parseFields env page options post d) w.
Proof.
  induction pre as [| [key sourceKey] pre IH]; intros data w; simpl.
  - reflexivity.
  - unfold bind.
    destruct (parseField env page options key sourceKey data w) as [[d | e |] w1];
      [| reflexivity | reflexivity].
    rewrite IH. unfold bind. reflexivity.
Qed.

(** X6: the images with [base64] off.  For a data source with the key
    [images], on a page without a row under the locator of the images,
    every mapping [parseCharacterPage] returns binds [images] to the [src]
    attributes of the elements of the class, in document order, those
    without [src] left out; no request is made, whatever the outcome; and
    the extraction returns when no other locator breaks its selector. *)
Theorem images_are_the_srcs page options schema pre sourceKey post w :
  _schema (self w) = Some schema ->
  dataSource schema = pre ++ ("images", sourceKey) :: post ->
  ~ In "images" (map fst (pre ++ post)) ->
  sourceKey <> "" ->
  base64 options = false ->
  fieldMisses page sourceKey ->
  (forall data w',
      parseCharacterPage env page options w = (Ok data, w') ->
      data !! "images" = Some (VList (srcsOf (getElementsByClassName page sourceKey)))) /\
  (exists cs, snd (parseCharacterPage env page options w) = after w [] cs) /\
  (Forall (locatorOk page) (map snd (pre ++ post)) ->
   exists data cs, parseCharacterPage env page options w = (Ok data, after w [] cs)).
Proof.
  intros Hs Hd Hin Hk Hb Hm.
  assert (Js.truthy (Some sourceKey) = true) as Ht
    by (destruct sourceKey; [congruence | reflexivity]).
  destruct (fieldMisses_foundText _ _ Hm) as [Hnone [r0 Hr0]].
  unfold parseCharacterPage.
  rewrite (bind_run _ _ _ _ _ (this_schema_run _ _ Hs)), Hd.
  split; [| split].
  - intros data w' H. rewrite parseFields_app in H.
    apply bind_Ok in H as (d1 & w1 & _ & H). simpl in H.
    apply bind_Ok in H as (d2 & w2 & H2 & H).
    rewrite (parseField_images_run page options sourceKey d1 w1 _ _ Ht
               (pushImages_plain options "images" _ [] _ Hb)) in H2.
    rewrite Hr0, Hnone in H2. inversion H2; subst d2 w2.
    assert (~ In "images" (map fst post)) as Hpost
      by (rewrite map_app, in_app_iff in Hin; tauto).
    rewrite (parseFields_other env _ _ _ _ _ _ _ _ Hpost H).
    apply lookup_insert_eq.
  - destruct (parseFields_plain page options (pre ++ ("images", sourceKey) :: post) ∅ w Hb)
      as (r & cs & H & _). rewrite H. eauto.
  - intros Hf.
    destruct (parseFields_plain page options (pre ++ ("images", sourceKey) :: post) ∅ w Hb)
      as (r & cs & H & _ & Hok).
    destruct Hok as [d ->]; [| eauto].
    rewrite map_app in Hf |- *. apply Forall_app in Hf as [Hf1 Hf2].
    apply Forall_app. split; [assumption |].
    constructor; [| assumption]. right. eauto.
Qed.

(** X7: the images with [base64] on, every image being fetched, for a
    data source that only asks for the images.  The requests made are the
    [src] attributes, in document order, one each.  Then the general
    extraction runs under the same locator: when it finds no row the list
    of the base64 texts, in the same order, is what [images] is bound to;
    when it finds one, its text replaces the list; and a locator that
    breaks the selector makes the call throw, after the images were
    fetched. *)
Theorem images_are_encoded page options schema sourceKey w :
  _schema (self w) = Some schema ->
  dataSource schema = [("images", sourceKey)] ->
  sourceKey <> "" ->
  base64 options = true ->
  Forall (fetchable env) (srcsOf (getElementsByClassName page sourceKey)) ->
  parseCharacterPage env page options w =
    (match querySelectorDataSource page sourceKey with
     | Abrupt e => Throw e
     | Normal _ =>
         Ok {[ "images" :=
                 match foundText page sourceKey with
                 | Some t => VStr (removeBrackets env t)
                 | None =>
                     VList (map (base64Of env)
                                (srcsOf (getElementsByClassName page sourceKey)))
                 end ]}
     end,
     after w (srcsOf (getElementsByClassName page sourceKey))
           (missingSrc "images" (getElementsByClassName page sourceKey))) /\
  (fieldMisses page sourceKey ->
   parseCharacterPage env page options w =
     (Ok {[ "images" :=
              VList (map (base64Of env) (srcsOf (getElementsByClassName page sourceKey))) ]},
      after w (srcsOf (getElementsByClassName page sourceKey))
            (missingSrc "images" (getElementsByClassName page sourceKey)))).
Proof.
  intros Hs Hd Hk Hb Hf.
  assert (Js.truthy (Some sourceKey) = true) as Ht
    by (destruct sourceKey; [congruence | reflexivity]).
  assert (parseCharacterPage env page options w =
            (match querySelectorDataSource page sourceKey with
             | Abrupt e => Throw e
             | Normal _ =>
                 Ok {[ "images" :=
                         match foundText page sourceKey with
                         | Some t => VStr (removeBrackets env t)
                         | None =>
                             VList (map (base64Of env)
                                        (srcsOf (getElementsByClassName page sourceKey)))
                         end ]}
             end,
             after w (srcsOf (getElementsByClassName page sourceKey))
                   (missingSrc "images" (getElementsByClassName page sourceKey)))) as H.
  { unfold parseCharacterPage.
    rewrite (bind_run _ _ _ _ _ (this_schema_run _ _ Hs)), Hd. simpl.
    unfold bind.
    rewrite (parseField_images_run page options sourceKey ∅ w _ _ Ht
               (pushImages_encoded options "images" _ [] w Hb Hf)).
    destruct (querySelectorDataSource page sourceKey); reflexivity. }
  split; [exact H |].
  intros Hm. destruct (fieldMisses_foundText _ _ Hm) as [Hnone [r0 Hr0]].
  rewrite H, Hr0, Hnone. reflexivity.
Qed.

(** X8: the images with [base64] on, one image failing: the first image
    whose fetch is rejected makes [parseCharacterPage] throw the error of
    this fetch, whatever the fields that come after; the images before it
    were requested, the ones after it are not, and the error is logged
    once. *)
Theorem image_failure_aborts_extraction page options schema sourceKey rest w
    pre element post err :
  _schema (self w) = Some schema ->
  dataSource schema = ("images", sourceKey) :: rest ->
  sourceKey <> "" ->
  base64 options = true ->
  getElementsByClassName page sourceKey = pre ++ element :: post ->
  Forall (fetchable env) (srcsOf pre) ->
  Js.truthy (getAttribute element "src") = true ->
  fetchBytes env (Js.nullish (getAttribute element "src") "") = Rejected err ->
  parseCharacterPage env page options w =
    (Throw err,
     after w (srcsOf pre ++ [Js.nullish (getAttribute element "src") ""])
           (missingSrc "images" pre ++
            [LogMessageError "Error fetching or converting image:" err])).
Proof.
  intros Hs Hd Hk Hb He Hf Ht Hu.
  assert (Js.truthy (Some sourceKey) = true) as Hts
    by (destruct sourceKey; [congruence | reflexivity]).
  unfold parseCharacterPage.
  rewrite (bind_run _ _ _ _ _ (this_schema_run _ _ Hs)), Hd. simpl.
  unfold parseField. rewrite Hts. simpl. rewrite He.
  unfold bind at 1 2 3.
  rewrite (pushImages_fails options "images" pre element post err [] w Hb Hf Ht Hu).
  reflexivity.
Qed.

(** *** The other fields *)

Lemma parseField_keys page options key sourceKey data w d w' (key' : string) :
  parseField env page options key sourceKey data w = (Ok d, w') ->
  d !! key' <> None ->
  data !! key' <> None \/ (key' = key /\ sourceKey <> "").
Proof.
  intros H Hd. destruct (decide (key' = key)) as [-> | Hne].
  - destruct sourceKey as [| c sk].
    + unfold parseField in H. simpl in H. inversion H; subst. left. assumption.
    + right. split; [reflexivity | discriminate].
  - left. rewrite <- (parseField_other env _ _ _ _ _ _ _ _ _ Hne H). assumption.
Qed.

Lemma parseFields_keys page options format : forall data w d w' (key : string),
  parseFields env page options format data w = (Ok d, w') ->
  d !! key <> None ->
  data !! key <> None \/ exists sourceKey, In (key, sourceKey) format /\ sourceKey <> "".
Proof.
  induction format as [| [key0 sourceKey0] rest IH]; intros data w d w' key H Hd;
    simpl in H.
  - inversion H; subst. left. assumption.
  - apply bind_Ok in H as (d1 & w1 & H1 & H).
    destruct (IH _ _ _ _ _ H Hd) as [Hd1 | (sk & Hin & Hsk)].
    + destruct (parseField_keys _ _ _ _ _ _ _ _ _ H1 Hd1) as [? | [-> Hsk]];
        [left; assumption |].
      right. exists sourceKey0. split; [left; reflexivity | assumption].
    + right. exists sk. split; [right; assumption | assumption].
Qed.

(** X9: with [base64] off, [parseCharacterPage] on an instance with a
    schema makes no request and leaves the instance as it is, whatever its
    outcome: all it may do is log lines.  It returns a mapping when no
    locator of the data source breaks the selector of the general
    extraction; otherwise it throws the error of [querySelector] for the
    first locator that does. *)
Theorem extraction_without_base64 page options schema w :
  _schema (self w) = Some schema ->
  base64 options = false ->
  (exists r cs,
      parseCharacterPage env page options w = (r, after w [] cs) /\ r <> Unfinished) /\
  (Forall (locatorOk page) (map snd (dataSource schema)) ->
   exists data cs, parseCharacterPage env page options w = (Ok data, after w [] cs)) /\
  (forall pre key sourceKey post e,
      dataSource schema = pre ++ (key, sourceKey) :: post ->
      Forall (locatorOk page) (map snd pre) ->
      sourceKey <> "" ->
      querySelectorDataSource page sourceKey = Abrupt e ->
      exists cs, parseCharacterPage env page options w = (Throw e, after w [] cs)).
Proof.
  intros Hs Hb. unfold parseCharacterPage.
  rewrite (bind_run _ _ _ _ _ (this_schema_run _ _ Hs)).
  split; [| split].
  - destruct (parseFields_plain page options (dataSource schema) ∅ w Hb)
      as (r & cs & H & Hu & _). eauto.
  - intros Hf.
    destruct (parseFields_plain page options (dataSource schema) ∅ w Hb)
      as (r & cs & H & _ & Hok).
    destruct (Hok Hf) as [d ->]. eauto.
  - intros pre key sourceKey post e -> Hf Hk He.
    apply parseFields_throws; assumption.
Qed.

(** X10: the keys of the mapping [parseCharacterPage] returns are keys of
    the data source with a non-empty locator: the extraction adds no other
    key, and a key whose locator is empty (or undefined) is never bound. *)
Theorem extraction_keys_come_from_the_data_source page options schema w data w'
    (key : string) :
  _schema (self w) = Some schema ->
  parseCharacterPage env page options w = (Ok data, w') ->
  data !! key <> None ->
  exists sourceKey, In (key, sourceKey) (dataSource schema) /\ sourceKey <> "".
Proof.
  intros Hs H Hd. unfold parseCharacterPage in H.
  rewrite (bind_run _ _ _ _ _ (this_schema_run _ _ Hs)) in H.
  destruct (parseFields_keys _ _ _ _ _ _ _ _ H Hd) as [He | Hin]; [| exact Hin].
  rewrite lookup_empty in He. congruence.
Qed.

Lemma parseField_found page options key sourceKey data w d w' element valueElement :
  Js.truthy (Some sourceKey) = true ->
  querySelectorDataSource page sourceKey = Normal (Some element) ->
  head (descendantsByClassName element "pi-data-value") = Some valueElement ->
  Js.truthy (textContent valueElement) = true ->
  parseField env page options key sourceKey data w = (Ok d, w') ->
  d !! key = Some (VStr (removeBrackets env (Js.nullish (textContent valueElement) ""))).
Proof.
  intros Ht Hq Hh Hv. unfold parseField. rewrite Ht, Hq, Hh, Hv. simpl.
  intros H. apply bind_Ok in H as (d1 & w1 & _ & H). inversion H.
  apply lookup_insert_eq.
Qed.

(** X11: a field whose row is found.  When the page has an element with
    the [data-source] of the field, a value element in it and a non-empty
    text, the key is bound to [removeBrackets] of this text in every
    mapping [parseCharacterPage] returns, whatever the other fields of the
    data source find. *)
Theorem found_field_is_its_cleaned_text page options schema w pre key sourceKey post
    element valueElement data w' :
  _schema (self w) = Some schema ->
  dataSource schema = pre ++ (key, sourceKey) :: post ->
  ~ In key (map fst post) ->
  sourceKey <> "" ->
  querySelectorDataSource page sourceKey = Normal (Some element) ->
  head (descendantsByClassName element "pi-data-value") = Some valueElement ->
  Js.truthy (textContent valueElement) = true ->
  parseCharacterPage env page options w = (Ok data, w') ->
  data !! key = Some (VStr (removeBrackets env (Js.nullish (textContent valueElement) ""))).
Proof.
  intros Hs Hd Hin Hk Hq Hh Hv H.
  assert (Js.truthy (Some sourceKey) = true) as Ht
    by (destruct sourceKey; [congruence | reflexivity]).
  unfold parseCharacterPage in H.
  rewrite (bind_run _ _ _ _ _ (this_schema_run _ _ Hs)), Hd, parseFields_app in H.
  apply bind_Ok in H as (d1 & w1 & _ & H). simpl in H.
  apply bind_Ok in H as (d2 & w2 & H2 & H).
  rewrite (parseFields_other env _ _ _ _ _ _ _ _ Hin H).
  eapply parseField_found; eassumption.
Qed.

End More.

(** ** More on the page id *)

Section PageIdMore.

Import Js JsFacts.

Lemma isDigit_value c : isDigit c = true -> 0 <= digitValue c <= 9.
Proof.
  unfold isDigit, digitValue. intros H.
  apply andb_true_iff in H as [H1 H2].
  apply Nat.leb_le in H1, H2. lia.
Qed.

Lemma parseDigits_nonneg ds : forall acc,
  0 <= acc -> allDigits ds = true -> 0 <= parseDigits acc ds.
Proof.
  induction ds as [| c ds IH]; intros acc Ha Hd; simpl; [assumption |].
  simpl in Hd. apply andb_true_iff in Hd as [Hc Hd].
  apply IH; [| assumption]. pose proof (isDigit_value c Hc). lia.
Qed.

Lemma allDigits_takeDigits s : allDigits (takeDigits s) = true.
Proof.
  induction s as [| c s IH]; simpl; [reflexivity |].
  destruct (isDigit c) eqn:E; simpl; [rewrite E; assumption | reflexivity].
Qed.

Lemma matchPageId_group s whole group :
  matchPageId s = Some (whole, group) ->
  whole = pageIdKey +:+ group /\ group <> "" /\ allDigits group = true.
Proof.
  assert (forall b g, b && truthy (Some g) = true -> allDigits g = true ->
                      Some (pageIdKey +:+ g, g) = Some (whole, group) ->
                      whole = pageIdKey +:+ group /\ group <> "" /\ allDigits group = true)
    as Hhere.
  { intros b g E Hd H. injection H as <- <-. apply andb_true_iff in E as [_ E2].
    split; [reflexivity |]. split; [| assumption].
    intros Hg. rewrite Hg in E2. discriminate. }
  induction s as [| c s IH]; rewrite matchPageId_eq; cbv zeta;
    destruct (startsWith _ pageIdKey && _) eqn:E; intros H.
  - apply (Hhere _ _ E (allDigits_takeDigits _) H).
  - discriminate.
  - apply (Hhere _ _ E (allDigits_takeDigits _) H).
  - apply IH. assumption.
Qed.

Lemma parseDigits_uint d : forall acc,
  parseDigits (Z.of_nat acc) (NilEmpty.string_of_uint d) = Z.of_nat (Nat.of_uint_acc d acc).
Proof.
  induction d; intros acc; simpl; try reflexivity;
    rewrite <- IHd; f_equal; rewrite Nat.tail_mul_spec;
    match goal with
    | |- context [digitValue ?c] =>
        let v := eval vm_compute in (digitValue c) in change (digitValue c) with v
    end.
  all: lia.
Qed.

Lemma allDigits_uint d : allDigits (NilEmpty.string_of_uint d) = true.
Proof. induction d; simpl; try reflexivity; assumption. Qed.

Lemma decimal_nonempty n : decimal n <> "".
Proof.
  unfold decimal. intros H.
  assert (Nat.to_uint n = Decimal.Nil) as Hn
    by (destruct (Nat.to_uint n); simpl in H; congruence).
  pose proof (DecimalNat.Unsigned.of_to n) as Hof. rewrite Hn in Hof.
  simpl in Hof. subst n. discriminate.
Qed.

Lemma parseInt_decimal n : parseInt (decimal n) = nearest (Z.of_nat n).
Proof.
  unfold parseInt, decimal.
  change 0 with (Z.of_nat 0). rewrite parseDigits_uint.
  do 2 f_equal. apply DecimalNat.Unsigned.of_to.
Qed.

Lemma matchesAt_quote s : matchesAt s -> exists t, s = String "034" t.
Proof. intros (d & rest & -> & _). eexists. reflexivity. Qed.

(** X12: a page id is read back.  A script text that holds the key
    ["pageId":] followed by the decimal writing of [n] and by something
    that is not a digit, with no double quote before the key, gives the
    double nearest to [n], which is [n] itself below [2^53]:
    [extractPageId] is then the inverse of writing the id. *)
Theorem page_id_round_trip (n : nat) pre rest :
  includes pre (String "034" "") = false ->
  takeDigits rest = "" ->
  extractPageId (pre +:+ pageIdKey +:+ decimal n +:+ rest) = nearest (Z.of_nat n) /\
  (Z.of_nat n < 2 ^ 53 ->
   extractPageId (pre +:+ pageIdKey +:+ decimal n +:+ rest) = ofZ (Z.of_nat n)).
Proof.
  intros Hq Hr.
  assert (extractPageId (pre +:+ pageIdKey +:+ decimal n +:+ rest) =
            nearest (Z.of_nat n)) as H.
  { rewrite extractPageId_first; [apply parseInt_decimal | apply decimal_nonempty
                                 | apply allDigits_uint | assumption |].
    intros p1 p2 Hp Hne Hm. destruct p2 as [| c p2]; [congruence |].
    apply matchesAt_quote in Hm as [t Hm]. rewrite append_String in Hm.
    inversion Hm; subst c.
    assert (includes pre (String "034" "") = true) as Hin; [| congruence].
    apply includes_spec. exists p1, p2. rewrite Hp. reflexivity. }
  split; [exact H |].
  intros Hn. rewrite H. apply nearest_exact. assumption.
Qed.

(** X13: [extractPageId] never returns a negative number, whatever the
    text of the script: [0 <= id] holds of every result, which is then
    not [NaN] either. *)
Theorem page_id_is_not_negative scriptContent :
  le (ofZ 0) (extractPageId scriptContent) = true.
Proof.
  unfold extractPageId.
  destruct (matchPageId scriptContent) as [[whole group] |] eqn:E; [| reflexivity].
  apply matchPageId_group in E as (_ & _ & Hd).
  apply nearest_nonneg. apply parseDigits_nonneg; [lia | assumption].
Qed.

(** Past [2^53] the id read is not the id written: the digits of
    [2^53 + 1] give [2^53]. *)
Lemma page_id_past_exact :
  extractPageId (pageIdKey +:+ "9007199254740993") = ofZ 9007199254740992.
Proof. vm_compute. reflexivity. Qed.

End PageIdMore.

(** ** More on the listing and on the run *)

Section MoreRun.

Context `{dom : DOM} (env : Env).

Lemma includes_empty s : Js.includes s "" = true.
Proof. destruct s; reflexivity. Qed.

(** X14: the edges of the ban list.  With an empty ban list
    [filterBannedElement] keeps every element; with a ban list that holds a
    substring whose lower case is empty it keeps none, since every text
    includes the empty string. *)
Theorem ban_list_edges elements :
  filterBannedElement env elements [] = elements /\
  (forall banList substring,
      In substring banList -> toLowerCase env substring = "" ->
      filterBannedElement env elements banList = []).
Proof.
  split.
  - unfold filterBannedElement. simpl.
    induction elements as [| e rest IH]; simpl; [reflexivity | f_equal; assumption].
  - intros banList substring Hin Hl. unfold filterBannedElement.
    induction elements as [| e rest IH]; simpl; [reflexivity |].
    replace (existsb _ banList) with true; [exact IH |].
    symmetry. apply existsb_exists. exists substring. split; [assumption |].
    rewrite Hl. apply includes_empty.
Qed.

(** X15: the ban lists compose.  Filtering with two ban lists put end to
    end is filtering with the first, then with the second; filtering twice
    with the same list is filtering once; and the elements of two
    collections put end to end are filtered each on its side. *)
Theorem ban_lists_compose elements banList banList' :
  filterBannedElement env elements (banList ++ banList') =
    filterBannedElement env (filterBannedElement env elements banList) banList' /\
  filterBannedElement env (filterBannedElement env elements banList) banList =
    filterBannedElement env elements banList /\
  (forall elements',
      filterBannedElement env (elements ++ elements') banList =
        filterBannedElement env elements banList ++
        filterBannedElement env elements' banList).
Proof.
  unfold filterBannedElement. split; [| split].
  - induction elements as [| e rest IH]; simpl; [reflexivity |].
    rewrite existsb_app.
    destruct (existsb _ banList) eqn:E1; simpl; [exact IH |].
    destruct (existsb _ banList') eqn:E2; simpl; [exact IH | f_equal; exact IH].
  - induction elements as [| e rest IH]; simpl; [reflexivity |].
    destruct (existsb _ banList) eqn:E1; simpl; [exact IH |].
    rewrite E1. simpl. f_equal. exact IH.
  - intros elements'. apply List.filter_app.
Qed.

(** X16: the listing URL cannot be fetched.  [getAll], with valid options
    and a classic schema, makes this one request, logs the error
    "Error while fetching ..." it caught and returns the empty list; the
    instance is as it was. *)
Theorem listing_url_unreachable fuel options schema w err :
  validOptions options ->
  _schema (self w) = Some schema ->
  pageFormat schema = classic ->
  fetchDocument env (charactersUrl schema) = Rejected err ->
  getAll env fuel options w =
    (Ok [],
     after w [charactersUrl schema]
           [LogError (Error ("Error while fetching " +:+ charactersUrl schema +:+ ": "
                             +:+ exn_toString err))]).
Proof.
  intros Hv Hs Hf He.
  rewrite (getAll_classic env _ _ schema) by assumption.
  unfold _getAllClassic.
  rewrite (bind_run _ _ _ _ _ (this_schema_run _ _ Hs)).
  unfold getCharactersPage, fetchPage. unfold bind at 1 2 3. unfold request.
  rewrite He. reflexivity.
Qed.

Lemma forOf_below_offset options elements : forall l w,
  (forall j, 0 <= j < Z.of_nat (length elements) ->
             Js.ge (Js.ofZ (l_offset l + j)) (offset options) = false) ->
  forOf env options elements l w =
    (Ok (inl {| l_data := l_data l; l_hasNext := l_hasNext l;
                l_offset := l_offset l + Z.of_nat (length elements);
                l_count := l_count l |}), w).
Proof.
  induction elements as [| e rest IH]; intros l w H.
  - simpl. rewrite Z.add_0_r. destruct l; reflexivity.
  - rewrite length_cons, Nat2Z.inj_succ in H |- *.
    pose proof (Nat2Z.is_nonneg (length rest)) as Hn.
    specialize (IH (skipped l) w).
    revert H Hn IH. generalize (Z.of_nat (length rest)). intros n H Hn IH.
    assert (Js.ge (Js.ofZ (l_offset l)) (offset options) = false) as Hlt.
    { rewrite <- (Z.add_0_r (l_offset l)). apply H. lia. }
    cbn [forOf]. rewrite (bind_run _ _ _ _ _ (forBody_skip env options e l w Hlt)).
    rewrite IH.
    + unfold skipped. simpl. do 4 f_equal. lia.
    + intros j Hj. unfold skipped. simpl l_offset.
      replace (l_offset l + 1 + j) with (l_offset l + (j + 1)) by lia.
      apply H. lia.
Qed.

(** X17: the entries below the offset cost nothing.  On a page whose
    entries all come before the requested offset (the test
    [offset >= options.offset] fails at the position of each), the loop
    over the entries makes no request, logs nothing and throws nothing,
    even for entries without [href] or text; it only counts them. *)
Theorem entries_below_offset_are_only_counted options elements l w :
  (forall j, 0 <= j < Z.of_nat (length elements) ->
             Js.ge (Js.ofZ (l_offset l + j)) (offset options) = false) ->
  exists l',
    forOf env options elements l w = (Ok (inl l'), w) /\
    l_data l' = l_data l /\ l_count l' = l_count l /\
    l_offset l' = l_offset l + Z.of_nat (length elements).
Proof.
  intros H. eexists. split; [apply forOf_below_offset; assumption |].
  simpl. auto.
Qed.

(** *** The schema of the instance *)

Lemma keeps_schema_of_self {A} (m : M A) : keeps_self m -> keeps_schema m.
Proof. intros H w r w' E. rewrite (H _ _ _ E). reflexivity. Qed.

Lemma keeps_schema_bind {A B} (m : M A) (k : A -> M B) :
  keeps_schema m -> (forall a, keeps_schema (k a)) -> keeps_schema (bind m k).
Proof.
  intros Hm Hk w r w'. unfold bind.
  destruct (m w) as [[a | e |] w1] eqn:E; intros H.
  - rewrite (Hk _ _ _ _ H). eauto.
  - inversion H; subst. eauto.
  - inversion H; subst. eauto.
Qed.

Lemma keeps_schema_try_catch {A} (m : M A) h :
  keeps_schema m -> (forall e, keeps_schema (h e)) -> keeps_schema (try_catch m h).
Proof.
  intros Hm Hh w r w'. unfold try_catch.
  destruct (m w) as [[a | e |] w1] eqn:E; intros H.
  - inversion H; subst. eauto.
  - rewrite (Hh _ _ _ _ H). eauto.
  - inversion H; subst. eauto.
Qed.

Lemma keeps_schema_getCharactersPage u : keeps_schema (getCharactersPage env u).
Proof.
  intros w r w' H. rewrite getCharactersPage_run in H.
  destruct (fetchDocument env u); inversion H; reflexivity.
Qed.

Lemma keeps_schema_whileLoop fuel options : forall l,
  keeps_schema (whileLoop env fuel options l).
Proof.
  induction fuel as [| fuel IH]; intros l; simpl;
    destruct (l_hasNext l && Js.lt (Js.ofZ (l_count l)) (limit options));
    try (intros w r w' H; inversion H; reflexivity).
  apply keeps_schema_bind;
    [apply keeps_schema_of_self, keeps_this_CharactersPage |].
  intros page. apply keeps_schema_bind;
    [apply keeps_schema_of_self, keeps_forOf |].
  intros [l1 | data]; [| apply keeps_schema_of_self; auto with run].
  apply keeps_schema_bind;
    [apply keeps_schema_of_self, keeps_this_CharactersPage |].
  intros page1.
  destruct (head _); [| apply IH].
  destruct (negb _); [apply IH |].
  apply keeps_schema_bind; [apply keeps_schema_getCharactersPage | intros _; apply IH].
Qed.

Lemma keeps_schema_getAll fuel options : keeps_schema (getAll env fuel options).
Proof.
  unfold getAll. apply keeps_schema_bind.
  - apply keeps_schema_try_catch.
    + destruct (Js.lt (limit options) (Js.ofZ 1));
        [apply keeps_schema_of_self; auto with run |].
      destruct (Js.lt (offset options) (Js.ofZ 0));
        [apply keeps_schema_of_self; auto with run |].
      destruct (Js.gt (offset options) (limit options));
        [apply keeps_schema_of_self; auto with run |].
      apply keeps_schema_bind; [apply keeps_schema_of_self, keeps_this_schema |].
      intros schema. destruct (pageFormat schema);
        try (apply keeps_schema_of_self; auto with run; fail).
      apply keeps_schema_bind; [| intros data; apply keeps_schema_of_self; auto with run].
      unfold _getAllClassic.
      apply keeps_schema_bind; [apply keeps_schema_of_self, keeps_this_schema |].
      intros sc. apply keeps_schema_bind; [apply keeps_schema_getCharactersPage |].
      intros _. apply keeps_schema_whileLoop.
    + intros e. apply keeps_schema_of_self. run_auto.
  - intros [data |]; apply keeps_schema_of_self; auto with run.
Qed.

(** X18: [getAll] never changes the schema of the instance, whatever the
    outcome of the run: of the two fields of the instance only the current
    listing page is written. *)
Theorem getAll_keeps_the_schema fuel options w :
  _schema (self (snd (getAll env fuel options w))) = _schema (self w).
Proof.
  destruct (getAll env fuel options w) as [r w'] eqn:E.
  apply (keeps_schema_getAll fuel options w r w' E).
Qed.

(** *** The option [base64] *)

Lemma forBody_base64 b options e l w :
  recursive options = false ->
  forBody env (set_base64 b options) e l w = forBody env options e l w.
Proof. intros Hr. unfold forBody, set_base64. simpl. rewrite Hr. reflexivity. Qed.

Lemma forOf_base64 b options elements : forall l w,
  recursive options = false ->
  forOf env (set_base64 b options) elements l w = forOf env options elements l w.
Proof.
  induction elements as [| e rest IH]; intros l w Hr; simpl; [reflexivity |].
  unfold bind. rewrite forBody_base64 by assumption.
  destruct (forBody env options e l w) as [[[l1 | data] | err |] w1]; auto.
Qed.

Lemma whileLoop_base64 b options fuel : forall l w,
  recursive options = false ->
  whileLoop env fuel (set_base64 b options) l w = whileLoop env fuel options l w.
Proof.
  induction fuel as [| fuel IH]; intros l w Hr; simpl; [reflexivity |].
  destruct (l_hasNext l && Js.lt (Js.ofZ (l_count l)) (limit options)); [| reflexivity].
  unfold bind at 1 5.
  destruct (this_CharactersPage w) as [[page | err |] w0]; try reflexivity.
  unfold bind at 1 4. rewrite forOf_base64 by assumption.
  destruct (forOf env options _ l w0) as [[[l1 | data] | err |] w1]; try reflexivity.
  unfold bind at 1 3.
  destruct (this_CharactersPage w1) as [[page1 | err |] w2]; try reflexivity.
  destruct (head _); [| apply IH; assumption].
  destruct (negb _); [apply IH; assumption |].
  unfold bind.
  destruct (getCharactersPage env _ w2) as [[[] | err |] w3]; try reflexivity.
  apply IH. assumption.
Qed.

(** X19: [base64] only matters with [recursive].  With [recursive] off,
    [getAll] gives the same result and leaves the same world whether
    [base64] is on or off: no image is fetched. *)
Theorem base64_is_ignored_without_recursive b fuel options w :
  recursive options = false ->
  getAll env fuel (set_base64 b options) w = getAll env fuel options w.
Proof.
  intros Hr. unfold getAll, try_catch. unfold bind at 1 5. simpl.
  destruct (Js.lt (limit options) (Js.ofZ 1)); [reflexivity |].
  destruct (Js.lt (offset options) (Js.ofZ 0)); [reflexivity |].
  destruct (Js.gt (offset options) (limit options)); [reflexivity |].
  unfold bind at 1 4.
  destruct (this_schema w) as [[schema | err |] w0]; try reflexivity.
  destruct (pageFormat schema); try reflexivity.
  unfold bind at 1 3. unfold _getAllClassic. unfold bind at 1 4.
  destruct (this_schema w0) as [[sc | err |] w1]; try reflexivity.
  unfold bind at 1 3.
  destruct (getCharactersPage env _ w1) as [[[] | err |] w2]; try reflexivity.
  rewrite whileLoop_base64 by assumption. reflexivity.
Qed.

(** *** The run that meets no error *)

(** X20: a run in which nothing goes wrong returns the whole window.  For
    valid options whose limit [n] and offset [k] are whole numbers and a
    classic schema, when the listing can be walked to its end within the
    fuel and the entries at positions [k] to [k + n - 1] are fine,
    [getAll] returns one record for each of these entries, in order: as
    many as [n], or as many as the listing has from [k] on if that is
    fewer.  What the entries below the offset are does not matter. *)
Theorem run_returns_the_window fuel options schema w n k :
  validOptions options ->
  Js.isInt (limit options) n -> Js.isInt (offset options) k ->
  _schema (self w) = Some schema ->
  pageFormat schema = classic ->
  listingCompletes env fuel schema = true ->
  (forall (j : nat) e,
      listing env fuel schema !! j = Some e ->
      k <= Z.of_nat j < k + n ->
      entryOk env options schema e) ->
  exists recs w',
    getAll env fuel options w = (Ok recs, w') /\
    Forall2 (emitted env options schema)
            (take (Z.to_nat n) (drop (Z.to_nat k) (listing env fuel schema)))
            recs /\
    length recs =
      Nat.min (Z.to_nat n) (length (listing env fuel schema) - Z.to_nat k).
Proof.
  intros Hv Hn Hk Hs Hf Hw Hok.
  assert (0 <= k) as Hk0.
  { destruct Hv as (_ & Hv2 & _).
    rewrite (JsFacts.isInt_lt_l _ _ _ Hk) in Hv2. apply Z.ltb_ge in Hv2. lia. }
  destruct (_getAllClassic_complete env options schema Hv fuel w Hs Hw)
    as (recs & w' & H).
  { intros j e Hj _ Hge Hb. apply (Hok j e Hj).
    pose proof (window_reachable options _ _ _ _ _ Hn Hk Hj Hge Hb). lia. }
  pose proof (getAll_classic env fuel options schema w Hv Hs Hf) as Hg.
  rewrite H in Hg. exists recs, w'. split; [exact Hg |].
  destruct Hv as (Hl & _).
  destruct (_getAllClassic_window env options schema Hl fuel w recs w' n k Hn Hk Hs H)
    as [Hfull _].
  split; [exact Hfull |].
  apply Forall2_length in Hfull. rewrite <- Hfull, length_take, length_drop.
  reflexivity.
Qed.

(** *** The requests of a run *)

Lemma grows_ret {A} (a : A) : grows (@ret dom A a).
Proof. intros w r w' H. inversion H. exists []. rewrite app_nil_r. reflexivity. Qed.

Lemma grows_throw {A} e : grows (@throw dom A e).
Proof. intros w r w' H. inversion H. exists []. rewrite app_nil_r. reflexivity. Qed.

Lemma grows_unfinished {A} : grows (@unfinished dom A).
Proof. intros w r w' H. inversion H. exists []. rewrite app_nil_r. reflexivity. Qed.

Lemma grows_get_self : grows get_self.
Proof. intros w r w' H. inversion H. exists []. rewrite app_nil_r. reflexivity. Qed.

Lemma grows_console_error l : grows (console_error l).
Proof. intros w r w' H. inversion H. exists []. simpl. rewrite app_nil_r. reflexivity. Qed.

Lemma grows_set_CharactersPage d : grows (set_CharactersPage d).
Proof. intros w r w' H. inversion H. exists []. simpl. rewrite app_nil_r. reflexivity. Qed.

Lemma grows_request u : grows (request u).
Proof. intros w r w' H. inversion H. exists [u]. reflexivity. Qed.

Lemma grows_bind {A B} (m : M A) (k : A -> M B) :
  grows m -> (forall a, grows (k a)) -> grows (bind m k).
Proof.
  intros Hm Hk w r w'. unfold bind.
  destruct (m w) as [[a | e |] w1] eqn:E; intros H.
  - destruct (Hm _ _ _ E) as [rs1 H1], (Hk _ _ _ _ H) as [rs2 H2].
    exists (rs1 ++ rs2). rewrite H2, H1, app_assoc. reflexivity.
  - inversion H; subst. eauto.
  - inversion H; subst. eauto.
Qed.

Lemma grows_try_catch {A} (m : M A) h :
  grows m -> (forall e, grows (h e)) -> grows (try_catch m h).
Proof.
  intros Hm Hh w r w'. unfold try_catch.
  destruct (m w) as [[a | e |] w1] eqn:E; intros H.
  - inversion H; subst. eauto.
  - destruct (Hm _ _ _ E) as [rs1 H1], (Hh _ _ _ _ H) as [rs2 H2].
    exists (rs1 ++ rs2). rewrite H2, H1, app_assoc. reflexivity.
  - inversion H; subst. eauto.
Qed.

Ltac grow :=
  repeat first
    [ apply grows_bind; [ | intros ? ]
    | apply grows_try_catch; [ | intros ? ]
    | apply grows_ret | apply grows_throw | apply grows_unfinished
    | apply grows_get_self | apply grows_console_error
    | apply grows_set_CharactersPage | apply grows_request
    | assumption
    | match goal with
      | |- grows (match ?x with _ => _ end) => destruct x
      | |- grows (if ?x then _ else _) => destruct x
      end ].

Lemma grows_pushImages options key elements : forall images,
  grows (pushImages env options key elements images).
Proof.
  induction elements as [| element rest IH]; intros images; simpl.
  - grow.
  - unfold convertImageToBase64. grow; apply IH.
Qed.

Lemma grows_parseFields page options format : forall data,
  grows (parseFields env page options format data).
Proof.
  induction format as [| [key sourceKey] rest IH]; intros data; simpl.
  - grow.
  - apply grows_bind; [| intros d; apply IH].
    unfold parseField. grow. apply grows_pushImages.
Qed.

Lemma grows_forBody options e l : grows (forBody env options e l).
Proof.
  unfold forBody, this_schema, fetchPage, parseCharacterPage, this_schema.
  grow. apply grows_parseFields.
Qed.

Lemma grows_forOf options elements : forall l, grows (forOf env options elements l).
Proof.
  induction elements as [| e rest IH]; intros l; simpl.
  - grow.
  - apply grows_bind; [apply grows_forBody |]. intros [l1 | data]; [apply IH | grow].
Qed.

Lemma grows_whileLoop fuel options : forall l, grows (whileLoop env fuel options l).
Proof.
  induction fuel as [| fuel IH]; intros l; simpl.
  - grow.
  - unfold this_CharactersPage, getCharactersPage, fetchPage.
    destruct (l_hasNext l && Js.lt (Js.ofZ (l_count l)) (limit options)); [| grow].
    apply grows_bind; [grow |]. intros page.
    apply grows_bind; [apply grows_forOf |].
    intros [l1 | data]; [| grow].
    apply grows_bind; [grow |]. intros page1.
    destruct (head _); [| apply IH].
    destruct (negb _); [apply IH |].
    apply grows_bind; [grow | intros _; apply IH].
Qed.

(** X21: a classic run starts with the listing.  With valid options and a
    classic schema, the first request [getAll] makes is the listing URL of
    the schema, whatever happens next; the requests made before the call
    stay in front of it. *)
Theorem first_request_is_the_listing fuel options schema w :
  validOptions options ->
  _schema (self w) = Some schema ->
  pageFormat schema = classic ->
  exists rs,
    requests (snd (getAll env fuel options w)) =
      requests w ++ charactersUrl schema :: rs.
Proof.
  intros Hv Hs Hf.
  rewrite (getAll_classic env _ _ schema) by assumption.
  assert (exists rs, requests (snd (_getAllClassic env fuel options w)) =
                       requests w ++ charactersUrl schema :: rs) as [rs Hrs].
  { unfold _getAllClassic.
    rewrite (bind_run _ _ _ _ _ (this_schema_run _ _ Hs)).
    unfold bind at 1.
    rewrite getCharactersPage_run.
    destruct (fetchDocument env (charactersUrl schema)) as [page | err].
    - match goal with
      | |- context [whileLoop env fuel options ?l ?w1] =>
          destruct (whileLoop env fuel options l w1) as [r w'] eqn:E;
          destruct (grows_whileLoop fuel options l w1 r w' E) as [rs Hrs]
      end.
      exists rs. simpl in *. rewrite Hrs, <- app_assoc. reflexivity.
    - exists []. reflexivity. }
  exists rs.
  destruct (_getAllClassic env fuel options w) as [[data | err |] w']; exact Hrs.
Qed.

End MoreRun.

(** ** More runs on the concrete wikis *)

Section MoreRuns.

Import Html Examples MoreExamples.

Lemma getAll_invalid_options_witness :
  getAll noEnv 5 (options 1 5 false true) (world []) =
    (Ok [], after (world []) [] [LogError (Error "Offset must be less than limit")]).
Proof.
  refine (proj1 (getAll_invalid_options noEnv 5 (options 1 5 false true) (world []) _)).
  right. right. reflexivity.
Defined.

Lemma getAll_placeholder_formats_witness :
  getAll trioEnv 5 (options 10 0 false true) tableWorld = (Ok [], tableWorld).
Proof.
  refine (getAll_placeholder_formats trioEnv 5 (options 10 0 false true) tableSchema
            tableWorld _ eq_refl _).
  - apply options_valid; lia.
  - left. reflexivity.
Defined.


Lemma images_are_the_srcs_witness :
  exists data cs,
    parseCharacterPage galleryEnv gallery (optionsB64 5 0 true false true)
                       (world [("name", "Name"); ("images", "thumb")]) =
      (Ok data, after (world [("name", "Name"); ("images", "thumb")]) [] cs) /\
    data !! "images" = Some (VList ["a.png"; "b.png"]).
Proof.
  assert (~ In "images" (map fst ([("name", "Name")] ++ []))) as Hin
    by (simpl; intros [H | []]; discriminate).
  assert ("thumb" <> "") as Hk by discriminate.
  destruct (images_are_the_srcs galleryEnv gallery (optionsB64 5 0 true false true)
              (schema [("name", "Name"); ("images", "thumb")]) [("name", "Name")] "thumb" []
              (world [("name", "Name"); ("images", "thumb")]) eq_refl eq_refl Hin Hk
              eq_refl I)
    as (Himages & _ & Hreturns).
  destruct Hreturns as (data & cs & H).
  - constructor; [right; eexists; reflexivity | constructor].
  - exists data, cs. split; [exact H | exact (Himages _ _ H)].
Defined.

Lemma images_are_encoded_witness :
  parseCharacterPage galleryEnv gallery (optionsB64 5 0 true true true)
                     (world [("images", "thumb")]) =
    (Ok {[ "images" := VList ["QQ=="; "QQ=="] ]},
     after (world [("images", "thumb")]) ["a.png"; "b.png"]
           [LogMessage "No src found for key images"]).
Proof.
  refine (proj2 (images_are_encoded galleryEnv gallery (optionsB64 5 0 true true true)
                   (schema [("images", "thumb")]) "thumb" (world [("images", "thumb")])
                   eq_refl eq_refl _ eq_refl _) I).
  - discriminate.
  - repeat constructor; eexists; reflexivity.
Defined.

Lemma image_failure_aborts_extraction_witness :
  parseCharacterPage halfGalleryEnv gallery (optionsB64 5 0 true true true)
                     (world [("images", "thumb"); ("name", "Name")]) =
    (Throw (TypeError "fetch failed"),
     after (world [("images", "thumb"); ("name", "Name")]) ["a.png"; "b.png"]
           [LogMessage "No src found for key images";
            LogMessageError "Error fetching or converting image:" (TypeError "fetch failed")]).
Proof.
  refine (image_failure_aborts_extraction halfGalleryEnv gallery
            (optionsB64 5 0 true true true)
            (schema [("images", "thumb"); ("name", "Name")]) "thumb" [("name", "Name")]
            (world [("images", "thumb"); ("name", "Name")])
            [img "a.png"; imgNoSrc] (img "b.png") [] (TypeError "fetch failed")
            eq_refl eq_refl _ eq_refl eq_refl _ eq_refl eq_refl).
  - discriminate.
  - repeat constructor; eexists; reflexivity.
Defined.

Lemma extraction_without_base64_witness :
  (exists data cs,
      parseCharacterPage noEnv portraitPage (options 5 0 true true)
                         (world [("images", "thumb"); ("name", "Name")]) =
        (Ok data, after (world [("images", "thumb"); ("name", "Name")]) [] cs)) /\
  (exists cs,
      parseCharacterPage noEnv plainPage (options 5 0 true true)
                         (world [("name", "Name"); ("age", quoted)]) =
        (Throw (selectorError quoted),
         after (world [("name", "Name"); ("age", quoted)]) [] cs)).
Proof.
  split.
  - refine (proj1 (proj2 (extraction_without_base64 noEnv portraitPage
                            (options 5 0 true true)
                            (schema [("images", "thumb"); ("name", "Name")])
                            (world [("images", "thumb"); ("name", "Name")])
                            eq_refl eq_refl)) _).
    constructor; [right; eexists; reflexivity |].
    constructor; [right; eexists; reflexivity | constructor].
  - refine (proj2 (proj2 (extraction_without_base64 noEnv plainPage
                            (options 5 0 true true)
                            (schema [("name", "Name"); ("age", quoted)])
                            (world [("name", "Name"); ("age", quoted)])
                            eq_refl eq_refl))
                  [("name", "Name")] "age" quoted [] (selectorError quoted)
                  eq_refl _ _ eq_refl).
    + constructor; [right; eexists; reflexivity | constructor].
    + discriminate.
Defined.

Lemma extraction_keys_come_from_the_data_source_witness :
  exists sourceKey,
    In ("name", sourceKey) [("age", "Age"); ("name", "Name")] /\ sourceKey <> "".
Proof.
  refine (extraction_keys_come_from_the_data_source noEnv plainPage
            (options 5 0 true true) (schema [("age", "Age"); ("name", "Name")])
            (world [("age", "Age"); ("name", "Name")])
            ({[ "name" := VStr "Light Yagami" ]} : gmap string Value)
            (world [("age", "Age"); ("name", "Name")]) "name" eq_refl _ _).
  - vm_compute. reflexivity.
  - vm_compute. discriminate.
Defined.

Lemma found_field_is_its_cleaned_text_witness :
  exists data w',
    parseCharacterPage noEnv plainPage (options 5 0 true true)
                       (world [("age", "Age"); ("name", "Name")]) = (Ok data, w') /\
    data !! "name" = Some (VStr "Light Yagami").
Proof.
  eexists _, _. split; [reflexivity |].
  refine (found_field_is_its_cleaned_text noEnv plainPage (options 5 0 true true)
            (schema [("age", "Age"); ("name", "Name")])
            (world [("age", "Age"); ("name", "Name")])
            [("age", "Age")] "name" "Name" []
            (infoRow "Name" "Light Yagami")
            (Tag "div" [("class", "pi-data-value")] [Text "Light Yagami"])
            _ _ eq_refl eq_refl _ _ eq_refl eq_refl eq_refl eq_refl).
  - simpl. tauto.
  - discriminate.
Defined.

Lemma page_id_round_trip_witness : extractPageId idScriptExample = Js.ofZ 4711.
Proof.
  refine (proj2 (page_id_round_trip 4711 "var config = {" ",};" _ _) _); reflexivity.
Defined.

Lemma ban_list_edges_witness :
  filterBannedElement noEnv [entry "A" "Alice"; entry "B" "Bob"] ["Category:"; ""] = [].
Proof.
  refine (proj2 (ban_list_edges noEnv [entry "A" "Alice"; entry "B" "Bob"])
                ["Category:"; ""] "" _ eq_refl).
  right. left. reflexivity.
Defined.

Lemma listing_url_unreachable_witness :
  getAll noEnv 5 (options 10 0 false true) (world []) =
    (Ok [],
     after (world []) ["w/list"]
           [LogError (Error "Error while fetching w/list: TypeError: fetch failed")]).
Proof.
  refine (listing_url_unreachable noEnv 5 (options 10 0 false true) (schema [])
            (world []) (TypeError "fetch failed") _ eq_refl eq_refl eq_refl).
  apply options_valid; lia.
Defined.

Lemma entries_below_offset_are_only_counted_witness :
  exists l',
    forOf brokenEnv (options 10 5 false true) [entry "A" "Alice"; broken; entry "B" "Bob"]
          {| l_data := []; l_hasNext := true; l_offset := 0; l_count := 0 |} (world []) =
      (Ok (inl l'), world []) /\
    l_data l' = [] /\ l_count l' = 0 /\ l_offset l' = 0 + 3.
Proof.
  refine (entries_below_offset_are_only_counted brokenEnv (options 10 5 false true)
            [entry "A" "Alice"; broken; entry "B" "Bob"]
            {| l_data := []; l_hasNext := true; l_offset := 0; l_count := 0 |}
            (world []) _).
  intros j Hj. simpl in *. rewrite JsFacts.ge_ofZ. apply Z.leb_gt. lia.
Defined.

Lemma base64_is_ignored_without_recursive_witness :
  getAll castEnv 5 (set_base64 true (options 2 1 false true)) (world []) =
    getAll castEnv 5 (options 2 1 false true) (world []).
Proof.
  exact (base64_is_ignored_without_recursive castEnv true 5 (options 2 1 false true)
           (world []) eq_refl).
Defined.

Lemma trio_fine j e :
  listing trioEnv 5 (schema []) !! j = Some e ->
  entryOk trioEnv (options 10 0 false true) (schema []) e.
Proof.
  intros Hj.
  destruct j as [| [| [| j]]]; vm_compute in Hj; inversion Hj; subst e;
    (split; [reflexivity |]; split; [reflexivity |];
     eexists _, (page []); split; [reflexivity |]; split; [reflexivity | discriminate]).
Defined.

Lemma run_returns_the_window_witness :
  exists recs w',
    getAll trioEnv 5 (options 10 0 false true) (world []) = (Ok recs, w') /\
    Forall2 (emitted trioEnv (options 10 0 false true) (schema []))
            (take 10 (drop 0 (listing trioEnv 5 (schema [])))) recs /\
    length recs = 3%nat.
Proof.
  refine (run_returns_the_window trioEnv 5 (options 10 0 false true) (schema [])
            (world []) 10 0 _ eq_refl eq_refl eq_refl eq_refl _ _).
  - apply options_valid; lia.
  - vm_compute. reflexivity.
  - intros j e Hj _. exact (trio_fine j e Hj).
Defined.

Lemma first_request_is_the_listing_witness :
  exists rs,
    requests (snd (getAll castEnv 5 (options 2 1 false true) (world []))) =
      [] ++ "w/list" :: rs.
Proof.
  refine (first_request_is_the_listing castEnv 5 (options 2 1 false true) (schema [])
            (world []) _ eq_refl eq_refl).
  apply options_valid; lia.
Defined.

(** A limit that is not a whole number is passed: the count is never equal
    to 1.5, the run goes on to the end of the page and returns three
    records. *)
Lemma limit_not_whole_is_passed :
  validOptions oneAndAHalf /\
  exists recs w',
    getAll trioEnv 5 oneAndAHalf (world []) = (Ok recs, w') /\
    length recs = 3%nat /\
    Js.lt (limit oneAndAHalf) (Js.ofZ (Z.of_nat (length recs))) = true.
Proof.
  split; [repeat split |].
  eexists _, _. split; [vm_compute; reflexivity |]. split; reflexivity.
Qed.

End MoreRuns.
